(** * The deterministic core of the snake arena (src/game/engine.ts, prng.ts)

    A shallow embedding of the tick resolver, the food manager, the AI policy,
    the respawn scheduler and the mulberry32 generator, followed by the
    properties of the specification.  The frame loop of useGameEngine.ts and
    the joystick of App.tsx come after the engine; their properties, with
    further properties of the engine, close the file.

    Number model.  The engine keeps grid coordinates, ticks, counters and
    lengths integral: they are [Z] (or [nat] for [length]), and a config is a
    record of integers.  The speed, the speed accumulator, effect
    multipliers, food weights, AI scores and the draws of the generator are
    fractional: they are rationals [Q], and [advanceState] computes with them
    exactly.  A draw of the generator is [u / 2^32] for a 32-bit [u], so it
    is exact in doubles too, and products of a draw with a board dimension
    are exact in doubles for boards below 2^21 cells a side.  The comparisons
    the engine makes on fractional values ([accumulator >= 1], the weight
    thresholds 0.6 and 0.8 against a draw) come out the same in both models
    on the runs evaluated below: on the states the engine can reach every
    speed is 1 and every agent moves on every tick.  Where the rounding of
    doubles decides, the arithmetic is IEEE 754 binary64 ([F64]): in the
    speed gate of an agent with a fractional speed ([advanceState64], the
    tick with the gate rounded as the code rounds it) and in the clock of
    the frame loop.

    Exceptions.  Reading [segments[0]] of an empty segment list and then a
    coordinate of it throws a TypeError in the source; the embedding returns
    [None] there ([option] is the error monad of the file). *)

From Stdlib Require Import ZArith QArith Qround Qpower Qabs Lia Lqa SpecFloat.
From stdpp Require Import base option gmap strings list pretty.

Local Open Scope Z_scope.

(** ** types.ts *)

(** 'up' | 'down' | 'left' | 'right'; capitalised, [left] and [right] being
    the constructors of [sumbool]. *)
Inductive Direction := Up | Down | Left | Right.

#[global] Instance Direction_eq_dec : EqDecision Direction.
Proof. solve_decision. Defined.

Record Vec2 := mkVec2 { x : Z; y : Z }.

#[global] Instance Vec2_eq_dec : EqDecision Vec2.
Proof. solve_decision. Defined.

Inductive Controller := player | ai.

#[global] Instance Controller_eq_dec : EqDecision Controller.
Proof. solve_decision. Defined.

Inductive EffectType := speedBoost.

#[global] Instance EffectType_eq_dec : EqDecision EffectType.
Proof. solve_decision. Defined.

Inductive FoodKind := standard | speed | bulk.

#[global] Instance FoodKind_eq_dec : EqDecision FoodKind.
Proof. solve_decision. Defined.

Inductive Status := running | gameover.

#[global] Instance Status_eq_dec : EqDecision Status.
Proof. solve_decision. Defined.

Inductive Reason := wall | body | head.

#[global] Instance Reason_eq_dec : EqDecision Reason.
Proof. solve_decision. Defined.

Module Effect.
Record t := mk { type : EffectType; multiplier : Q; expiresAtTick : Z }.
End Effect.

Module Template.
Record t := mk { type : EffectType; multiplier : Q; duration : Z }.
End Template.

Module Snake.
Record t := mk {
  id : string;
  segments : list Vec2;
  direction : Direction;
  alive : bool;
  pendingTurn : option Direction;
  speed : Q;
  accumulator : Q;
  controller : Controller;
  pendingGrowth : Z;
  effects : list Effect.t;
  safeUntilTick : Z;
}.
End Snake.

Module Food.
Record t := mk {
  id : string;
  position : Vec2;
  kind : FoodKind;
  growth : Z;
  effect : option Template.t;
}.
End Food.

Module Config.
Record t := mk { cols : Z; rows : Z; tickRate : Z; seed : Z; aiCount : Z }.
End Config.

(** Partial<GameConfig>: every field may be absent. *)
Module Partial.
Record t := mk {
  cols : option Z;
  rows : option Z;
  tickRate : option Z;
  seed : option Z;
  aiCount : option Z;
}.
Definition empty : t := mk None None None None None.
End Partial.

Module Ticket.
Record t := mk { snakeId : string; controller : Controller; ticksRemaining : Z }.
End Ticket.

(** InputCommand; its [type] field is the constant 'turn'. *)
Module Command.
Record t := mk { snakeId : string; direction : Direction }.
End Command.

(** GameState.  The [stats] field of types.ts is never read or written by the
    engine and is left out. *)
Module State.
Record t := mk {
  tick : Z;
  config : Config.t;
  snakes : list Snake.t;
  foods : list Food.t;
  rngState : Z;
  status : Status;
  respawnQueue : list Ticket.t;
}.
End State.

(** ** prng.ts: mulberry32

    A 32-bit value is kept as its unsigned representative; [^], [|], [>>>]
    and Math.imul act on the bit pattern, and the one plain addition is
    reduced by the [^=] that follows it. *)

Definition u32 (z : Z) : Z := z mod 4294967296.

Definition imul (a b : Z) : Z := u32 (a * b).

Definition createRng (seed : Z) : Z := u32 seed.

(** [next] gives the numerator of the draw and the new state. *)
Definition nextBits (state : Z) : Z * Z :=
  let state := u32 (state + 1831565813) in
  let t := state in
  let t := imul (Z.lxor t (Z.shiftr t 15)) (Z.lor t 1) in
  let t := Z.lxor t (u32 (t + imul (Z.lxor t (Z.shiftr t 7)) (Z.lor t 61))) in
  (u32 (Z.lxor t (Z.shiftr t 14)), state).

Definition next (state : Z) : Q * Z :=
  let '(bits, state) := nextBits state in (bits # 4294967296, state).

(** ** engine.ts: geometry *)

Definition directionVectors (d : Direction) : Vec2 :=
  match d with
  | Up => mkVec2 0 (-1)
  | Down => mkVec2 0 1
  | Left => mkVec2 (-1) 0
  | Right => mkVec2 1 0
  end.

Definition allDirections : list Direction := [Up; Down; Left; Right].

Definition opposite (d : Direction) : Direction :=
  match d with
  | Up => Down
  | Down => Up
  | Left => Right
  | Right => Left
  end.

(** The key of a cell.  The source renders the pair as the string "x,y",
    which is injective on integers; the key is the pair itself. *)
Definition cellKey (pos : Vec2) : Z * Z := (x pos, y pos).

Definition nextPosition (from : Vec2) (d : Direction) : Vec2 :=
  let delta := directionVectors d in
  mkVec2 (x from + x delta) (y from + y delta).

Definition defaultConfig : Config.t := Config.mk 32 24 10 1 2.

Definition clampConfig (config : Config.t) : Config.t :=
  Config.mk (Z.max 8 (Config.cols config))
            (Z.max 8 (Config.rows config))
            (Z.max 1 (Config.tickRate config))
            (Config.seed config)
            (Z.max 0 (Z.min 4 (Config.aiCount config))).

(** { ...defaultConfig, ...partialConfig } *)
Definition mergeConfig (base : Config.t) (over : Partial.t) : Config.t :=
  Config.mk (default (Config.cols base) (Partial.cols over))
            (default (Config.rows base) (Partial.rows over))
            (default (Config.tickRate base) (Partial.tickRate over))
            (default (Config.seed base) (Partial.seed over))
            (default (Config.aiCount base) (Partial.aiCount over)).

Definition buildSnake (id : string) (hd : Vec2) (d : Direction)
    (c : Controller) (safeUntilTick : Z) : Snake.t :=
  let vector := directionVectors d in
  let body :=
    hd :: map (fun i => mkVec2 (x hd - x vector * i) (y hd - y vector * i)) [1; 2] in
  Snake.mk id body d true None 1%Q 0%Q c 0 [] safeUntilTick.

Definition applyInput (snake : Snake.t) (d : Direction) : Snake.t :=
  if decide (d = opposite (Snake.direction snake)) then snake
  else Snake.mk (Snake.id snake) (Snake.segments snake) (Snake.direction snake)
         (Snake.alive snake) (Some d) (Snake.speed snake)
         (Snake.accumulator snake) (Snake.controller snake)
         (Snake.pendingGrowth snake) (Snake.effects snake)
         (Snake.safeUntilTick snake).

Definition maybeTurn (snake : Snake.t) : Direction * option Direction :=
  match Snake.pendingTurn snake with
  | Some t =>
      if decide (t <> opposite (Snake.direction snake)) then (t, None)
      else (Snake.direction snake, Snake.pendingTurn snake)
  | None => (Snake.direction snake, Snake.pendingTurn snake)
  end.

Module Layout.
Record t := mk { head : Vec2; direction : Direction }.
End Layout.

Definition createSpawnPoints (config : Config.t) : list Layout.t :=
  let cols := Config.cols config in
  let rows := Config.rows config in
  let margin := Z.max 3 (Qfloor (inject_Z (Z.min cols rows) * (1 # 10))) in
  let rightX := Z.max margin (cols - margin - 1) in
  let leftX := Z.min (cols - margin - 1) margin in
  let topY := Z.min (rows - margin - 1) margin in
  let bottomY := Z.max margin (rows - margin - 1) in
  let centerX := cols / 2 in
  [ Layout.mk (mkVec2 leftX topY) Right;
    Layout.mk (mkVec2 rightX topY) Left;
    Layout.mk (mkVec2 rightX bottomY) Left;
    Layout.mk (mkVec2 leftX bottomY) Right;
    Layout.mk (mkVec2 centerX topY) Down;
    Layout.mk (mkVec2 centerX bottomY) Up ].

(** ** engine.ts: food table *)

Module FoodDef.
Record t := mk {
  kind : FoodKind;
  weight : Q;
  growth : Z;
  effect : option Template.t;
}.
End FoodDef.

Definition speedDefinition : FoodDef.t :=
  FoodDef.mk speed (2 # 10) 1 (Some (Template.mk speedBoost (16 # 10) 18)).

Definition foodDefinitions : list FoodDef.t :=
  [ FoodDef.mk standard (6 # 10) 1 None;
    FoodDef.mk bulk (2 # 10) 3 None;
    speedDefinition ].

Definition totalFoodWeight : Q :=
  fold_left (fun acc d => (acc + FoodDef.weight d)%Q) foodDefinitions 0%Q.

Fixpoint pickFrom (value : Q) (defs : list FoodDef.t) : option FoodDef.t :=
  match defs with
  | [] => None
  | d :: rest =>
      let value := (value - FoodDef.weight d)%Q in
      if Qle_bool value 0 then Some d else pickFrom value rest
  end.

Definition pickFoodDefinition (rng : Z) : FoodDef.t * Z :=
  let '(v, rng) := next rng in
  (default speedDefinition (pickFrom (v * totalFoodWeight)%Q foodDefinitions), rng).

Definition MAX_FOOD : nat := 5.
Definition RESPAWN_DELAY_TICKS : Z := 24.
Definition SAFE_RESPAWN_TICKS : Z := 12.

Definition isSnakeSafe (snake : Snake.t) (tick : Z) : bool :=
  bool_decide (tick < Snake.safeUntilTick snake).

Definition pruneEffects (effects : list Effect.t) (tick : Z) : list Effect.t :=
  List.filter (fun e => bool_decide (tick < Effect.expiresAtTick e)) effects.

Definition getSpeedMultiplier (effects : list Effect.t) : Q :=
  fold_left
    (fun multiplier e =>
       match Effect.type e with
       | speedBoost => (multiplier * Effect.multiplier e)%Q
       end)
    effects 1%Q.

Definition manhattanDistance (a b : Vec2) : Z :=
  Z.abs (x a - x b) + Z.abs (y a - y b).

Definition inBounds (config : Config.t) (p : Vec2) : bool :=
  negb (bool_decide (x p < 0) || bool_decide (y p < 0)
        || bool_decide (Config.cols config <= x p)
        || bool_decide (Config.rows config <= y p)).

(** ** engine.ts: occupancy *)

(** A string used as a condition: undefined and the empty string are falsy. *)
Definition truthy (o : option string) : bool :=
  match o with
  | Some s => negb (bool_decide (s = EmptyString))
  | None => false
  end.

(** snakes.forEach(snake => snake.segments.forEach(segment =>
      occupancy.set(cellKey(segment), snake.id))) *)
Definition buildOccupancy (snakes : list Snake.t) : gmap (Z * Z) string :=
  fold_left
    (fun occ snake =>
       fold_left (fun occ segment => <[cellKey segment := Snake.id snake]> occ)
                 (Snake.segments snake) occ)
    snakes ∅.

Definition addCells (cells : list Vec2) (occupied : gset (Z * Z)) : gset (Z * Z) :=
  fold_left (fun occ segment => {[cellKey segment]} ∪ occ) cells occupied.

Definition occupiedCells (snakes : list Snake.t) (foods : list Food.t) : gset (Z * Z) :=
  let occupied :=
    fold_left (fun occ snake => addCells (Snake.segments snake) occ) snakes ∅ in
  addCells (map Food.position foods) occupied.

(** ** engine.ts: AI policy *)

(** state.foods.reduce((acc, food) => Math.min(acc, distance), Infinity);
    [None] stands for Infinity. *)
Definition closestFood (foods : list Food.t) (target : Vec2) : option Z :=
  fold_left
    (fun acc food =>
       let d := manhattanDistance (Food.position food) target in
       Some (match acc with Some a => Z.min a d | None => d end))
    foods None.

(** One round of the forEach over the candidate directions; the accumulator
    is (bestDirection with bestScore, generator).  [None] is the pair
    (undefined, -Infinity). *)
Definition aiCandidate (snake : Snake.t) (state : State.t)
    (occupancy : gmap (Z * Z) string) (hd tail : Vec2)
    (acc : option (Direction * Q) * Z) (d : Direction)
    : option (Direction * Q) * Z :=
  let '(best, rng) := acc in
  let target := nextPosition hd d in
  if negb (inBounds (State.config state) target) then acc else
  let targetKey := cellKey target in
  let tailKey := cellKey tail in
  let willVacateTail := bool_decide (Snake.pendingGrowth snake <= 0) in
  let occupant := occupancy !! targetKey in
  let movingIntoSelfTail :=
    bool_decide (occupant = Some (Snake.id snake))
    && bool_decide (targetKey = tailKey) && willVacateTail in
  if truthy occupant && negb movingIntoSelfTail then acc else
  let score := 0%Q in
  let score :=
    match closestFood (State.foods state) target with
    | Some closest => (score - inject_Z closest)%Q
    | None => score
    end in
  let score :=
    if decide (d = Snake.direction snake) then (score + (1 # 2))%Q else score in
  let '(v, rng) := next rng in
  let score := (score + (v - (1 # 2)) * (1 # 10))%Q in
  match best with
  | Some (_, bestScore) =>
      if Qlt_le_dec bestScore score then (Some (d, score), rng) else (best, rng)
  | None => (Some (d, score), rng)
  end.

Definition computeAiTurn (snake : Snake.t) (state : State.t)
    (occupancy : gmap (Z * Z) string) (rng : Z) : option (option Direction * Z) :=
  if negb (Snake.alive snake) then Some (None, rng) else
  let candidates :=
    List.filter (fun d => bool_decide (d <> opposite (Snake.direction snake)))
                allDirections in
  tail ← last (Snake.segments snake);
  hd ← Snake.segments snake !! 0%nat;
  let '(best, rng) :=
    fold_left (aiCandidate snake state occupancy hd tail) candidates (None, rng) in
  Some (fst <$> best, rng).

(** The forEach that fills the command map for the AI snakes. *)
Fixpoint backfillAi (state : State.t) (occupancy : gmap (Z * Z) string)
    (snakes : list Snake.t) (commandMap : gmap string Direction) (rng : Z)
    : option (gmap string Direction * Z) :=
  match snakes with
  | [] => Some (commandMap, rng)
  | snake :: rest =>
      if bool_decide (Snake.controller snake = ai)
         && negb (bool_decide (is_Some (commandMap !! Snake.id snake)))
      then
        '(aiDirection, rng) ← computeAiTurn snake state occupancy rng;
        match aiDirection with
        | Some d =>
            backfillAi state occupancy rest (<[Snake.id snake := d]> commandMap) rng
        | None => backfillAi state occupancy rest commandMap rng
        end
      else backfillAi state occupancy rest commandMap rng
  end.

(** ** engine.ts: food manager *)

Definition kindName (k : FoodKind) : string :=
  match k with
  | standard => "standard"
  | speed => "speed"
  | bulk => "bulk"
  end.

Definition foodId (tick : Z) (ordinal : nat) (k : FoodKind) : string :=
  "food-" +:+ pretty tick +:+ "-" +:+ pretty ordinal +:+ "-" +:+ kindName k.

(** The inner for loop of replenishFood: up to [attempts] samples; the food
    placed, if any, and the generator after the draws. *)
Fixpoint placeFood (attempts : nat) (state : State.t) (ordinal : nat)
    (occupied : gset (Z * Z)) (rng : Z) : option Food.t * Z :=
  match attempts with
  | O => (None, rng)
  | S attempts =>
      let '(vx, rng) := next rng in
      let px := Qfloor (vx * inject_Z (Config.cols (State.config state))) in
      let '(vy, rng) := next rng in
      let py := Qfloor (vy * inject_Z (Config.rows (State.config state))) in
      let key := cellKey (mkVec2 px py) in
      if bool_decide (key ∈ occupied) then placeFood attempts state ordinal occupied rng
      else
        let '(definition, rng) := pickFoodDefinition rng in
        (Some (Food.mk (foodId (State.tick state) ordinal (FoodDef.kind definition))
                       (mkVec2 px py)
                       (FoodDef.kind definition)
                       (FoodDef.growth definition)
                       (FoodDef.effect definition)),
         rng)
  end.

(** The while loop of replenishFood.  Every round that does not leave the
    loop pushes one food, so [MAX_FOOD - length foods] rounds are all the
    loop can make: that number is the fuel. *)
Fixpoint fillFoods (fuel : nat) (state : State.t) (foods : list Food.t)
    (occupied : gset (Z * Z)) (rng : Z) : list Food.t * Z :=
  match fuel with
  | O => (foods, rng)
  | S fuel =>
      if bool_decide (length foods < MAX_FOOD)%nat then
        let attempts :=
          Z.to_nat (Config.cols (State.config state) * Config.rows (State.config state)) in
        match placeFood attempts state (length foods) occupied rng with
        | (Some food, rng) =>
            fillFoods fuel state (foods ++ [food])
                      ({[cellKey (Food.position food)]} ∪ occupied) rng
        | (None, rng) => (foods, rng)
        end
      else (foods, rng)
  end.

Definition withFoods (state : State.t) (foods : list Food.t) (rngState : Z) : State.t :=
  State.mk (State.tick state) (State.config state) (State.snakes state)
           foods rngState (State.status state) (State.respawnQueue state).

Definition replenishFood (state : State.t) (rng : Z) : State.t :=
  if bool_decide (MAX_FOOD <= length (State.foods state))%nat then state else
  let occupied := occupiedCells (State.snakes state) (State.foods state) in
  let '(foods, rng) :=
    fillFoods (MAX_FOOD - length (State.foods state)) state (State.foods state)
              occupied rng in
  withFoods state foods rng.

(** ** engine.ts: createInitialState *)

(** The for loop that pushes the AI snakes.  The list of spawn points has six
    entries, so a layout is always found. *)
Definition initialAi (spawnPoints : list Layout.t) (aiCount : Z) : list Snake.t :=
  omap
    (fun i : nat =>
       let layout :=
         match spawnPoints !! (i + 1)%nat with
         | Some l => Some l
         | None => spawnPoints !! ((i + 1) mod length spawnPoints)%nat
         end in
       (fun l => buildSnake ("ai-" +:+ pretty (i + 1)%nat) (Layout.head l)
                            (Layout.direction l) ai 0) <$> layout)
    (seq 0 (Z.to_nat aiCount)).

Definition createInitialState (partialConfig : Partial.t) : option State.t :=
  let config := clampConfig (mergeConfig defaultConfig partialConfig) in
  let rng := createRng (Config.seed config) in
  let spawnPoints := createSpawnPoints config in
  playerLayout ← spawnPoints !! 0%nat;
  let snakes :=
    buildSnake "player" (Layout.head playerLayout) (Layout.direction playerLayout)
               player 0
    :: initialAi spawnPoints (Config.aiCount config) in
  let state :=
    State.mk 0 config snakes [] (u32 (Config.seed config)) running [] in
  Some (replenishFood state rng).

(** ** engine.ts: the tick resolver *)

Module Move.
Record t := mk {
  snake : Snake.t;
  willMove : bool;
  direction : Direction;
  nextHead : option Vec2;
  growth : Z;
  ateFoodId : option string;
  effectTemplate : option Template.t;
  newAccumulator : Q;
  pendingTurn : option Direction;
  collided : bool;
  reason : option Reason;
  tailKey : option (Z * Z);
}.

(** move.collided = true; move.reason = r *)
Definition collide (r : Reason) (m : t) : t :=
  mk (snake m) (willMove m) (direction m) (nextHead m) (growth m)
     (ateFoodId m) (effectTemplate m) (newAccumulator m) (pendingTurn m)
     true (Some r) (tailKey m).
End Move.

(** commands.forEach(command => commandMap.set(command.snakeId, command.direction)) *)
Definition buildCommandMap (commands : list Command.t) : gmap string Direction :=
  fold_left (fun m c => <[Command.snakeId c := Command.direction c]> m) commands ∅.

Definition withEffects (snake : Snake.t) (effects : list Effect.t) : Snake.t :=
  Snake.mk (Snake.id snake) (Snake.segments snake) (Snake.direction snake)
    (Snake.alive snake) (Snake.pendingTurn snake) (Snake.speed snake)
    (Snake.accumulator snake) (Snake.controller snake)
    (Snake.pendingGrowth snake) effects (Snake.safeUntilTick snake).

(** The body of [state.snakes.map] that prunes effects and queues the turn. *)
Definition prepareSnake (state : State.t) (commandMap : gmap string Direction)
    (snake : Snake.t) : Snake.t :=
  let activeEffects :=
    match Snake.effects snake with
    | [] => Snake.effects snake
    | _ => pruneEffects (Snake.effects snake) (State.tick state)
    end in
  let current := withEffects snake activeEffects in
  if negb (Snake.alive current) then current else
  match commandMap !! Snake.id current with
  | Some d => applyInput current d
  | None => current
  end.

Definition buildSnakeLookup (snakes : list Snake.t) : gmap string Snake.t :=
  fold_left (fun m s => <[Snake.id s := s]> m) snakes ∅.

Definition buildSafeLookup (tick : Z) (snakes : list Snake.t) : gmap string bool :=
  fold_left (fun m s => <[Snake.id s := isSnakeSafe s tick]> m) snakes ∅.

(** safeLookup.get(id) ?? false *)
Definition isSafe (safeLookup : gmap string bool) (id : string) : bool :=
  default false (safeLookup !! id).

(** state.foods.find(item => item.position.x === nextHead.x
                              && item.position.y === nextHead.y) *)
Definition foodAt (state : State.t) (nextHead : Vec2) : option Food.t :=
  List.find
    (fun item =>
       bool_decide (x (Food.position item) = x nextHead)
       && bool_decide (y (Food.position item) = y nextHead))
    (State.foods state).

(** The body of the map that builds proposedMoves. *)
Definition proposeMove (state : State.t) (snake : Snake.t) : option Move.t :=
  if negb (Snake.alive snake) then
    Some (Move.mk snake false (Snake.direction snake) None 0 None None
                  (Snake.accumulator snake) (Snake.pendingTurn snake)
                  true (Some body) None)
  else
    let '(direction, pendingTurn) := maybeTurn snake in
    let effectiveSpeed :=
      (Snake.speed snake * getSpeedMultiplier (Snake.effects snake))%Q in
    let accumulator := (Snake.accumulator snake + effectiveSpeed)%Q in
    let willMove := Qle_bool 1 accumulator in
    let newAccumulator := if willMove then (accumulator - 1)%Q else accumulator in
    if negb willMove then
      Some (Move.mk snake willMove direction None 0 None None newAccumulator
                    pendingTurn false None None)
    else
      let delta := directionVectors direction in
      currentHead ← Snake.segments snake !! 0%nat;
      let nextHead := mkVec2 (x currentHead + x delta) (y currentHead + y delta) in
      tail ← last (Snake.segments snake);
      let food := foodAt state nextHead in
      let growth := match food with Some f => Food.growth f | None => 0 end in
      let effectTemplate := food ≫= Food.effect in
      let ateFoodId := Food.id <$> food in
      let tailKey :=
        if bool_decide (0 < Snake.pendingGrowth snake + growth) then None
        else Some (cellKey tail) in
      Some (Move.mk snake willMove direction (Some nextHead) growth ateFoodId
                    effectTemplate newAccumulator pendingTurn false None tailKey).

Definition buildMoveBySnake (moves : list Move.t) : gmap string Move.t :=
  fold_left (fun m mv => <[Snake.id (Move.snake mv) := mv]> m) moves ∅.

(** The body of the forEach of the boundary and occupancy checks.  It writes
    [collided] and [reason] of its own move only, and reads of another move
    (through moveBySnake) the fields [willMove], [nextHead] and [tailKey],
    which the loop never writes: the loop is a map over the moves. *)
Definition checkMove (state : State.t) (occupancy : gmap (Z * Z) string)
    (safeLookup : gmap string bool) (snakeLookup : gmap string Snake.t)
    (moveBySnake : gmap string Move.t) (move : Move.t) : option Move.t :=
  if negb (Move.willMove move) || Move.collided move then Some move else
  match Move.nextHead move with
  | None => Some move
  | Some nextHead =>
      let snake := Move.snake move in
      if negb (inBounds (State.config state) nextHead) then
        Some (Move.collide wall move)
      else
        let key := cellKey nextHead in
        let occupant := occupancy !! key in
        if negb (truthy occupant) then Some move else
        if bool_decide (occupant = Some (Snake.id snake)) then Some move else
        let occupantId := default EmptyString occupant in
        let moverSafe := isSafe safeLookup (Snake.id snake) in
        let occupantSafe := isSafe safeLookup occupantId in
        if moverSafe || occupantSafe then Some move else
        let otherMove := moveBySnake !! occupantId in
        let occupantSnake := snakeLookup !! occupantId in
        occupantIsHead ←
          match occupantSnake with
          | Some o =>
              h ← Snake.segments o !! 0%nat;
              Some (bool_decide (x h = x nextHead) && bool_decide (y h = y nextHead))
          | None => Some false
          end;
        otherTargetsMe ←
          match otherMove with
          | Some om =>
              if Move.willMove om then
                match Move.nextHead om with
                | Some onh =>
                    if occupantIsHead then
                      h ← Snake.segments snake !! 0%nat;
                      Some (bool_decide (x onh = x h) && bool_decide (y onh = y h))
                    else Some false
                | None => Some false
                end
              else Some false
          | None => Some false
          end;
        let isHeadOn := occupantIsHead && otherTargetsMe in
        if isHeadOn then Some move else
        let otherTailVacates :=
          match otherMove with
          | Some om => Move.willMove om && bool_decide (Move.tailKey om = Some key)
          | None => false
          end in
        if negb otherTailVacates then Some (Move.collide body move) else Some move
  end.

(** *** Head-to-head resolution

    The moves are objects shared between the array [proposedMoves] and the
    lists of [headCollisions]; the array is the store and a reference to a
    move is its index. *)

(** list = headCollisions.get(key) ?? []; list.push(move);
    headCollisions.set(key, list): a Map keeps the order of first insertion. *)
Fixpoint pushAt (key : Z * Z) (i : nat) (groups : list ((Z * Z) * list nat))
    : list ((Z * Z) * list nat) :=
  match groups with
  | [] => [(key, [i])]
  | (k, l) :: rest =>
      if decide (k = key) then (k, l ++ [i]) :: rest
      else (k, l) :: pushAt key i rest
  end.

Definition contests (move : Move.t) : option (Z * Z) :=
  if negb (Move.willMove move) || Move.collided move then None
  else cellKey <$> Move.nextHead move.

Definition headCollisions (moves : list Move.t) : list ((Z * Z) * list nat) :=
  fold_left
    (fun groups '(i, move) =>
       match contests move with
       | Some key => pushAt key i groups
       | None => groups
       end)
    (imap pair moves) [].

Definition segmentCount (store : list Move.t) (i : nat) : nat :=
  match store !! i with
  | Some m => length (Snake.segments (Move.snake m))
  | None => 0
  end.

(** Math.max(...lengths); the list is not empty where it is called. *)
Definition maxLength (store : list Move.t) (idxs : list nat) : nat :=
  fold_left Nat.max (map (segmentCount store) idxs) 0%nat.

Definition markHead (store : list Move.t) (i : nat) : list Move.t :=
  alter (Move.collide head) i store.

(** interactive = moves.filter(move => !(safeLookup.get(move.snake.id) ?? false)) *)
Definition interactiveOf (safeLookup : gmap string bool) (store : list Move.t)
    (moves : list nat) : list nat :=
  List.filter
    (fun i =>
       match store !! i with
       | Some m => negb (isSafe safeLookup (Snake.id (Move.snake m)))
       | None => false
       end)
    moves.

(** winners = interactive.filter(move => move.snake.segments.length === maxLength) *)
Definition winnersOf (store : list Move.t) (interactive : list nat) : list nat :=
  List.filter
    (fun i => bool_decide (segmentCount store i = maxLength store interactive))
    interactive.

(** The body of headCollisions.forEach. *)
Definition resolveGroup (safeLookup : gmap string bool) (store : list Move.t)
    (group : (Z * Z) * list nat) : list Move.t :=
  let moves := snd group in
  if bool_decide (length moves <= 1)%nat then store else
  let interactive := interactiveOf safeLookup store moves in
  if bool_decide (length interactive <= 1)%nat then store else
  match winnersOf store interactive with
  | [winner] =>
      fold_left
        (fun store i => if decide (i <> winner) then markHead store i else store)
        interactive store
  | _ => fold_left markHead interactive store
  end.

Definition resolveHeadCollisions (safeLookup : gmap string bool)
    (moves : list Move.t) : list Move.t :=
  fold_left (resolveGroup safeLookup) (headCollisions moves) moves.

(** *** State application *)

(** The body of the map that builds nextSnakes.  A move with [willMove] has
    a [nextHead] (see [proposeMove]); the [None] branch is never taken. *)
Definition applyMove (state : State.t) (move : Move.t) : Snake.t :=
  let snake := Move.snake move in
  if negb (Snake.alive snake) then snake else
  if negb (Move.willMove move) then
    Snake.mk (Snake.id snake) (Snake.segments snake) (Move.direction move)
      (Snake.alive snake) (Move.pendingTurn move) (Snake.speed snake)
      (Move.newAccumulator move) (Snake.controller snake)
      (Snake.pendingGrowth snake) (Snake.effects snake)
      (Snake.safeUntilTick snake)
  else if Move.collided move then
    Snake.mk (Snake.id snake) (Snake.segments snake) (Snake.direction snake)
      false None (Snake.speed snake) 0%Q (Snake.controller snake) 0 []
      (State.tick state)
  else
    let newSegments :=
      match Move.nextHead move with
      | Some h => h :: Snake.segments snake
      | None => Snake.segments snake
      end in
    let pendingGrowth := Snake.pendingGrowth snake + Move.growth move in
    let '(pendingGrowth, newSegments) :=
      if bool_decide (0 < pendingGrowth) then (pendingGrowth - 1, newSegments)
      else (pendingGrowth, removelast newSegments) in
    let effects :=
      match Move.effectTemplate move with
      | Some t =>
          Snake.effects snake
          ++ [Effect.mk (Template.type t) (Template.multiplier t)
                        (State.tick state + Template.duration t)]
      | None => Snake.effects snake
      end in
    Snake.mk (Snake.id snake) newSegments (Move.direction move)
      (Snake.alive snake) (Move.pendingTurn move) (Snake.speed snake)
      (Move.newAccumulator move) (Snake.controller snake)
      pendingGrowth effects (Snake.safeUntilTick snake).

(** The respawn tickets pushed while nextSnakes is built. *)
Definition ticketOf (move : Move.t) : option Ticket.t :=
  let snake := Move.snake move in
  if Snake.alive snake && Move.willMove move && Move.collided move
     && bool_decide (Snake.controller snake = ai)
  then Some (Ticket.mk (Snake.id snake) (Snake.controller snake) RESPAWN_DELAY_TICKS)
  else None.

Definition respawnTicketsToAdd (moves : list Move.t) : list Ticket.t :=
  omap ticketOf moves.

Definition foodsAfterEat (state : State.t) (moves : list Move.t) : list Food.t :=
  List.filter
    (fun food =>
       negb (existsb (fun move => bool_decide (Move.ateFoodId move = Some (Food.id food)))
                     moves))
    (State.foods state).

(** *** Respawn processing *)

Definition fits (config : Config.t) (occupied : gset (Z * Z)) (candidate : Snake.t) : bool :=
  forallb
    (fun segment =>
       inBounds config segment && negb (bool_decide (cellKey segment ∈ occupied)))
    (Snake.segments candidate).

(** The for loop over the layouts, in rotation from [startIndex]. *)
Definition trySpawn (state : State.t) (ticket : Ticket.t)
    (spawnLayouts : list Layout.t) (occupied : gset (Z * Z)) (startIndex : Z)
    : option Snake.t :=
  let n := length spawnLayouts in
  List.find (fits (State.config state) occupied)
    (omap
       (fun i : nat =>
          (fun layout =>
             buildSnake (Ticket.snakeId ticket) (Layout.head layout)
               (Layout.direction layout) (Ticket.controller ticket)
               (State.tick state + 1 + SAFE_RESPAWN_TICKS))
          <$> spawnLayouts !! Z.to_nat ((startIndex + Z.of_nat i) mod Z.of_nat n))
       (seq 0 n)).

Module Respawn.
(** The variables the forEach over the queue writes. *)
Record t := mk {
  rng : Z;
  occupied : gset (Z * Z);
  respawnedSnakes : list Snake.t;
  updatedQueue : list Ticket.t;
}.
End Respawn.

Definition withTicks (ticket : Ticket.t) (n : Z) : Ticket.t :=
  Ticket.mk (Ticket.snakeId ticket) (Ticket.controller ticket) n.

(** The body of combinedQueue.forEach. *)
Definition processTicket (state : State.t) (spawnLayouts : list Layout.t)
    (acc : Respawn.t) (ticket : Ticket.t) : Respawn.t :=
  let remaining := Ticket.ticksRemaining ticket - 1 in
  let keep :=
    Respawn.mk (Respawn.rng acc) (Respawn.occupied acc) (Respawn.respawnedSnakes acc)
      (Respawn.updatedQueue acc ++ [withTicks ticket remaining]) in
  if bool_decide (Ticket.controller ticket <> ai) then
    if bool_decide (0 < remaining) then keep else acc
  else if bool_decide (0 < remaining) then keep
  else
    let '(spawned, rng) :=
      if bool_decide (0 < length spawnLayouts)%nat then
        let '(v, rng) := next (Respawn.rng acc) in
        let startIndex := Qfloor (v * inject_Z (Z.of_nat (length spawnLayouts))) in
        (trySpawn state ticket spawnLayouts (Respawn.occupied acc) startIndex, rng)
      else (None, Respawn.rng acc) in
    match spawned with
    | Some s =>
        Respawn.mk rng (addCells (Snake.segments s) (Respawn.occupied acc))
          (Respawn.respawnedSnakes acc ++ [s]) (Respawn.updatedQueue acc)
    | None =>
        Respawn.mk rng (Respawn.occupied acc) (Respawn.respawnedSnakes acc)
          (Respawn.updatedQueue acc ++ [withTicks ticket 1])
    end.

(** The forEach over combinedQueue, from the survivors and the foods left. *)
Definition respawnAll (state : State.t) (rng : Z) (moves : list Move.t) : Respawn.t :=
  let nextSnakes := map (applyMove state) moves in
  let survivors := List.filter Snake.alive nextSnakes in
  let foods := foodsAfterEat state moves in
  let combinedQueue := State.respawnQueue state ++ respawnTicketsToAdd moves in
  let spawnLayouts := createSpawnPoints (State.config state) in
  let occupied := occupiedCells survivors foods in
  fold_left (processTicket state spawnLayouts) combinedQueue
            (Respawn.mk rng occupied [] []).

(** Everything advanceState does once the moves are final. *)
Definition finishTick (state : State.t) (rng : Z) (moves : list Move.t) : State.t :=
  let nextSnakes := map (applyMove state) moves in
  let survivors := List.filter Snake.alive nextSnakes in
  let foods := foodsAfterEat state moves in
  let nextTick := State.tick state + 1 in
  let r := respawnAll state rng moves in
  let allSnakes := survivors ++ Respawn.respawnedSnakes r in
  let withFood :=
    replenishFood
      (State.mk nextTick (State.config state) allSnakes foods (Respawn.rng r)
                (State.status state) (Respawn.updatedQueue r))
      (Respawn.rng r) in
  let status :=
    if bool_decide (length allSnakes = 0%nat)
       || negb (existsb (fun s => bool_decide (Snake.controller s = player)) allSnakes)
    then gameover else running in
  State.mk (State.tick withFood) (State.config withFood) allSnakes
           (State.foods withFood) (State.rngState withFood) status
           (Respawn.updatedQueue r).

(** The moves of a tick after the boundary and occupancy checks, with the
    safe lookup of the tick and the generator as the AI policy left it. *)
Definition checkedMoves (state : State.t) (commands : list Command.t)
    : option (list Move.t * gmap string bool * Z) :=
  let rng := createRng (State.rngState state) in
  let commandMap := buildCommandMap commands in
  let initialOccupancy := buildOccupancy (State.snakes state) in
  '(commandMap, rng) ←
    backfillAi state initialOccupancy (State.snakes state) commandMap rng;
  let snakes := map (prepareSnake state commandMap) (State.snakes state) in
  let snakeLookup := buildSnakeLookup snakes in
  let safeLookup := buildSafeLookup (State.tick state) snakes in
  let occupancy := buildOccupancy snakes in
  proposedMoves ← mapM (proposeMove state) snakes;
  let moveBySnake := buildMoveBySnake proposedMoves in
  checked ←
    mapM (checkMove state occupancy safeLookup snakeLookup moveBySnake) proposedMoves;
  Some (checked, safeLookup, rng).

(** The moves of a tick after both collision passes. *)
Definition tickMoves (state : State.t) (commands : list Command.t)
    : option (list Move.t * Z) :=
  '(checked, safeLookup, rng) ← checkedMoves state commands;
  Some (resolveHeadCollisions safeLookup checked, rng).

Definition advanceState (state : State.t) (commands : list Command.t)
    : option State.t :=
  if bool_decide (State.status state <> running) then Some state else
  '(moves, rng) ← tickMoves state commands;
  Some (finishTick state rng moves).

(** A run: the initial state of a config, then one tick per element of the
    command sequence. *)
Fixpoint advanceAll (state : State.t) (ticks : list (list Command.t)) : option State.t :=
  match ticks with
  | [] => Some state
  | commands :: rest => state ← advanceState state commands; advanceAll state rest
  end.

Definition run (partialConfig : Partial.t) (ticks : list (list Command.t))
    : option State.t :=
  state ← createInitialState partialConfig; advanceAll state ticks.

(** The states of a run, tick by tick, as far as the engine returns. *)
Fixpoint statesFrom (state : State.t) (ticks : list (list Command.t)) : list State.t :=
  state ::
  match ticks with
  | [] => []
  | commands :: rest =>
      match advanceState state commands with
      | Some state' => statesFrom state' rest
      | None => []
      end
  end.

Definition trace (partialConfig : Partial.t) (ticks : list (list Command.t))
    : list State.t :=
  match createInitialState partialConfig with
  | Some state => statesFrom state ticks
  | None => []
  end.

(** ** Numbers in binary64

    A JavaScript number is an IEEE 754 double.  [F64.t] is the Standard
    Library's model of them ([SpecFloat], precision 53, exponents up to
    1024), with NaN, the infinities and rounding to nearest, ties to even.
    A rational of the state stands for the double nearest to it, which is
    the rational itself when it is a double. *)
Module F64.
Definition prec : Z := 53.
Definition emax : Z := 1024.
Definition t : Type := spec_float.

Definition add : t -> t -> t := SFadd prec emax.
Definition sub : t -> t -> t := SFsub prec emax.
Definition mul : t -> t -> t := SFmul prec emax.
Definition div : t -> t -> t := SFdiv prec emax.

(** a <= b, false when one of them is NaN; [b >= a] is [leb a b]. *)
Definition leb : t -> t -> bool := SFleb.

(** An integer as it is, an operand of the division below. *)
Definition exact (z : Z) : t :=
  match z with
  | Z0 => S754_zero false
  | Zpos p => S754_finite false p 0
  | Zneg p => S754_finite true p 0
  end.

(** The double nearest to an integer. *)
Definition ofZ (z : Z) : t := binary_normalize prec emax z 0 false.

(** The double nearest to a rational: the quotient of its numerator and
    denominator, rounded once. *)
Definition ofQ (q : Q) : t := div (exact (Qnum q)) (exact (Zpos (Qden q))).

(** The rational a finite double is, in lowest terms; NaN and the
    infinities have none. *)
Definition toQ (f : t) : option Q :=
  match f with
  | S754_zero _ => Some 0%Q
  | S754_finite s m e => Some (Qred (inject_Z (cond_Zopp s (Zpos m)) * 2 ^ e)%Q)
  | S754_infinity _ | S754_nan => None
  end.
End F64.

(** ** engine.ts: the speed gate in binary64

    The speed gate of a tick is where the rounding of doubles decides
    what an agent with a fractional speed does.  [proposeMove64] is
    [proposeMove] with the products and the sum of the gate rounded as the
    code rounds them, and [advanceState64] the tick that uses it.  An
    accumulator that is NaN or infinite has no value in [Move.t]:
    [proposeMove64] returns [None] for it. *)
Definition getSpeedMultiplier64 (effects : list Effect.t) : F64.t :=
  fold_left
    (fun multiplier e =>
       match Effect.type e with
       | speedBoost => F64.mul multiplier (F64.ofQ (Effect.multiplier e))
       end)
    effects (F64.ofZ 1).

Definition proposeMove64 (state : State.t) (snake : Snake.t) : option Move.t :=
  if negb (Snake.alive snake) then
    Some (Move.mk snake false (Snake.direction snake) None 0 None None
                  (Snake.accumulator snake) (Snake.pendingTurn snake)
                  true (Some body) None)
  else
    let '(direction, pendingTurn) := maybeTurn snake in
    let effectiveSpeed :=
      F64.mul (F64.ofQ (Snake.speed snake))
              (getSpeedMultiplier64 (Snake.effects snake)) in
    let accumulator := F64.add (F64.ofQ (Snake.accumulator snake)) effectiveSpeed in
    let willMove := F64.leb (F64.ofZ 1) accumulator in
    newAccumulator ←
      F64.toQ (if willMove then F64.sub accumulator (F64.ofZ 1) else accumulator);
    if negb willMove then
      Some (Move.mk snake willMove direction None 0 None None newAccumulator
                    pendingTurn false None None)
    else
      let delta := directionVectors direction in
      currentHead ← Snake.segments snake !! 0%nat;
      let nextHead := mkVec2 (x currentHead + x delta) (y currentHead + y delta) in
      tail ← last (Snake.segments snake);
      let food := foodAt state nextHead in
      let growth := match food with Some f => Food.growth f | None => 0 end in
      let effectTemplate := food ≫= Food.effect in
      let ateFoodId := Food.id <$> food in
      let tailKey :=
        if bool_decide (0 < Snake.pendingGrowth snake + growth) then None
        else Some (cellKey tail) in
      Some (Move.mk snake willMove direction (Some nextHead) growth ateFoodId
                    effectTemplate newAccumulator pendingTurn false None tailKey).

Definition checkedMoves64 (state : State.t) (commands : list Command.t)
    : option (list Move.t * gmap string bool * Z) :=
  let rng := createRng (State.rngState state) in
  let commandMap := buildCommandMap commands in
  let initialOccupancy := buildOccupancy (State.snakes state) in
  '(commandMap, rng) ←
    backfillAi state initialOccupancy (State.snakes state) commandMap rng;
  let snakes := map (prepareSnake state commandMap) (State.snakes state) in
  let snakeLookup := buildSnakeLookup snakes in
  let safeLookup := buildSafeLookup (State.tick state) snakes in
  let occupancy := buildOccupancy snakes in
  proposedMoves ← mapM (proposeMove64 state) snakes;
  let moveBySnake := buildMoveBySnake proposedMoves in
  checked ←
    mapM (checkMove state occupancy safeLookup snakeLookup moveBySnake) proposedMoves;
  Some (checked, safeLookup, rng).

Definition tickMoves64 (state : State.t) (commands : list Command.t)
    : option (list Move.t * Z) :=
  '(checked, safeLookup, rng) ← checkedMoves64 state commands;
  Some (resolveHeadCollisions safeLookup checked, rng).

Definition advanceState64 (state : State.t) (commands : list Command.t)
    : option State.t :=
  if bool_decide (State.status state <> running) then Some state else
  '(moves, rng) ← tickMoves64 state commands;
  Some (finishTick state rng moves).

(** A run in binary64. *)
Fixpoint advanceAll64 (state : State.t) (ticks : list (list Command.t))
    : option State.t :=
  match ticks with
  | [] => Some state
  | commands :: rest =>
      state ← advanceState64 state commands; advanceAll64 state rest
  end.

(** * useGameEngine.ts: the frame loop

    The refs of the hook and the variables of createFrameLoop are the
    fields of a record; time stamps are milliseconds in binary64, as
    performance.now() gives them.  The while loop of a frame takes fuel: it
    need not end (a negative tickRate, or an accumulator so large that
    subtracting the interval does not change it).  An outcome tells a
    return from an exception of advanceState and from the end of the
    fuel. *)

Inductive Outcome (A : Type) :=
| Returned (a : A)
| Threw
| OutOfFuel.
Arguments Returned {A} a.
Arguments Threw {A}.
Arguments OutOfFuel {A}.

Module Loop.
Record t := mk {
  previous : F64.t;
  accumulator : F64.t;
  loopReset : bool;
  config : Config.t;
  queue : list Command.t;
  state : State.t;
}.
End Loop.

(** 1000 / configRef.current.tickRate; Infinity when tickRate is 0. *)
Definition targetDelta (config : Config.t) : F64.t :=
  F64.div (F64.ofZ 1000) (F64.ofZ (Config.tickRate config)).

(** if (queueRef.current.length > 4)
      queueRef.current.splice(0, queueRef.current.length - 4) *)
Definition clearQueue (queue : list Command.t) : list Command.t :=
  if bool_decide (4 < length queue)%nat then drop (length queue - 4) queue
  else queue.

(** The while loop of a frame.  [commands] is the queue itself:
    splice(0, length) hands all of it to the tick and leaves it empty. *)
Fixpoint whileTicks (fuel : nat) (delta accumulator : F64.t)
    (commands : list Command.t) (state : State.t)
    : Outcome (F64.t * list Command.t * State.t) :=
  if F64.leb delta accumulator then
    match fuel with
    | O => OutOfFuel
    | S fuel =>
        let consumed := commands in
        match advanceState state consumed with
        | None => Threw
        | Some nextState =>
            let accumulator := F64.sub accumulator delta in
            if bool_decide (State.status nextState <> running)
            then Returned (F64.ofZ 0, [], nextState)
            else whileTicks fuel delta accumulator [] nextState
        end
    end
  else Returned (accumulator, commands, state).

Definition frame (fuel : nat) (now : F64.t) (loop : Loop.t) : Outcome Loop.t :=
  let '(accumulator, previous) :=
    if Loop.loopReset loop then (F64.ofZ 0, now)
    else (Loop.accumulator loop, Loop.previous loop) in
  let dt := F64.sub now previous in
  let previous := now in
  let accumulator := F64.add accumulator dt in
  let commands := Loop.queue loop in
  let targetDelta := targetDelta (Loop.config loop) in
  match whileTicks fuel targetDelta accumulator commands (Loop.state loop) with
  | Returned (accumulator, commands, state) =>
      Returned (Loop.mk previous accumulator false (Loop.config loop)
                        (clearQueue commands) state)
  | Threw => Threw
  | OutOfFuel => OutOfFuel
  end.

(** queueRef.current.push({ snakeId, type: 'turn', direction }) *)
Definition enqueueTurn (direction : Direction) (snakeId : string)
    (loop : Loop.t) : Loop.t :=
  Loop.mk (Loop.previous loop) (Loop.accumulator loop) (Loop.loopReset loop)
          (Loop.config loop) (Loop.queue loop ++ [Command.mk snakeId direction])
          (Loop.state loop).

(** A full config passed where a partial one is expected, as in
    createInitialState(state.config). *)
Definition asPartial (config : Config.t) : Partial.t :=
  Partial.mk (Some (Config.cols config)) (Some (Config.rows config))
             (Some (Config.tickRate config)) (Some (Config.seed config))
             (Some (Config.aiCount config)).

(** restart: the queue is emptied, the state is the initial state of
    configRef.current and the next frame starts the clock again. *)
Definition restart (loop : Loop.t) : option Loop.t :=
  next ← createInitialState (asPartial (Loop.config loop));
  Some (Loop.mk (Loop.previous loop) (Loop.accumulator loop) true
                (Loop.config loop) [] next).

(** * App.tsx: the joystick *)

(** a < b on numbers *)
Definition Qlt_bool (a b : Q) : bool := negb (Qle_bool b a).

Definition resolveDirectionFromVector (dx dy : Q) : option Direction :=
  if Qlt_bool (Qabs dx) 12 && Qlt_bool (Qabs dy) 12 then None
  else if Qlt_bool (Qabs dy) (Qabs dx) then
    Some (if Qlt_bool 0 dx then Right else Left)
  else Some (if Qlt_bool 0 dy then Down else Up).

(** * Vocabulary of the properties *)

(** The states the engine can produce: the initial state of some config and
    what advanceState returns from such a state. *)
Inductive reachable : State.t -> Prop :=
| reachable_initial partialConfig state :
    createInitialState partialConfig = Some state -> reachable state
| reachable_advance state commands state' :
    reachable state ->
    advanceState state commands = Some state' ->
    reachable state'.

Definition isUint32 (z : Z) : Prop := 0 <= z < 4294967296.

(** The command map of a tick: the commands given, then the turns of the AI
    policy, with the generator after them. *)
Definition commandsOfTick (state : State.t) (commands : list Command.t)
    : option (gmap string Direction * Z) :=
  backfillAi state (buildOccupancy (State.snakes state)) (State.snakes state)
    (buildCommandMap commands) (createRng (State.rngState state)).

(** The contestants of a cell: the moving, not collided moves that target
    it, by index. *)
Definition contestants (moves : list Move.t) (cell : Z * Z) : list nat :=
  List.filter
    (fun i => bool_decide (moves !! i ≫= contests = Some cell))
    (seq 0 (length moves)).

(** The moves one round of headCollisions.forEach marks. *)
Definition losers (safeLookup : gmap string bool) (store : list Move.t)
    (moves : list nat) : list nat :=
  if bool_decide (length moves <= 1)%nat then [] else
  let interactive := interactiveOf safeLookup store moves in
  if bool_decide (length interactive <= 1)%nat then [] else
  match winnersOf store interactive with
  | [winner] => List.filter (fun i => bool_decide (i <> winner)) interactive
  | _ => interactive
  end.

(** Marking reads nothing of a move but its snake, which it keeps. *)
Definition sameSnakes (s1 s2 : list Move.t) : Prop :=
  forall i, Move.snake <$> s1 !! i = Move.snake <$> s2 !! i.

(** What a collision pass may do to a proposed move: nothing, or a collision
    of a move that was moving and not collided; for a reason other than
    [wall] the snake is outside its safe window. *)
Definition settled (safeLookup : gmap string bool) (proposed final : Move.t) : Prop :=
  final = proposed
  \/ exists r,
       final = Move.collide r proposed
       /\ Move.collided proposed = false
       /\ Move.willMove proposed = true
       /\ (r = wall
           \/ isSafe safeLookup (Snake.id (Move.snake proposed)) = false).

(** A snake the engine can read the head of without an exception. *)
Definition hasHead (s : Snake.t) : Prop := Snake.segments s <> [].

(** The foods the food manager makes: rows of the table. *)
Definition foodOk (f : Food.t) : Prop :=
  exists d,
    d ∈ foodDefinitions
    /\ Food.kind f = FoodDef.kind d
    /\ Food.growth f = FoodDef.growth d
    /\ Food.effect f = FoodDef.effect d.

(** What holds of every snake of a reachable state: it is alive, its speed
    is 1, its accumulator is not negative, its multipliers are at least 1,
    it has three segments or more and its head is its neck moved by its
    direction. *)
Definition snakeOk (s : Snake.t) : Prop :=
  Snake.alive s = true
  /\ (Snake.speed s == 1)%Q
  /\ (0 <= Snake.accumulator s)%Q
  /\ Forall (fun e => (1 <= Effect.multiplier e)%Q) (Snake.effects s)
  /\ exists h n rest,
       Snake.segments s = h :: n :: rest
       /\ rest <> []
       /\ h = nextPosition n (Snake.direction s).

Definition stateOk (state : State.t) : Prop :=
  Forall snakeOk (State.snakes state)
  /\ (length (State.foods state) <= MAX_FOOD)%nat
  /\ Forall foodOk (State.foods state).

(** The ids of the agents and of the respawn tickets are distinct. *)
Definition idsOk (state : State.t) : Prop :=
  NoDup (map Snake.id (State.snakes state)
         ++ map Ticket.snakeId (State.respawnQueue state)).

(** * Vocabulary of the further properties *)

(** n draws from a generator state. *)
Definition nthState (n : nat) (state : Z) : Z :=
  Nat.iter n (fun s => (next s).2) state.

(** Consecutive segments are neighbours on the grid. *)
Fixpoint contiguous (segments : list Vec2) : Prop :=
  match segments with
  | a :: (b :: _) as rest => manhattanDistance a b = 1 /\ contiguous rest
  | _ => True
  end.

Definition segmentCells (s : Snake.t) : list (Z * Z) := cellKey <$> Snake.segments s.

Definition foodCells (foods : list Food.t) : list (Z * Z) :=
  (fun f => cellKey (Food.position f)) <$> foods.

(** A body that lies on the grid in one piece. *)
Definition bodyOk (config : Config.t) (s : Snake.t) : Prop :=
  Forall (fun p => inBounds config p = true) (Snake.segments s)
  /\ contiguous (Snake.segments s).

(** Foods on the grid, on cells of their own that no snake covers. *)
Definition foodsPlaced (config : Config.t) (snakes : list Snake.t)
    (foods : list Food.t) : Prop :=
  Forall (fun f => inBounds config (Food.position f) = true) foods
  /\ NoDup (foodCells foods)
  /\ forall s f, s ∈ snakes -> f ∈ foods ->
       cellKey (Food.position f) ∉ segmentCells s.

Definition boardOk (state : State.t) : Prop :=
  8 <= Config.cols (State.config state)
  /\ 8 <= Config.rows (State.config state)
  /\ Forall (bodyOk (State.config state)) (State.snakes state)
  /\ foodsPlaced (State.config state) (State.snakes state) (State.foods state).

(** What a tick decides for a snake of a state whose snakes all move: the
    move proposed for it and what the two collision passes leave of it. *)
Definition verdict (state : State.t) (cm : gmap string Direction)
    (s : Snake.t) (m : Move.t) : Prop :=
  let p := prepareSnake state cm s in
  exists h0 pm,
    Snake.segments s !! 0%nat = Some h0
    /\ proposeMove state p = Some pm
    /\ Move.snake pm = p
    /\ Move.willMove pm = true
    /\ Move.collided pm = false
    /\ Move.direction pm = (maybeTurn p).1
    /\ Move.pendingTurn pm = (maybeTurn p).2
    /\ Move.nextHead pm = Some (nextPosition h0 (maybeTurn p).1)
    /\ Move.ateFoodId pm
       = Food.id <$> foodAt state (nextPosition h0 (maybeTurn p).1)
    /\ if inBounds (State.config state) (nextPosition h0 (maybeTurn p).1) then
         m = pm
         \/ (m = Move.collide body pm
             /\ Snake.safeUntilTick s <= State.tick state
             /\ exists other,
                  other ∈ State.snakes state
                  /\ buildOccupancy (State.snakes state)
                       !! cellKey (nextPosition h0 (maybeTurn p).1)
                     = Some (Snake.id other)
                  /\ Snake.id other <> EmptyString
                  /\ Snake.id other <> Snake.id s
                  /\ cellKey (nextPosition h0 (maybeTurn p).1) ∈ segmentCells other
                  /\ Snake.safeUntilTick other <= State.tick state)
         \/ (m = Move.collide head pm
             /\ Snake.safeUntilTick s <= State.tick state
             /\ exists other h,
                  other ∈ State.snakes state
                  /\ Snake.id other <> Snake.id s
                  /\ Snake.segments other !! 0%nat = Some h
                  /\ nextPosition h (maybeTurn (prepareSnake state cm other)).1
                     = nextPosition h0 (maybeTurn p).1
                  /\ Snake.safeUntilTick other <= State.tick state)
       else m = Move.collide wall pm.

(** Two bodies that share no cell. *)
Definition disjointBodies (a b : Snake.t) : Prop :=
  forall k, k ∈ segmentCells a -> k ∉ segmentCells b.

(** What the loop over the queue keeps true of the snakes it has brought
    back, [occ0] being the cells occupied before the loop. *)
Definition respawnInv (config : Config.t) (occ0 : gset (Z * Z)) (acc : Respawn.t) : Prop :=
  (forall k, k ∈ Respawn.occupied acc
     <-> k ∈ occ0 \/ exists s, s ∈ Respawn.respawnedSnakes acc /\ k ∈ segmentCells s)
  /\ Forall (fun s => bodyOk config s /\ forall k, k ∈ segmentCells s -> k ∉ occ0)
            (Respawn.respawnedSnakes acc)
  /\ forall i j a b,
       (i < j)%nat ->
       Respawn.respawnedSnakes acc !! i = Some a ->
       Respawn.respawnedSnakes acc !! j = Some b ->
       disjointBodies a b /\ disjointBodies b a.

(** The body a ticket is given at a spawn point. *)
Definition spawnBody (state : State.t) (ticket : Ticket.t) (layout : Layout.t) : Snake.t :=
  buildSnake (Ticket.snakeId ticket) (Layout.head layout) (Layout.direction layout)
    (Ticket.controller ticket) (State.tick state + 1 + SAFE_RESPAWN_TICKS).

(** The ids of the agents of a state: on the board, then in the queue. *)
Definition agentIds (state : State.t) : list string :=
  map Snake.id (State.snakes state) ++ map Ticket.snakeId (State.respawnQueue state).

(** Who is who in a state the engine can reach. *)
Definition rolesOk (state : State.t) : Prop :=
  Forall (fun s => Snake.controller s = player <-> Snake.id s = "player")
         (State.snakes state)
  /\ Forall (fun t => Ticket.controller t = ai
                      /\ Ticket.snakeId t <> "player"
                      /\ 1 <= Ticket.ticksRemaining t <= RESPAWN_DELAY_TICKS - 1)
            (State.respawnQueue state)
  /\ (State.status state = running
      <-> exists s, s ∈ State.snakes state /\ Snake.controller s = player).

(** What the loop over the queue makes of a ticket list: the snakes brought
    back and the tickets kept. *)
Definition queueOutcome (state : State.t) (layouts : list Layout.t)
    (queue : list Ticket.t) (new : list Snake.t) (kept : list Ticket.t) : Prop :=
  Forall (fun s => exists t layout,
            t ∈ queue /\ Ticket.controller t = ai /\ Ticket.ticksRemaining t <= 1
            /\ layout ∈ layouts /\ s = spawnBody state t layout) new
  /\ Forall (fun k => exists t,
               t ∈ queue
               /\ ((1 < Ticket.ticksRemaining t
                    /\ k = withTicks t (Ticket.ticksRemaining t - 1))
                   \/ (Ticket.ticksRemaining t <= 1 /\ Ticket.controller t = ai
                       /\ k = withTicks t 1))) kept
  /\ forall t, t ∈ queue ->
       (1 < Ticket.ticksRemaining t ->
        withTicks t (Ticket.ticksRemaining t - 1) ∈ kept)
       /\ (Ticket.ticksRemaining t <= 1 -> Ticket.controller t = ai ->
           (exists layout, layout ∈ layouts /\ spawnBody state t layout ∈ new)
           \/ withTicks t 1 ∈ kept).

(** The test computeAiTurn makes before it scores a direction: the target
    is off the grid, or holds a segment that is not the tail the snake is
    about to vacate. *)
Definition aiBlocked (snake : Snake.t) (state : State.t)
    (occupancy : gmap (Z * Z) string) (hd tail : Vec2) (d : Direction) : bool :=
  let target := nextPosition hd d in
  negb (inBounds (State.config state) target)
  || (truthy (occupancy !! cellKey target)
      && negb (bool_decide (occupancy !! cellKey target = Some (Snake.id snake))
               && bool_decide (cellKey target = cellKey tail)
               && bool_decide (Snake.pendingGrowth snake <= 0))).

(** The effects a snake of a reachable state carries at tick [tick]: boosts
    from `speed` foods that expire within the next 17 ticks. *)
Definition effectOk (tick : Z) (e : Effect.t) : Prop :=
  Effect.type e = speedBoost
  /\ Effect.multiplier e = (16 # 10)%Q
  /\ tick <= Effect.expiresAtTick e <= tick + 17.

Definition effectsOk (state : State.t) : Prop :=
  Forall (fun s => Forall (effectOk (State.tick state)) (Snake.effects s))
         (State.snakes state).


(** Growth still owed to the snakes is never negative. *)
Definition growthOk (state : State.t) : Prop :=
  Forall (fun s => 0 <= Snake.pendingGrowth s) (State.snakes state).


(** The command lists of the ticks of one frame: the queue, then nothing. *)
Definition ticksOf (n : nat) (commands : list Command.t) : list (list Command.t) :=
  match n with
  | O => []
  | S n => commands :: replicate n []
  end.

(** The agent [id], safe until [safeUntil], leaves the grid in the tick
    that [commands] make of [state]. *)
Definition leavesGrid (state : State.t) (commands : list Command.t)
    (id : string) (safeUntil : Z) : Prop :=
  exists moves rng j s m,
    tickMoves state commands = Some (moves, rng)
    /\ State.snakes state !! j = Some s
    /\ Snake.id s = id
    /\ Snake.safeUntilTick s = safeUntil
    /\ State.tick state < safeUntil
    /\ moves !! j = Some m
    /\ Move.collided m = true
    /\ Move.reason m = Some wall.

(** The accumulator of a snake as the speed gate tests it, in binary64:
    snake.accumulator + snake.speed * getSpeedMultiplier(effects), over the
    unexpired effects. *)
Definition accumulated64 (state : State.t) (s : Snake.t) : F64.t :=
  F64.add (F64.ofQ (Snake.accumulator s))
          (F64.mul (F64.ofQ (Snake.speed s))
                   (getSpeedMultiplier64
                      (pruneEffects (Snake.effects s) (State.tick state)))).

(** The accumulator the tick leaves the snake is a finite number. *)
Definition finiteSpeed (state : State.t) (s : Snake.t) : Prop :=
  let accumulator := accumulated64 state s in
  is_Some (F64.toQ (if F64.leb (F64.ofZ 1) accumulator
                    then F64.sub accumulator (F64.ofZ 1) else accumulator)).

(** The accumulator of a frame after k ticks: k subtractions of the
    interval. *)
Definition afterTicks (delta accumulator : F64.t) (k : nat) : F64.t :=
  Nat.iter k (fun a => F64.sub a delta) accumulator.

(** k ticks are due: the test of the while loop holds before each of them
    and fails after the last. *)
Definition ticksDue (delta accumulator : F64.t) (k : nat) : Prop :=
  (forall j, (j < k)%nat -> F64.leb delta (afterTicks delta accumulator j) = true)
  /\ F64.leb delta (afterTicks delta accumulator k) = false.

(** The accumulator of a frame before its while loop. *)
Definition frameTime (now : F64.t) (loop : Loop.t) : F64.t :=
  F64.add (if Loop.loopReset loop then F64.ofZ 0 else Loop.accumulator loop)
          (F64.sub now (if Loop.loopReset loop then now else Loop.previous loop)).

(** * Concrete states and runs *)

(** Three snakes of lengths 5, 5 and 3 whose next heads meet in cell (5,5);
    the commands keep the AI policy out of the way. *)
Definition contest553 : State.t :=
  State.mk 20 defaultConfig
    [ Snake.mk "player"
        [mkVec2 4 5; mkVec2 3 5; mkVec2 2 5; mkVec2 1 5; mkVec2 0 5]
        Right true None 1%Q 0%Q player 0 [] 0;
      Snake.mk "ai-1"
        [mkVec2 6 5; mkVec2 7 5; mkVec2 8 5; mkVec2 9 5; mkVec2 10 5]
        Left true None 1%Q 0%Q ai 0 [] 0;
      Snake.mk "ai-2"
        [mkVec2 5 4; mkVec2 5 3; mkVec2 5 2]
        Down true None 1%Q 0%Q ai 0 [] 0 ]
    [] 7 running [].

Definition contest553Commands : list Command.t :=
  [Command.mk "ai-1" Left; Command.mk "ai-2" Down].

Definition contest553Checked : list Move.t * gmap string bool :=
  match checkedMoves contest553 contest553Commands with
  | Some (moves, safeLookup, _) => (moves, safeLookup)
  | None => ([], ∅)
  end.

(** The default board without AI snakes after six ticks in which the player
    turned down: its head is at (4,8), one cell above a `standard` food. *)
Definition soloConfig : Partial.t := Partial.mk None None None None (Some 0).

Definition beforeEating : State.t :=
  default contest553
    (run soloConfig [[]; [Command.mk "player" Down]; []; []; []; []]).

(** A snake of speed 1/2 with an expired effect: it does not move. *)
Definition slowState : State.t :=
  State.mk 0 defaultConfig
    [ Snake.mk "player" [mkVec2 5 5; mkVec2 4 5; mkVec2 3 5] Right true None
        (1 # 2) 0 player 0 [Effect.mk speedBoost (16 # 10) 0] 0 ]
    [] 1 running [].

(** A lone snake with a speed and an accumulator of its own, and an
    expired effect. *)
Definition gateState (speed accumulator : Q) : State.t :=
  State.mk 0 defaultConfig
    [ Snake.mk "player" [mkVec2 5 5; mkVec2 4 5; mkVec2 3 5] Right true None
        speed accumulator player 0 [Effect.mk speedBoost (16 # 10) 0] 0 ]
    [] 1 running [].

(** A run of the default board with one AI snake: the player walks a square
    of side 5, ai-1 is steered up on every tick.  It leaves the grid on the
    fourth tick, is respawned at tick 27 and leaves the grid again on the
    tick after tick 30. *)
Definition loopTurn (k : nat) : list Command.t :=
  match (k mod 20)%nat with
  | 5%nat => [Command.mk "player" Down]
  | 10%nat => [Command.mk "player" Left]
  | 15%nat => [Command.mk "player" Up]
  | 0%nat => [Command.mk "player" Right]
  | _ => []
  end.

Definition wallRunTicks (n : nat) : list (list Command.t) :=
  map (fun k => Command.mk "ai-1" Up :: loopTurn k) (seq 1 n).

Definition wallRunConfig : Partial.t := Partial.mk None None None None (Some 1).

Definition afterRespawn : State.t :=
  default contest553 (run wallRunConfig (wallRunTicks 27)).

Definition beforeWall : State.t :=
  default contest553 (run wallRunConfig (wallRunTicks 30)).

(** An agent safe until tick 30 + 12 about to enter the body of another. *)
Definition safeProbe (tick : Z) : State.t :=
  State.mk tick defaultConfig
    [ Snake.mk "player"
        [mkVec2 10 5; mkVec2 10 6; mkVec2 10 7; mkVec2 10 8; mkVec2 10 9]
        Up true None 1%Q 0%Q player 0 [] 0;
      Snake.mk "ai-1" [mkVec2 9 7; mkVec2 8 7; mkVec2 7 7]
        Right true None 1%Q 0%Q ai 0 [] (30 + SAFE_RESPAWN_TICKS) ]
    [] 7 running [].

(** Seed 134 without AI snakes: a `speed` food lies at (4,3), in front of
    the player. *)
Definition boostConfig : Partial.t := Partial.mk None None None (Some 134) (Some 0).

(** The run of [afterRespawn] one tick earlier: the ticket of ai-1 has one
    tick left. *)
Definition beforeRespawn : State.t :=
  default contest553 (run wallRunConfig (wallRunTicks 26)).

(** The moves of the tick after [beforeWall], ai-1 steered up. *)
Definition wallMoves : list Move.t * Z :=
  default ([], 0) (tickMoves beforeWall [Command.mk "ai-1" Up]).


(** The loop of the Grand preset (40 x 30, tickRate 12) on its initial
    state, its last frame at 5000 ms, a turn of the player in the queue. *)
Definition grandConfig : Config.t := Config.mk 40 30 12 1 2.

Definition lateLoop : Loop.t :=
  Loop.mk (F64.ofZ 5000) (F64.ofZ 0) false grandConfig
          [Command.mk "player" Down]
          (default contest553
             (createInitialState (Partial.mk (Some 40) (Some 30) (Some 12) None None))).

(** The run of [afterRespawn] after its fourth tick: ai-1 has just left the
    grid. *)
Definition afterDeath : State.t :=
  default contest553 (run wallRunConfig (wallRunTicks 4)).

(** * Properties *)

#[global] Arguments u32 : simpl never.
#[global] Arguments next : simpl never.
#[global] Arguments pickFoodDefinition : simpl never.
#[global] Arguments createSpawnPoints : simpl never.
#[global] Arguments F64.ofZ : simpl never.
#[global] Arguments F64.ofQ : simpl never.
#[global] Arguments F64.toQ : simpl never.
#[global] Arguments F64.add : simpl never.
#[global] Arguments F64.sub : simpl never.
#[global] Arguments F64.mul : simpl never.
#[global] Arguments F64.div : simpl never.
#[global] Arguments F64.leb : simpl never.

(** ** The generator and the food manager *)

Lemma u32_range z : isUint32 (u32 z).
Proof. unfold isUint32, u32. apply Z.mod_pos_bound. lia. Qed.

Lemma next_state_range s : isUint32 (next s).2.
Proof. unfold next, nextBits. cbn. apply u32_range. Qed.

Lemma pickFoodDefinition_range rng : isUint32 (pickFoodDefinition rng).2.
Proof.
  unfold pickFoodDefinition. pose proof (next_state_range rng) as H.
  destruct (next rng) as [v r]. exact H.
Qed.

Lemma placeFood_range attempts state ordinal occupied rng :
  isUint32 rng -> isUint32 (placeFood attempts state ordinal occupied rng).2.
Proof.
  revert rng. induction attempts as [|n IH]; intros rng Hr; cbn; [exact Hr|].
  pose proof (next_state_range rng) as H1.
  destruct (next rng) as [vx r1]. cbn in H1.
  pose proof (next_state_range r1) as H2.
  destruct (next r1) as [vy r2]. cbn in H2.
  case_bool_decide.
  - by apply IH.
  - pose proof (pickFoodDefinition_range r2) as H3.
    destruct (pickFoodDefinition r2) as [d r3]. exact H3.
Qed.

Lemma fillFoods_range fuel state foods occupied rng :
  isUint32 rng -> isUint32 (fillFoods fuel state foods occupied rng).2.
Proof.
  revert foods occupied rng.
  induction fuel as [|n IH]; intros foods occupied rng Hr; cbn; [exact Hr|].
  case_bool_decide; [|exact Hr].
  match goal with |- context [placeFood ?a ?s ?o ?c ?r] =>
    pose proof (placeFood_range a s o c r Hr) as Hp;
    destruct (placeFood a s o c r) as [[food|] r'] end; cbn in Hp.
  - by apply IH.
  - exact Hp.
Qed.

(** Each round of the while loop pushes one food: the loop stops at the cap. *)
Lemma fillFoods_length fuel state foods occupied rng :
  (length foods + fuel <= MAX_FOOD)%nat ->
  (length (fillFoods fuel state foods occupied rng).1 <= MAX_FOOD)%nat.
Proof.
  revert foods occupied rng.
  induction fuel as [|n IH]; intros foods occupied rng Hl; cbn; [lia|].
  case_bool_decide; [|lia].
  destruct (placeFood _ _ _ _ _) as [[food|] r']; cbn; [|lia].
  apply IH. rewrite length_app. cbn. lia.
Qed.

Lemma replenishFood_fields state rng :
  State.tick (replenishFood state rng) = State.tick state
  /\ State.config (replenishFood state rng) = State.config state
  /\ State.snakes (replenishFood state rng) = State.snakes state
  /\ State.status (replenishFood state rng) = State.status state
  /\ State.respawnQueue (replenishFood state rng) = State.respawnQueue state.
Proof.
  unfold replenishFood. case_bool_decide; [done|].
  destruct (fillFoods _ _ _ _ _) as [foods r]. done.
Qed.

Lemma replenishFood_rng state rng :
  isUint32 rng -> isUint32 (State.rngState state) ->
  isUint32 (State.rngState (replenishFood state rng)).
Proof.
  intros Hr Hs. unfold replenishFood. case_bool_decide; [done|].
  match goal with |- context [fillFoods ?a ?s ?o ?c ?r] =>
    pose proof (fillFoods_range a s o c r Hr) as Hp;
    destruct (fillFoods a s o c r) as [foods r'] end.
  exact Hp.
Qed.

(** replenishFood never raises the number of foods above the cap. *)
Lemma replenishFood_length state rng :
  (length (State.foods (replenishFood state rng))
   <= Nat.max MAX_FOOD (length (State.foods state)))%nat.
Proof.
  unfold replenishFood. case_bool_decide; [unfold MAX_FOOD in *; lia|].
  match goal with |- context [fillFoods ?a ?s ?o ?c ?r] =>
    pose proof (fillFoods_length a s o c r) as Hp;
    destruct (fillFoods a s o c r) as [foods r'] end.
  unfold withFoods, MAX_FOOD in *. cbn in *. lia.
Qed.

Lemma createSpawnPoints_cons config :
  exists layout rest, createSpawnPoints config = layout :: rest.
Proof. unfold createSpawnPoints. eauto. Qed.

(** createInitialState accepts every config. *)
Lemma createInitialState_total pc :
  exists state,
    createInitialState pc = Some state
    /\ State.config state = clampConfig (mergeConfig defaultConfig pc)
    /\ isUint32 (State.rngState state).
Proof.
  unfold createInitialState.
  destruct (createSpawnPoints_cons (clampConfig (mergeConfig defaultConfig pc)))
    as (layout & rest & ->).
  cbn [lookup list_lookup mbind option_bind].
  eexists. split; [reflexivity|].
  match goal with |- context [replenishFood ?s ?r] =>
    destruct (replenishFood_fields s r) as (_ & -> & _);
    pose proof (replenishFood_rng s r) as Hrng end.
  split; [done|]. apply Hrng; apply u32_range.
Qed.

(** ** Head-to-head resolution *)

Lemma markHead_lookup store i j :
  markHead store i !! j
  = (if bool_decide (j = i) then Move.collide head else id) <$> store !! j.
Proof.
  unfold markHead. case_bool_decide as E.
  - subst. by rewrite list_lookup_alter_eq.
  - rewrite list_lookup_alter_ne by done. by destruct (store !! j).
Qed.

Lemma markAll_lookup idxs store j :
  fold_left markHead idxs store !! j
  = (if bool_decide (j ∈ idxs) then Move.collide head else id) <$> store !! j.
Proof.
  revert store. induction idxs as [|i idxs IH]; intros store; cbn [fold_left].
  - rewrite bool_decide_eq_false_2 by apply not_elem_of_nil. by destruct (store !! j).
  - rewrite IH, markHead_lookup. destruct (store !! j) as [m|]; [|by repeat destruct (bool_decide _)].
    cbn. f_equal.
    destruct (decide (j = i)) as [->|Hne].
    + rewrite (bool_decide_eq_true_2 (i = i)) by done.
      rewrite (bool_decide_eq_true_2 (i ∈ i :: idxs)) by (by left).
      by destruct (bool_decide _).
    + rewrite (bool_decide_eq_false_2 (j = i)) by done. cbn.
      apply (f_equal (fun b : bool => (if b then Move.collide head else id) m)).
      apply bool_decide_ext. rewrite elem_of_cons. intuition congruence.
Qed.

Lemma sameSnakes_markAll idxs store : sameSnakes (fold_left markHead idxs store) store.
Proof.
  intros j. rewrite markAll_lookup.
  destruct (store !! j); [|done]. by destruct (bool_decide _).
Qed.

Lemma segmentCount_same s1 s2 i : sameSnakes s1 s2 -> segmentCount s1 i = segmentCount s2 i.
Proof.
  intros H. unfold segmentCount. specialize (H i).
  destruct (s1 !! i), (s2 !! i); cbn in H; congruence.
Qed.

Lemma interactiveOf_same safe s1 s2 idxs :
  sameSnakes s1 s2 -> interactiveOf safe s1 idxs = interactiveOf safe s2 idxs.
Proof.
  intros H. unfold interactiveOf. apply filter_ext. intros i. specialize (H i).
  destruct (s1 !! i), (s2 !! i); cbn in H; congruence.
Qed.

Lemma maxLength_same s1 s2 idxs :
  sameSnakes s1 s2 -> maxLength s1 idxs = maxLength s2 idxs.
Proof.
  intros H. unfold maxLength. f_equal. apply map_ext. intros i.
  by apply segmentCount_same.
Qed.

Lemma winnersOf_same s1 s2 idxs :
  sameSnakes s1 s2 -> winnersOf s1 idxs = winnersOf s2 idxs.
Proof.
  intros H. unfold winnersOf. rewrite (maxLength_same s1 s2) by done.
  apply filter_ext. intros i. by rewrite (segmentCount_same s1 s2).
Qed.

Lemma losers_same safe s1 s2 idxs :
  sameSnakes s1 s2 -> losers safe s1 idxs = losers safe s2 idxs.
Proof.
  intros H. unfold losers.
  rewrite (interactiveOf_same safe s1 s2), (winnersOf_same s1 s2); done.
Qed.

Lemma markUnless_filter winner idxs store :
  fold_left (fun store i => if decide (i <> winner) then markHead store i else store)
            idxs store
  = fold_left markHead (List.filter (fun i => bool_decide (i <> winner)) idxs) store.
Proof.
  revert store. induction idxs as [|i idxs IH]; intros store; cbn; [done|].
  destruct (decide (i <> winner)).
  - rewrite bool_decide_eq_true_2 by done. cbn. apply IH.
  - rewrite bool_decide_eq_false_2 by done. apply IH.
Qed.

Lemma resolveGroup_losers safe store group :
  resolveGroup safe store group = fold_left markHead (losers safe store group.2) store.
Proof.
  unfold resolveGroup, losers.
  case_bool_decide; [done|]. case_bool_decide; [done|].
  destruct (winnersOf _ _) as [|w [|w' ws]]; try done.
  apply markUnless_filter.
Qed.

Lemma resolveGroups_losers safe moves groups store :
  sameSnakes store moves ->
  fold_left (resolveGroup safe) groups store
  = fold_left markHead (concat (map (fun g => losers safe moves g.2) groups)) store.
Proof.
  revert store. induction groups as [|g groups IH]; intros store Hs; cbn; [done|].
  rewrite fold_left_app, resolveGroup_losers, (losers_same safe store moves) by done.
  apply IH. intros i. rewrite sameSnakes_markAll. apply Hs.
Qed.

Lemma resolveHeadCollisions_lookup safe moves j :
  resolveHeadCollisions safe moves !! j
  = (if bool_decide
          (j ∈ concat (map (fun g => losers safe moves g.2) (headCollisions moves)))
     then Move.collide head else id) <$> moves !! j.
Proof.
  unfold resolveHeadCollisions.
  rewrite (resolveGroups_losers safe moves) by done.
  apply markAll_lookup.
Qed.

(** *** The groups of headCollisions *)

Lemma headCollisions_snoc moves m :
  headCollisions (moves ++ [m])
  = match contests m with
    | Some key => pushAt key (length moves) (headCollisions moves)
    | None => headCollisions moves
    end.
Proof.
  unfold headCollisions. rewrite imap_app, fold_left_app. cbn.
  by rewrite Nat.add_0_r.
Qed.

Lemma contestants_snoc moves m cell :
  contestants (moves ++ [m]) cell
  = contestants moves cell
    ++ (if bool_decide (contests m = Some cell) then [length moves] else []).
Proof.
  unfold contestants. rewrite length_app. cbn [length].
  rewrite Nat.add_1_r, seq_S, List.filter_app. cbn [List.filter]. f_equal.
  - apply filter_ext_in. intros i Hi. apply in_seq in Hi.
    by rewrite lookup_app_l by lia.
  - rewrite lookup_app_r by lia. rewrite Nat.sub_diag. cbn.
    by destruct (bool_decide _).
Qed.

Lemma pushAt_keys key i groups :
  map fst (pushAt key i groups)
  = if decide (key ∈ map fst groups) then map fst groups
    else map fst groups ++ [key].
Proof.
  induction groups as [|[k l] groups IH]; cbn.
  - rewrite decide_False; [done|]. apply not_elem_of_nil.
  - destruct (decide (k = key)) as [->|Hne]; cbn.
    + rewrite decide_True; [done|]. by left.
    + rewrite IH. destruct (decide (key ∈ map fst groups)).
      * rewrite decide_True; [done|]. by right.
      * rewrite decide_False; [done|]. rewrite elem_of_cons. intuition congruence.
Qed.

Lemma pushAt_NoDup key i groups :
  NoDup (map fst groups) -> NoDup (map fst (pushAt key i groups)).
Proof.
  intros H. rewrite pushAt_keys. destruct (decide _); [done|].
  apply NoDup_app. split_and!; [done| |apply NoDup_singleton].
  intros k Hk Hk'. apply list_elem_of_singleton in Hk'. by subst.
Qed.

Lemma pushAt_Forall (P P' : (Z * Z) * list nat -> Prop) key i groups :
  NoDup (map fst groups) ->
  (forall l, P (key, l) -> P' (key, l ++ [i])) ->
  (forall g, g.1 <> key -> P g -> P' g) ->
  (key ∉ map fst groups -> P' (key, [i])) ->
  Forall P groups -> Forall P' (pushAt key i groups).
Proof.
  intros Hnd Hhit Hmiss Hnew.
  induction groups as [|[k l] groups IH]; intros HP; cbn.
  - constructor; [|done]. apply Hnew. apply not_elem_of_nil.
  - cbn in Hnd. apply NoDup_cons in Hnd as [Hk Hnd].
    apply Forall_cons in HP as [Hg HP].
    destruct (decide (k = key)) as [->|Hne].
    + constructor; [by apply Hhit|].
      apply Forall_forall. intros g Hin. apply Hmiss.
      * intros E. apply Hk. rewrite <- E. apply list_elem_of_fmap. eauto.
      * rewrite Forall_forall in HP. by apply HP.
    + constructor; [by apply Hmiss|].
      apply IH; [done| |done].
      intros Hn. apply Hnew. cbn. rewrite elem_of_cons. intuition congruence.
Qed.

(** The Map of headCollisions has one entry per contested cell, and its list
    is the contestants of the cell in the order of the array. *)
Lemma headCollisions_inv moves :
  NoDup (map fst (headCollisions moves))
  /\ Forall (fun g => g.2 = contestants moves g.1) (headCollisions moves)
  /\ (forall cell, contestants moves cell <> [] -> cell ∈ map fst (headCollisions moves)).
Proof.
  induction moves as [|m moves (Hnd & Hall & Hcov)] using rev_ind.
  - split_and!; [constructor|constructor|]. intros cell Hc. by cbn in Hc.
  - rewrite headCollisions_snoc. destruct (contests m) as [key|] eqn:Ec.
    + split_and!.
      * by apply pushAt_NoDup.
      * eapply pushAt_Forall; [done| | | |exact Hall]; cbn.
        -- intros l ->. rewrite contestants_snoc.
           by rewrite bool_decide_eq_true_2.
        -- intros [k l] Hk ->. cbn in *. rewrite contestants_snoc.
           rewrite bool_decide_eq_false_2 by congruence. by rewrite app_nil_r.
        -- intros Hn. rewrite contestants_snoc.
           rewrite bool_decide_eq_true_2 by done.
           destruct (contestants moves key) eqn:E; [done|].
           exfalso. apply Hn, Hcov. by rewrite E.
      * intros cell Hc. rewrite pushAt_keys. rewrite contestants_snoc in Hc.
        destruct (decide (key = cell)) as [->|Hne].
        -- destruct (decide _); [done|]. apply elem_of_app. right. by left.
        -- rewrite bool_decide_eq_false_2, app_nil_r in Hc by congruence.
           destruct (decide _); [|apply elem_of_app; left]; by apply Hcov.
    + split_and!; [done| |].
      * eapply Forall_impl; [exact Hall|]. intros g ->. cbn.
        rewrite contestants_snoc.
        by rewrite bool_decide_eq_false_2, app_nil_r by congruence.
      * intros cell Hc. apply Hcov. rewrite contestants_snoc in Hc.
        by rewrite bool_decide_eq_false_2, app_nil_r in Hc by congruence.
Qed.

Lemma contestants_spec moves cell j :
  j ∈ contestants moves cell <-> moves !! j ≫= contests = Some cell.
Proof.
  unfold contestants. rewrite list_elem_of_In, filter_In, in_seq, bool_decide_eq_true.
  split; [tauto|]. intros H. split; [|done].
  destruct (moves !! j) eqn:E; [|done]. apply lookup_lt_Some in E. lia.
Qed.

Lemma contestants_NoDup moves cell : NoDup (contestants moves cell).
Proof.
  unfold contestants. apply NoDup_ListNoDup, List.NoDup_filter, List.seq_NoDup.
Qed.

Lemma interactiveOf_subset safe store idxs j :
  j ∈ interactiveOf safe store idxs -> j ∈ idxs.
Proof. unfold interactiveOf. rewrite !list_elem_of_In, filter_In. tauto. Qed.

Lemma losers_interactive safe store idxs j :
  j ∈ losers safe store idxs -> j ∈ interactiveOf safe store idxs.
Proof.
  unfold losers. case_bool_decide; [intros H'; by apply elem_of_nil in H'|].
  case_bool_decide; [intros H'; by apply elem_of_nil in H'|].
  destruct (winnersOf _ _) as [|w [|w' ws]]; try done.
  rewrite !list_elem_of_In, filter_In. tauto.
Qed.

(** A move is marked by the round of its own cell, and by no other. *)
Lemma marked_iff safe moves j m cell :
  moves !! j = Some m -> contests m = Some cell ->
  j ∈ concat (map (fun g => losers safe moves g.2) (headCollisions moves))
  <-> j ∈ losers safe moves (contestants moves cell).
Proof.
  intros Hj Hc. destruct (headCollisions_inv moves) as (Hnd & Hall & Hcov).
  assert (Hjc : j ∈ contestants moves cell).
  { apply contestants_spec. by rewrite Hj. }
  rewrite list_elem_of_In, in_concat. split.
  - intros (l & Hl & Hin). apply in_map_iff in Hl as ([k idxs] & <- & Hg).
    rewrite Forall_forall in Hall. apply list_elem_of_In in Hg.
    specialize (Hall _ Hg). cbn in *. subst idxs.
    apply list_elem_of_In in Hin.
    assert (Hk : j ∈ contestants moves k)
      by by eapply interactiveOf_subset, losers_interactive.
    apply contestants_spec in Hk. rewrite Hj in Hk. cbn in Hk.
    by replace cell with k by congruence.
  - intros Hin.
    assert (Hne : contestants moves cell <> []).
    { intros E. rewrite E in Hjc. by apply elem_of_nil in Hjc. }
    apply Hcov, list_elem_of_fmap in Hne as ([k idxs] & -> & Hg).
    rewrite Forall_forall in Hall. pose proof (Hall _ Hg) as E. cbn in E.
    exists (losers safe moves idxs). split.
    + apply in_map_iff. exists (k, idxs). split; [done|]. by apply list_elem_of_In.
    + apply list_elem_of_In. by rewrite E.
Qed.

Lemma unmarked_idle safe moves j m :
  moves !! j = Some m -> contests m = None ->
  j ∉ concat (map (fun g => losers safe moves g.2) (headCollisions moves)).
Proof.
  intros Hj Hc. destruct (headCollisions_inv moves) as (Hnd & Hall & Hcov).
  rewrite list_elem_of_In, in_concat. intros (l & Hl & Hin).
  apply in_map_iff in Hl as ([k idxs] & <- & Hg).
  rewrite Forall_forall in Hall. apply list_elem_of_In in Hg.
  specialize (Hall _ Hg). cbn in *. subst idxs.
  apply list_elem_of_In in Hin.
  assert (Hk : j ∈ contestants moves k)
    by by eapply interactiveOf_subset, losers_interactive.
  apply contestants_spec in Hk. rewrite Hj in Hk. cbn in Hk. congruence.
Qed.

(** What the head-to-head pass leaves at each index. *)
Lemma resolve_contest safe moves j m cell :
  moves !! j = Some m -> contests m = Some cell ->
  resolveHeadCollisions safe moves !! j
  = Some (if bool_decide (j ∈ losers safe moves (contestants moves cell))
          then Move.collide head m else m).
Proof.
  intros Hj Hc. rewrite resolveHeadCollisions_lookup, Hj. cbn. f_equal.
  rewrite (bool_decide_ext _ _ (marked_iff safe moves j m cell Hj Hc)).
  by destruct (bool_decide _).
Qed.

Lemma resolve_idle safe moves j m :
  moves !! j = Some m -> contests m = None ->
  resolveHeadCollisions safe moves !! j = Some m.
Proof.
  intros Hj Hc. rewrite resolveHeadCollisions_lookup, Hj. cbn.
  by rewrite bool_decide_eq_false_2 by by eapply unmarked_idle.
Qed.

(** *** The outcome of a contest *)

Lemma fold_max_ge l n :
  (n <= fold_left Nat.max l n)%nat
  /\ forall v, v ∈ l -> (v <= fold_left Nat.max l n)%nat.
Proof.
  revert n. induction l as [|a l IH]; intros n; cbn.
  - split; [lia|]. intros v Hv. by apply elem_of_nil in Hv.
  - destruct (IH (Nat.max n a)) as [H1 H2]. split; [lia|].
    intros v [->|Hv]%elem_of_cons; [lia|by apply H2].
Qed.

Lemma fold_max_le l n b :
  (n <= b)%nat -> (forall v, v ∈ l -> (v <= b)%nat) ->
  (fold_left Nat.max l n <= b)%nat.
Proof.
  revert n. induction l as [|a l IH]; intros n Hn Hl; cbn; [done|].
  apply IH.
  - pose proof (Hl a (list_elem_of_here _ _)). lia.
  - intros v Hv. apply Hl. by right.
Qed.

Lemma maxLength_greatest store idxs w :
  w ∈ idxs ->
  (forall j, j ∈ idxs -> (segmentCount store j <= segmentCount store w)%nat) ->
  maxLength store idxs = segmentCount store w.
Proof.
  intros Hw Hle. unfold maxLength. apply Nat.le_antisymm.
  - apply fold_max_le; [lia|].
    intros v (j & -> & Hj)%list_elem_of_fmap. by apply Hle.
  - apply fold_max_ge, list_elem_of_fmap. eauto.
Qed.

Lemma filter_only {A} (P : A -> bool) (l : list A) (w : A) :
  NoDup l -> w ∈ l -> P w = true ->
  (forall j, j ∈ l -> j <> w -> P j = false) ->
  List.filter P l = [w].
Proof.
  induction l as [|a l IH]; intros Hnd Hw Hp Hothers.
  - by apply elem_of_nil in Hw.
  - apply NoDup_cons in Hnd as [Ha Hnd]. cbn.
    assert (Hnone : forall l', (forall j, j ∈ l' -> P j = false) -> List.filter P l' = []).
    { induction l' as [|c l' IH']; intros Hf; cbn; [done|].
      rewrite (Hf c) by by left. apply IH'. intros j Hj. apply Hf. by right. }
    apply elem_of_cons in Hw as [<-|Hw].
    + rewrite Hp. f_equal. apply Hnone. intros j Hj. apply Hothers; [by right|].
      intros ->. done.
    + rewrite (Hothers a) by (by left || by intros ->). apply IH; try done.
      intros j Hj. apply Hothers. by right.
Qed.

Lemma interactiveOf_NoDup safe moves cell :
  NoDup (interactiveOf safe moves (contestants moves cell)).
Proof.
  unfold interactiveOf.
  apply NoDup_ListNoDup, List.NoDup_filter, NoDup_ListNoDup, contestants_NoDup.
Qed.

Lemma filter_length_le {A} (P : A -> bool) (l : list A) :
  (length (List.filter P l) <= length l)%nat.
Proof. induction l as [|a l IH]; cbn; [done|]. destruct (P a); cbn; lia. Qed.

Lemma losers_contest safe moves cell :
  (2 <= length (interactiveOf safe moves (contestants moves cell)))%nat ->
  losers safe moves (contestants moves cell)
  = match winnersOf moves (interactiveOf safe moves (contestants moves cell)) with
    | [winner] =>
        List.filter (fun i => bool_decide (i <> winner))
                    (interactiveOf safe moves (contestants moves cell))
    | _ => interactiveOf safe moves (contestants moves cell)
    end.
Proof.
  intros H2. unfold losers.
  pose proof (filter_length_le
    (fun i => match moves !! i with
              | Some m => negb (isSafe safe (Snake.id (Move.snake m)))
              | None => false
              end) (contestants moves cell)) as Hle.
  fold (interactiveOf safe moves (contestants moves cell)) in Hle.
  rewrite bool_decide_eq_false_2 by lia.
  by rewrite bool_decide_eq_false_2 by lia.
Qed.

Lemma interactive_contests safe moves cell j :
  j ∈ interactiveOf safe moves (contestants moves cell) ->
  exists m, moves !! j = Some m /\ contests m = Some cell
            /\ Move.collided m = false /\ Move.willMove m = true.
Proof.
  intros Hj%interactiveOf_subset%contestants_spec.
  destruct (moves !! j) as [m|]; [|done]. cbn in Hj.
  exists m. split_and!; try done; unfold contests in Hj;
    destruct (Move.willMove m), (Move.collided m); done.
Qed.

(** The contest for a cell, for any array of moves and any safe lookup. *)
Lemma contest_outcome (safeLookup : gmap string bool) (moves : list Move.t)
    (cell : Z * Z) :
  let interactive := interactiveOf safeLookup moves (contestants moves cell) in
  let final := resolveHeadCollisions safeLookup moves in
  (2 <= length interactive)%nat ->
  (forall w, w ∈ interactive ->
     (forall j, j ∈ interactive -> j <> w ->
        (segmentCount moves j < segmentCount moves w)%nat) ->
     final !! w = moves !! w
     /\ Move.collided <$> final !! w = Some false
     /\ forall j, j ∈ interactive -> j <> w ->
          final !! j = Move.collide head <$> moves !! j)
  /\ (forall a b, a ∈ interactive -> b ∈ interactive -> a <> b ->
        segmentCount moves a = segmentCount moves b ->
        (forall j, j ∈ interactive ->
           (segmentCount moves j <= segmentCount moves a)%nat) ->
        forall j, j ∈ interactive ->
          final !! j = Move.collide head <$> moves !! j)
  /\ (forall j, j ∈ contestants moves cell -> j ∉ interactive ->
        final !! j = moves !! j).
Proof.
  intros interactive final H2.
  pose proof (losers_contest safeLookup moves cell H2) as Hlosers.
  fold interactive in Hlosers.
  assert (Hat : forall j, j ∈ interactive ->
    exists m, moves !! j = Some m /\ Move.collided m = false
      /\ final !! j
         = Some (if bool_decide (j ∈ losers safeLookup moves (contestants moves cell))
                 then Move.collide head m else m)).
  { intros j Hj. destruct (interactive_contests _ _ _ _ Hj) as (m & Hm & Hc & Hcol & _).
    exists m. split_and!; try done. by apply resolve_contest. }
  split_and!.
  - intros w Hw Hgreatest.
    assert (Hwin : winnersOf moves interactive = [w]).
    { unfold winnersOf. apply filter_only.
      - apply interactiveOf_NoDup.
      - done.
      - apply bool_decide_eq_true_2. symmetry. apply maxLength_greatest; [done|].
        intros j Hj. destruct (decide (j = w)) as [->|Hne]; [done|].
        specialize (Hgreatest j Hj Hne). lia.
      - intros j Hj Hne. apply bool_decide_eq_false_2.
        rewrite (maxLength_greatest moves interactive w); [|done|].
        + specialize (Hgreatest j Hj Hne). lia.
        + intros k Hk. destruct (decide (k = w)) as [->|Hne']; [done|].
          specialize (Hgreatest k Hk Hne'). lia. }
    rewrite Hwin in Hlosers.
    assert (Hin : forall j, j ∈ losers safeLookup moves (contestants moves cell)
                            <-> j ∈ interactive /\ j <> w).
    { intros j. rewrite Hlosers, list_elem_of_In, filter_In, bool_decide_eq_true.
      by rewrite <- list_elem_of_In. }
    destruct (Hat w Hw) as (m & Hm & Hcol & Hf).
    rewrite bool_decide_eq_false_2 in Hf by (rewrite Hin; tauto).
    split_and!.
    + by rewrite Hf, Hm.
    + by rewrite Hf; cbn; rewrite Hcol.
    + intros j Hj Hne. destruct (Hat j Hj) as (mj & Hmj & _ & Hfj).
      rewrite bool_decide_eq_true_2 in Hfj by (by rewrite Hin).
      by rewrite Hfj, Hmj.
  - intros a b Ha Hb Hab Heq Hmax j Hj.
    assert (Hm : maxLength moves interactive = segmentCount moves a)
      by by apply maxLength_greatest.
    assert (Hwa : a ∈ winnersOf moves interactive).
    { unfold winnersOf. rewrite list_elem_of_In, filter_In, bool_decide_eq_true.
      by rewrite <- list_elem_of_In. }
    assert (Hwb : b ∈ winnersOf moves interactive).
    { unfold winnersOf. rewrite list_elem_of_In, filter_In, bool_decide_eq_true.
      rewrite <- list_elem_of_In. split; [done|congruence]. }
    assert (Hall : losers safeLookup moves (contestants moves cell) = interactive).
    { rewrite Hlosers. destruct (winnersOf moves interactive) as [|w [|w' ws]]; try done.
      apply list_elem_of_singleton in Hwa, Hwb. congruence. }
    destruct (Hat j Hj) as (mj & Hmj & _ & Hfj).
    rewrite bool_decide_eq_true_2 in Hfj by (by rewrite Hall).
    by rewrite Hfj, Hmj.
  - intros j Hj Hn.
    apply contestants_spec in Hj. destruct (moves !! j) as [m|] eqn:Hm; [|done].
    cbn in Hj. unfold final. rewrite (resolve_contest _ _ _ _ _ Hm Hj).
    rewrite bool_decide_eq_false_2; [done|].
    intros Hl. by apply Hn, losers_interactive.
Qed.

(** ** The moves of a tick, snake by snake *)

Lemma prepareSnake_fields state cm s :
  let p := prepareSnake state cm s in
  Snake.id p = Snake.id s
  /\ Snake.segments p = Snake.segments s
  /\ Snake.direction p = Snake.direction s
  /\ Snake.alive p = Snake.alive s
  /\ Snake.speed p = Snake.speed s
  /\ Snake.accumulator p = Snake.accumulator s
  /\ Snake.controller p = Snake.controller s
  /\ Snake.pendingGrowth p = Snake.pendingGrowth s
  /\ Snake.effects p = pruneEffects (Snake.effects s) (State.tick state)
  /\ Snake.safeUntilTick p = Snake.safeUntilTick s.
Proof.
  assert (He : match Snake.effects s with
               | [] => Snake.effects s
               | _ => pruneEffects (Snake.effects s) (State.tick state)
               end = pruneEffects (Snake.effects s) (State.tick state)).
  { by destruct (Snake.effects s). }
  unfold prepareSnake. rewrite He. unfold withEffects, applyInput. cbn.
  destruct (Snake.alive s); cbn; [|done].
  destruct (cm !! Snake.id s) as [d|]; [|done].
  by destruct (decide _).
Qed.

Lemma proposeMove_snake state s pm :
  proposeMove state s = Some pm -> Move.snake pm = s.
Proof.
  unfold proposeMove. destruct (Snake.alive s); cbn.
  - destruct (maybeTurn s) as [d pt]. destruct (Qle_bool _ _); cbn.
    + destruct (Snake.segments s !! 0%nat); cbn; [|done].
      destruct (last (Snake.segments s)); cbn; [|done]. by intros [= <-].
    + by intros [= <-].
  - by intros [= <-].
Qed.

Lemma proposeMove_total state s : hasHead s -> is_Some (proposeMove state s).
Proof.
  intros Hh. unfold proposeMove. destruct (Snake.alive s); cbn; [|done].
  destruct (maybeTurn s) as [d pt]. destruct (Qle_bool _ _); cbn; [|done].
  unfold hasHead in Hh. destruct (Snake.segments s) as [|h t] eqn:E; [done|]. cbn.
  destruct (last_is_Some (h :: t)) as [_ [tl ->]]; done.
Qed.

Lemma checkMove_cases state occ safe sl mb m m' :
  checkMove state occ safe sl mb m = Some m' ->
  m' = m
  \/ (m' = Move.collide wall m /\ Move.collided m = false /\ Move.willMove m = true)
  \/ (m' = Move.collide body m /\ Move.collided m = false /\ Move.willMove m = true
      /\ isSafe safe (Snake.id (Move.snake m)) = false).
Proof.
  unfold checkMove.
  destruct (Move.willMove m) eqn:Ew, (Move.collided m) eqn:Ec; cbn;
    try (intros [= <-]; by left).
  destruct (Move.nextHead m) as [nh|]; [|intros [= <-]; by left].
  destruct (inBounds _ nh); cbn; [|intros [= <-]; right; by left].
  destruct (truthy _); cbn; [|intros [= <-]; by left].
  destruct (bool_decide (_ = Some _)); [intros [= <-]; by left|].
  destruct (isSafe safe (Snake.id (Move.snake m))) eqn:Es; cbn;
    [intros [= <-]; by left|].
  destruct (isSafe safe (default _ _)); cbn; [intros [= <-]; by left|].
  intros H. apply bind_Some in H as (b1 & _ & H).
  apply bind_Some in H as (b2 & _ & H). revert H.
  destruct (b1 && b2); [intros [= <-]; by left|].
  destruct (negb _); intros [= <-]; [right; right; done|by left].
Qed.

Lemma checkMove_total state occ safe sl mb m :
  hasHead (Move.snake m) ->
  (forall k o, sl !! k = Some o -> hasHead o) ->
  is_Some (checkMove state occ safe sl mb m).
Proof.
  intros Hm Hsl. unfold checkMove.
  destruct (negb _ || _); [done|].
  destruct (Move.nextHead m) as [nh|]; [|done].
  destruct (negb (inBounds _ _)); [done|].
  destruct (negb (truthy _)); [done|].
  destruct (bool_decide _); [done|].
  destruct (_ || _); [done|].
  set (oid := default _ _).
  assert (H1 : exists b, match sl !! oid with
    | Some o => h ← Snake.segments o !! 0%nat;
                Some (bool_decide (x h = x nh) && bool_decide (y h = y nh))
    | None => Some false end = Some b).
  { destruct (sl !! oid) as [o|] eqn:Eo; [|eauto].
    apply Hsl in Eo. unfold hasHead in Eo.
    destruct (Snake.segments o); [done|]. cbn. eauto. }
  destruct H1 as [b1 ->]. cbn.
  assert (H2 : exists b, match mb !! oid with
    | Some om =>
        if Move.willMove om then
          match Move.nextHead om with
          | Some onh =>
              if b1 then
                h ← Snake.segments (Move.snake m) !! 0%nat;
                Some (bool_decide (x onh = x h) && bool_decide (y onh = y h))
              else Some false
          | None => Some false
          end
        else Some false
    | None => Some false end = Some b).
  { destruct (mb !! oid) as [om|]; [|eauto].
    destruct (Move.willMove om); [|eauto].
    destruct (Move.nextHead om); [|eauto].
    destruct b1; [|eauto].
    unfold hasHead in Hm. destruct (Snake.segments (Move.snake m)); [done|].
    cbn. eauto. }
  destruct H2 as [b2 ->]. cbn.
  destruct (b1 && b2); [done|]. by destruct (negb _).
Qed.

Lemma computeAiTurn_total snake state occ rng :
  hasHead snake -> is_Some (computeAiTurn snake state occ rng).
Proof.
  intros Hh. unfold computeAiTurn. destruct (negb _); [done|].
  unfold hasHead in Hh. destruct (Snake.segments snake) as [|h t] eqn:E; [done|].
  destruct (last_is_Some (h :: t)) as [_ [tl ->]]; [done|]. cbn.
  by destruct (fold_left _ _ _).
Qed.

Lemma backfillAi_total state occ snakes cm rng :
  Forall hasHead snakes -> is_Some (backfillAi state occ snakes cm rng).
Proof.
  intros H. revert cm rng. induction H as [|s snakes Hs _ IH]; intros cm rng; cbn.
  - done.
  - destruct (_ && _); [|apply IH].
    destruct (computeAiTurn_total s state occ rng Hs) as [[[d|] r] ->]; cbn; apply IH.
Qed.

Lemma buildSnakeLookup_elem snakes k o :
  buildSnakeLookup snakes !! k = Some o -> o ∈ snakes.
Proof.
  unfold buildSnakeLookup. induction snakes as [|s snakes IH] using rev_ind.
  - cbn. by rewrite lookup_empty.
  - rewrite fold_left_app. cbn. rewrite lookup_insert.
    destruct (decide (Snake.id s = k)).
    + intros [= <-]. apply elem_of_app. right. by left.
    + intros H. apply elem_of_app. left. by apply IH.
Qed.

Lemma markAll_length idxs store : length (fold_left markHead idxs store) = length store.
Proof.
  revert store. induction idxs as [|i idxs IH]; intros store; cbn; [done|].
  rewrite IH. apply length_alter.
Qed.

Lemma resolveHeadCollisions_length safe moves :
  length (resolveHeadCollisions safe moves) = length moves.
Proof.
  unfold resolveHeadCollisions.
  rewrite (resolveGroups_losers safe moves) by done. apply markAll_length.
Qed.

Lemma resolve_settled safe moves j m f :
  moves !! j = Some m ->
  resolveHeadCollisions safe moves !! j = Some f ->
  f = m
  \/ (f = Move.collide head m /\ Move.collided m = false /\ Move.willMove m = true
      /\ isSafe safe (Snake.id (Move.snake m)) = false).
Proof.
  intros Hm Hf. destruct (contests m) as [cell|] eqn:Ec.
  - rewrite (resolve_contest _ _ _ _ _ Hm Ec) in Hf. injection Hf as <-.
    case_bool_decide as Hl; [|by left]. right.
    apply losers_interactive in Hl.
    destruct (interactive_contests _ _ _ _ Hl) as (m0 & Hm0 & _ & Hcol & Hw).
    assert (m0 = m) as -> by congruence.
    split_and!; try done.
    unfold interactiveOf in Hl. apply list_elem_of_In, filter_In in Hl as [_ Hl].
    rewrite Hm in Hl. by apply negb_true_iff in Hl.
  - rewrite (resolve_idle _ _ _ _ Hm Ec) in Hf. left. congruence.
Qed.

(** The moves of a tick: one per snake of the state, in order, each the move
    proposed for the prepared snake up to a collision. *)
Lemma checkedMoves_spec state commands checked safe rng :
  checkedMoves state commands = Some (checked, safe, rng) ->
  exists cm,
    commandsOfTick state commands = Some (cm, rng)
    /\ safe = buildSafeLookup (State.tick state)
               (map (prepareSnake state cm) (State.snakes state))
    /\ Forall2
         (fun s m =>
            exists pm,
              proposeMove state (prepareSnake state cm s) = Some pm
              /\ settled safe pm m
              /\ (m = pm \/ Move.collided m = true))
         (State.snakes state) checked.
Proof.
  unfold checkedMoves. intros H.
  apply bind_Some in H as ([cm rng'] & Hb & H).
  apply bind_Some in H as (proposed & Hp & H).
  apply bind_Some in H as (chk & Hc & H).
  injection H as <- <- <-. exists cm. split; [exact Hb|]. split; [done|].
  apply mapM_Some_1 in Hp, Hc. apply Forall2_fmap_l in Hp.
  apply Forall2_same_length_lookup. split.
  { by rewrite (Forall2_length _ _ _ Hp), (Forall2_length _ _ _ Hc). }
  intros i s m Hs Hm.
  destruct (Forall2_lookup_l _ _ _ _ _ Hp Hs) as (pm & Hpm & Hprop).
  destruct (Forall2_lookup_l _ _ _ _ _ Hc Hpm) as (m0 & Hm0 & Hchk).
  assert (m0 = m) as -> by congruence.
  exists pm. split; [exact Hprop|].
  apply checkMove_cases in Hchk as [->|[(-> & ? & ?)|(-> & ? & ? & ?)]].
  - split; by left.
  - split; [right; exists wall; split_and!; auto|by right].
  - split; [right; exists body; split_and!; auto|by right].
Qed.

Lemma tickMoves_spec state commands moves rng :
  tickMoves state commands = Some (moves, rng) ->
  exists cm,
    commandsOfTick state commands = Some (cm, rng)
    /\ Forall2
      (fun s m =>
         exists pm,
           proposeMove state (prepareSnake state cm s) = Some pm
           /\ settled (buildSafeLookup (State.tick state)
                         (map (prepareSnake state cm) (State.snakes state))) pm m)
      (State.snakes state) moves.
Proof.
  unfold tickMoves. intros H.
  apply bind_Some in H as ([[checked safe] rng'] & Hc & H).
  injection H as <- <-.
  apply checkedMoves_spec in Hc as (cm & Hb & -> & Hc). exists cm.
  split; [exact Hb|].
  set (safe := buildSafeLookup _ _) in *.
  apply Forall2_same_length_lookup. split.
  { rewrite resolveHeadCollisions_length. by eapply Forall2_length. }
  intros i s f Hs Hf.
  destruct (Forall2_lookup_l _ _ _ _ _ Hc Hs) as (m & Hm & pm & Hprop & Hset & Hcol).
  exists pm. split; [done|].
  destruct (resolve_settled _ _ _ _ _ Hm Hf) as [->|(-> & Hcm & Hwm & Hsafe)]; [done|].
  destruct Hcol as [->|Hcol]; [|congruence].
  right. exists head. split_and!; auto.
Qed.

Lemma tickMoves_total state commands :
  Forall hasHead (State.snakes state) -> is_Some (tickMoves state commands).
Proof.
  intros Hh. unfold tickMoves, checkedMoves.
  destruct (backfillAi_total state (buildOccupancy (State.snakes state))
              (State.snakes state) (buildCommandMap commands)
              (createRng (State.rngState state)) Hh) as [[cm rng] ->].
  cbn.
  assert (Hprep : Forall hasHead (map (prepareSnake state cm) (State.snakes state))).
  { apply Forall_fmap. eapply Forall_impl; [exact Hh|]. intros s Hs.
    unfold hasHead, compose. by destruct (prepareSnake_fields state cm s) as (_ & -> & _). }
  destruct (mapM (proposeMove state) (map (prepareSnake state cm) (State.snakes state)))
    as [proposed|] eqn:Hp.
  2:{ exfalso. apply eq_None_not_Some in Hp. apply Hp.
      apply mapM_is_Some. eapply Forall_impl; [exact Hprep|].
      intros s Hs. by apply proposeMove_total. }
  cbn.
  match goal with |- context [mapM ?f proposed] =>
    destruct (mapM f proposed) as [checked|] eqn:Hc end; [by cbn|].
  exfalso. apply eq_None_not_Some in Hc. apply Hc. apply mapM_is_Some.
  apply mapM_Some_1 in Hp.
  apply Forall_forall. intros pm Hpm.
  apply list_elem_of_lookup in Hpm as [i Hi].
  destruct (Forall2_lookup_r _ _ _ _ _ Hp Hi) as (s & Hs & Hprop).
  apply checkMove_total.
  - rewrite (proposeMove_snake _ _ _ Hprop).
    rewrite Forall_forall in Hprep. apply Hprep. eapply list_elem_of_lookup_2, Hs.
  - intros k o Ho. apply buildSnakeLookup_elem in Ho.
    rewrite Forall_forall in Hprep. by apply Hprep.
Qed.

(** ** What a move does to its snake *)

Lemma proposeMove_idle state p :
  Snake.alive p = true ->
  Qle_bool 1 (Snake.accumulator p
              + Snake.speed p * getSpeedMultiplier (Snake.effects p)) = false ->
  proposeMove state p
  = Some (Move.mk p false (maybeTurn p).1 None 0 None None
            (Snake.accumulator p
             + Snake.speed p * getSpeedMultiplier (Snake.effects p))%Q
            (maybeTurn p).2 false None None).
Proof.
  intros Ha Hq. unfold proposeMove. rewrite Ha. cbn.
  destruct (maybeTurn p) as [d pt]. by rewrite Hq.
Qed.

Lemma proposeMove_moving state p h t :
  Snake.alive p = true ->
  Qle_bool 1 (Snake.accumulator p
              + Snake.speed p * getSpeedMultiplier (Snake.effects p)) = true ->
  Snake.segments p = h :: t ->
  exists tailKey,
    proposeMove state p
    = Some (Move.mk p true (maybeTurn p).1
              (Some (nextPosition h (maybeTurn p).1))
              (match foodAt state (nextPosition h (maybeTurn p).1) with
               | Some f => Food.growth f
               | None => 0
               end)
              (Food.id <$> foodAt state (nextPosition h (maybeTurn p).1))
              (foodAt state (nextPosition h (maybeTurn p).1) ≫= Food.effect)
              (Snake.accumulator p
               + Snake.speed p * getSpeedMultiplier (Snake.effects p) - 1)%Q
              (maybeTurn p).2 false None tailKey).
Proof.
  intros Ha Hq Hs. unfold proposeMove. rewrite Ha. cbn.
  destruct (maybeTurn p) as [d pt]. rewrite Hq, Hs. cbn.
  destruct (last_is_Some (h :: t)) as [_ [tl ->]]; [done|]. cbn.
  eexists. reflexivity.
Qed.

Lemma maybeTurn_not_opposite p : (maybeTurn p).1 <> opposite (Snake.direction p).
Proof.
  unfold maybeTurn. destruct (Snake.pendingTurn p) as [t|]; cbn.
  - destruct (decide _); cbn; [done|]. by destruct (Snake.direction p).
  - by destruct (Snake.direction p).
Qed.

Lemma fold_multiplier_ge1 effects (m0 : Q) :
  Forall (fun e => (1 <= Effect.multiplier e)%Q) effects ->
  (1 <= m0)%Q ->
  (1 <= fold_left
          (fun multiplier e =>
             match Effect.type e with
             | speedBoost => (multiplier * Effect.multiplier e)%Q
             end)
          effects m0)%Q.
Proof.
  intros H. revert m0.
  induction H as [|e effects He _ IH]; intros m0 H0; cbn; [done|].
  apply IH. destruct (Effect.type e). nra.
Qed.

Lemma getSpeedMultiplier_ge1 effects :
  Forall (fun e => (1 <= Effect.multiplier e)%Q) effects ->
  (1 <= getSpeedMultiplier effects)%Q.
Proof. intros H. apply fold_multiplier_ge1; [done|lra]. Qed.

Lemma pruneEffects_ok effects tick :
  Forall (fun e => (1 <= Effect.multiplier e)%Q) effects ->
  Forall (fun e => (1 <= Effect.multiplier e)%Q) (pruneEffects effects tick).
Proof.
  intros H. apply Forall_forall. intros e He.
  apply list_elem_of_In, filter_In in He as [He _].
  rewrite Forall_forall in H. by apply H, list_elem_of_In.
Qed.

Lemma snakeOk_prepare state cm s : snakeOk s -> snakeOk (prepareSnake state cm s).
Proof.
  intros (Ha & Hsp & Hacc & Heff & Hseg). unfold snakeOk.
  destruct (prepareSnake_fields state cm s)
    as (_ & -> & -> & -> & -> & -> & _ & _ & -> & _).
  split_and!; try done. by apply pruneEffects_ok.
Qed.

Lemma snakeOk_hasHead s : snakeOk s -> hasHead s.
Proof. intros (_ & _ & _ & _ & h & n & rest & E & _). unfold hasHead. by rewrite E. Qed.

Lemma snakeOk_willMove p :
  snakeOk p ->
  Qle_bool 1 (Snake.accumulator p
              + Snake.speed p * getSpeedMultiplier (Snake.effects p)) = true.
Proof.
  intros (_ & Hsp & Hacc & Heff & _). apply Qle_bool_iff.
  pose proof (getSpeedMultiplier_ge1 _ Heff). rewrite Hsp. lra.
Qed.

Lemma foodOk_effect f t :
  foodOk f -> Food.effect f = Some t -> (1 <= Template.multiplier t)%Q.
Proof.
  intros (d & Hd & _ & _ & He) Ht. rewrite He in Ht.
  unfold foodDefinitions in Hd.
  repeat (apply elem_of_cons in Hd as [->|Hd]); try done.
  - injection Ht as <-. cbn. lra.
  - by apply elem_of_nil in Hd.
Qed.

Lemma foodAt_elem state pos f : foodAt state pos = Some f -> f ∈ State.foods state.
Proof. intros H. apply find_some in H as [H _]. by apply list_elem_of_In. Qed.

Lemma buildSnake_ok id hd d c safeUntil : snakeOk (buildSnake id hd d c safeUntil).
Proof.
  unfold snakeOk, buildSnake. cbn. split_and!; try done; try lra.
  eexists _, _, _. split_and!; [reflexivity|done|].
  unfold nextPosition. destruct hd as [hx hy]. destruct d; cbn; f_equal; lia.
Qed.

(** A snake that is in the next state after it moved: alive, one cell on. *)
Lemma applyMove_ok state safe p pm m :
  snakeOk p -> Forall foodOk (State.foods state) ->
  proposeMove state p = Some pm -> settled safe pm m ->
  Snake.alive (applyMove state m) = true ->
  snakeOk (applyMove state m).
Proof.
  intros Hok Hfoods Hprop Hset Halive.
  pose proof Hok as (Ha & Hsp & Hacc & Heff & h & n & rest & Hseg & Hrest & Hgeo).
  destruct (proposeMove_moving state p h (n :: rest) Ha (snakeOk_willMove p Hok) Hseg)
    as [tk Hpm].
  rewrite Hpm in Hprop. injection Hprop as <-.
  destruct Hset as [->|(r & -> & _)].
  2:{ unfold applyMove in Halive. cbn in Halive. by rewrite Ha in Halive. }
  unfold applyMove. cbn. rewrite Ha. cbn.
  set (d := (maybeTurn p).1). set (food := foodAt state (nextPosition h d)).
  assert (Hacc' : (0 <= Snake.accumulator p
                      + Snake.speed p * getSpeedMultiplier (Snake.effects p) - 1)%Q).
  { pose proof (getSpeedMultiplier_ge1 _ Heff). rewrite Hsp. lra. }
  assert (Heff' : Forall (fun e => (1 <= Effect.multiplier e)%Q)
            match food ≫= Food.effect with
            | Some t =>
                Snake.effects p
                ++ [Effect.mk (Template.type t) (Template.multiplier t)
                      (State.tick state + Template.duration t)]
            | None => Snake.effects p
            end).
  { destruct food as [f|] eqn:Ef; cbn; [|done].
    destruct (Food.effect f) as [t|] eqn:Et; [|done].
    apply Forall_app. split; [done|]. constructor; [|done]. cbn.
    eapply foodOk_effect; [|exact Et].
    rewrite Forall_forall in Hfoods. by eapply Hfoods, foodAt_elem. }
  destruct (bool_decide _); unfold snakeOk; cbn; rewrite Hseg;
    (split_and!; [done|done|done|done|]).
  - by eexists _, _, _.
  - destruct rest as [|t rest']; [done|]. cbn.
    by eexists _, _, _.
Qed.

(** ** The invariant of the reachable states *)

Lemma pickFrom_elem value defs d : pickFrom value defs = Some d -> d ∈ defs.
Proof.
  revert value. induction defs as [|a defs IH]; intros value; cbn; [done|].
  destruct (Qle_bool _ _).
  - intros [= <-]. by left.
  - intros H. right. by eapply IH.
Qed.

Lemma pickFoodDefinition_elem rng : (pickFoodDefinition rng).1 ∈ foodDefinitions.
Proof.
  unfold pickFoodDefinition. destruct (next rng) as [v r].
  change (default speedDefinition (pickFrom (v * totalFoodWeight)%Q foodDefinitions)
          ∈ foodDefinitions).
  destruct (pickFrom _ foodDefinitions) as [d|] eqn:E; cbn [default].
  - by eapply pickFrom_elem.
  - unfold foodDefinitions. do 2 right. by left.
Qed.

Lemma placeFood_ok attempts state ordinal occupied rng f r :
  placeFood attempts state ordinal occupied rng = (Some f, r) -> foodOk f.
Proof.
  revert rng. induction attempts as [|n IH]; intros rng; cbn; [done|].
  destruct (next rng) as [vx r1]. destruct (next r1) as [vy r2].
  case_bool_decide; [apply IH|].
  pose proof (pickFoodDefinition_elem r2) as Hd.
  destruct (pickFoodDefinition r2) as [d r3]. intros [= <- <-].
  by exists d.
Qed.

Lemma fillFoods_ok fuel state foods occupied rng :
  Forall foodOk foods -> Forall foodOk (fillFoods fuel state foods occupied rng).1.
Proof.
  revert foods occupied rng.
  induction fuel as [|n IH]; intros foods occupied rng Hf; cbn; [done|].
  case_bool_decide; [|done].
  destruct (placeFood _ _ _ _ _) as [[food|] r'] eqn:E; cbn; [|done].
  apply IH, Forall_app. split; [done|]. constructor; [|done].
  by eapply placeFood_ok.
Qed.

Lemma replenishFood_ok state rng :
  Forall foodOk (State.foods state) ->
  Forall foodOk (State.foods (replenishFood state rng)).
Proof.
  intros Hf. unfold replenishFood. case_bool_decide; [done|].
  match goal with |- context [fillFoods ?a ?s ?o ?c ?r] =>
    pose proof (fillFoods_ok a s o c r Hf) as Hp;
    destruct (fillFoods a s o c r) as [foods r'] end.
  exact Hp.
Qed.

Lemma foodsAfterEat_ok state moves :
  Forall foodOk (State.foods state) -> Forall foodOk (foodsAfterEat state moves).
Proof.
  intros H. apply Forall_forall. intros f Hf.
  apply list_elem_of_In, filter_In in Hf as [Hf _].
  rewrite Forall_forall in H. by apply H, list_elem_of_In.
Qed.

Lemma foodsAfterEat_length state moves :
  (length (foodsAfterEat state moves) <= length (State.foods state))%nat.
Proof. apply filter_length_le. Qed.

Lemma trySpawn_built state ticket layouts occupied startIndex s :
  trySpawn state ticket layouts occupied startIndex = Some s ->
  exists layout,
    layout ∈ layouts
    /\ s = buildSnake (Ticket.snakeId ticket) (Layout.head layout)
             (Layout.direction layout) (Ticket.controller ticket)
             (State.tick state + 1 + SAFE_RESPAWN_TICKS).
Proof.
  unfold trySpawn. intros H. apply find_some in H as [H _].
  apply list_elem_of_In, list_elem_of_omap in H as (i & _ & H).
  apply fmap_Some in H as (layout & Hl & ->).
  exists layout. split; [|done]. by eapply list_elem_of_lookup_2.
Qed.

Lemma processTicket_respawned (P : Snake.t -> Prop) state layouts acc ticket :
  (forall id layout c,
     P (buildSnake id (Layout.head layout) (Layout.direction layout) c
          (State.tick state + 1 + SAFE_RESPAWN_TICKS))) ->
  Forall P (Respawn.respawnedSnakes acc) ->
  Forall P (Respawn.respawnedSnakes (processTicket state layouts acc ticket)).
Proof.
  intros HP Hacc. unfold processTicket.
  destruct (bool_decide (Ticket.controller ticket <> ai)).
  { by destruct (bool_decide _). }
  destruct (bool_decide (0 < _)); [done|].
  match goal with |- context [let '(_, _) := ?e in _] => destruct e as [[s|] r] eqn:E end;
    cbn; [|done].
  apply Forall_app. split; [done|]. constructor; [|done].
  destruct (bool_decide (0 < length layouts)%nat); [|done].
  destruct (next (Respawn.rng acc)) as [v r']. injection E as E <-.
  apply trySpawn_built in E as (layout & _ & ->). apply HP.
Qed.

Lemma processTickets_respawned (P : Snake.t -> Prop) state layouts queue acc :
  (forall id layout c,
     P (buildSnake id (Layout.head layout) (Layout.direction layout) c
          (State.tick state + 1 + SAFE_RESPAWN_TICKS))) ->
  Forall P (Respawn.respawnedSnakes acc) ->
  Forall P (Respawn.respawnedSnakes
              (fold_left (processTicket state layouts) queue acc)).
Proof.
  intros HP. revert acc. induction queue as [|t queue IH]; intros acc Hacc; cbn; [done|].
  apply IH. by apply processTicket_respawned.
Qed.

Lemma respawnAll_respawned (P : Snake.t -> Prop) state rng moves :
  (forall id layout c,
     P (buildSnake id (Layout.head layout) (Layout.direction layout) c
          (State.tick state + 1 + SAFE_RESPAWN_TICKS))) ->
  Forall P (Respawn.respawnedSnakes (respawnAll state rng moves)).
Proof.
  intros HP. unfold respawnAll. apply processTickets_respawned; [done|].
  cbn. constructor.
Qed.

Lemma finishTick_fields state rng moves :
  State.tick (finishTick state rng moves) = State.tick state + 1
  /\ State.config (finishTick state rng moves) = State.config state
  /\ State.snakes (finishTick state rng moves)
     = List.filter Snake.alive (map (applyMove state) moves)
       ++ Respawn.respawnedSnakes (respawnAll state rng moves).
Proof.
  unfold finishTick. cbn.
  match goal with |- context [replenishFood ?s ?r] =>
    destruct (replenishFood_fields s r) as (-> & -> & _) end.
  done.
Qed.

Lemma finishTick_foods state rng moves :
  (length (State.foods (finishTick state rng moves))
   <= Nat.max MAX_FOOD (length (State.foods state)))%nat
  /\ (Forall foodOk (State.foods state) ->
      Forall foodOk (State.foods (finishTick state rng moves))).
Proof.
  unfold finishTick. cbn.
  match goal with |- context [replenishFood ?s ?r] =>
    pose proof (replenishFood_length s r) as Hl;
    pose proof (replenishFood_ok s r) as Hok end.
  cbn in Hl, Hok. pose proof (foodsAfterEat_length state moves). split; [lia|].
  intros Hf. by apply Hok, foodsAfterEat_ok.
Qed.

Lemma survivors_ok state commands moves rng :
  stateOk state -> tickMoves state commands = Some (moves, rng) ->
  Forall snakeOk (List.filter Snake.alive (map (applyMove state) moves)).
Proof.
  intros (Hs & _ & Hf) Ht. apply tickMoves_spec in Ht as (cm & _ & Hall).
  apply Forall_forall. intros s' Hs'.
  apply list_elem_of_In, filter_In in Hs' as [Hin Halive].
  apply in_map_iff in Hin as (m & <- & Hm).
  apply list_elem_of_In, list_elem_of_lookup in Hm as [i Hi].
  destruct (Forall2_lookup_r _ _ _ _ _ Hall Hi) as (s & Hsi & pm & Hprop & Hset).
  eapply applyMove_ok; [|exact Hf|exact Hprop|exact Hset|exact Halive].
  apply snakeOk_prepare. rewrite Forall_forall in Hs.
  eapply Hs, list_elem_of_lookup_2, Hsi.
Qed.

Lemma finishTick_ok state commands moves rng :
  stateOk state -> tickMoves state commands = Some (moves, rng) ->
  stateOk (finishTick state rng moves).
Proof.
  intros Hok Ht. pose proof Hok as (Hs & Hl & Hf).
  destruct (finishTick_fields state rng moves) as (_ & _ & Hsn).
  destruct (finishTick_foods state rng moves) as (Hlen & Hfood).
  unfold stateOk. rewrite Hsn. split_and!.
  - apply Forall_app. split; [by eapply survivors_ok|].
    apply respawnAll_respawned. intros. apply buildSnake_ok.
  - unfold MAX_FOOD in *. lia.
  - by apply Hfood.
Qed.

Lemma stateOk_hasHead state : stateOk state -> Forall hasHead (State.snakes state).
Proof. intros (Hs & _). eapply Forall_impl; [exact Hs|]. apply snakeOk_hasHead. Qed.

(** On a state that satisfies the invariant the engine does not throw, and
    the next state satisfies the invariant. *)
Lemma advanceState_ok state commands :
  stateOk state ->
  exists state', advanceState state commands = Some state' /\ stateOk state'.
Proof.
  intros Hok. unfold advanceState. case_bool_decide; [eauto|].
  destruct (tickMoves_total state commands (stateOk_hasHead _ Hok)) as [[moves rng] Ht].
  rewrite Ht. cbn. eexists. split; [done|]. by eapply finishTick_ok.
Qed.

Lemma initialAi_ok layouts n : Forall snakeOk (initialAi layouts n).
Proof.
  unfold initialAi. apply Forall_forall. intros s Hs.
  apply list_elem_of_omap in Hs as (i & _ & Hs).
  apply fmap_Some in Hs as (l & _ & ->). apply buildSnake_ok.
Qed.

Lemma createInitialState_ok pc state :
  createInitialState pc = Some state -> stateOk state.
Proof.
  unfold createInitialState. intros H.
  apply bind_Some in H as (layout & _ & H). injection H as <-.
  match goal with |- context [replenishFood ?s ?r] =>
    destruct (replenishFood_fields s r) as (_ & _ & Hsn & _);
    pose proof (replenishFood_length s r) as Hl;
    pose proof (replenishFood_ok s r) as Hf end.
  unfold stateOk. rewrite Hsn. cbn in *. split_and!.
  - constructor; [apply buildSnake_ok|apply initialAi_ok].
  - unfold MAX_FOOD in *. lia.
  - apply Hf. constructor.
Qed.

Lemma reachable_ok state : reachable state -> stateOk state.
Proof.
  induction 1 as [pc state H|state commands state' _ IH H].
  - by eapply createInitialState_ok.
  - destruct (advanceState_ok state commands IH) as (s' & Hs' & Hok). congruence.
Qed.

Lemma advanceAll_reachable state ticks state' :
  reachable state -> advanceAll state ticks = Some state' -> reachable state'.
Proof.
  revert state. induction ticks as [|c ticks IH]; intros state Hr; cbn.
  - by intros [= <-].
  - intros H. apply bind_Some in H as (s1 & H1 & H). eapply IH; [|exact H].
    by eapply reachable_advance.
Qed.

Lemma run_reachable pc ticks state : run pc ticks = Some state -> reachable state.
Proof.
  unfold run. intros H. apply bind_Some in H as (s0 & H0 & H).
  eapply advanceAll_reachable; [|exact H]. by eapply reachable_initial.
Qed.

(** ** Food cap (C7) *)

Lemma advanceState_foods state commands state' :
  advanceState state commands = Some state' ->
  (length (State.foods state') <= Nat.max MAX_FOOD (length (State.foods state)))%nat.
Proof.
  unfold advanceState. case_bool_decide as Hst.
  - intros [= <-]. lia.
  - intros H. apply bind_Some in H as ([moves rng] & _ & H). injection H as <-.
    apply finishTick_foods.
Qed.

(** C7: the food count of every state the engine produces is at most
    MAX_FOOD = 5; on such a state replenishFood and advanceState return at
    most 5 foods, and on any state neither of them raises the count above
    the larger of 5 and what it was. *)
Theorem food_cap (state : State.t) :
  reachable state ->
  MAX_FOOD = 5%nat
  /\ (length (State.foods state) <= MAX_FOOD)%nat
  /\ (forall rng,
        (length (State.foods (replenishFood state rng)) <= MAX_FOOD)%nat)
  /\ (forall commands,
        exists state',
          advanceState state commands = Some state'
          /\ (length (State.foods state') <= MAX_FOOD)%nat)
  /\ (forall (any : State.t) rng,
        (length (State.foods (replenishFood any rng))
         <= Nat.max MAX_FOOD (length (State.foods any)))%nat)
  /\ (forall (any : State.t) commands state',
        advanceState any commands = Some state' ->
        (length (State.foods state')
         <= Nat.max MAX_FOOD (length (State.foods any)))%nat).
Proof.
  intros Hr. pose proof (reachable_ok _ Hr) as Hok.
  pose proof Hok as (_ & Hl & _). split_and!; [done|done| | | |].
  - intros rng. pose proof (replenishFood_length state rng). lia.
  - intros commands.
    destruct (advanceState_ok state commands Hok) as (state' & Hs & (_ & Hl' & _)).
    eauto.
  - intros any rng. apply replenishFood_length.
  - intros any commands state'. apply advanceState_foods.
Qed.

Lemma food_cap_witness :
  exists state,
    createInitialState Partial.empty = Some state
    /\ (length (State.foods state) <= MAX_FOOD)%nat.
Proof.
  eexists. split; [vm_compute; reflexivity|].
  refine (proj1 (proj2 (food_cap _ _))).
  apply (reachable_initial Partial.empty). vm_compute. reflexivity.
Defined.

(** ** No dead agent in a snapshot (C10) *)

Lemma finishTick_alive state rng moves :
  Forall (fun s => Snake.alive s = true) (State.snakes (finishTick state rng moves)).
Proof.
  destruct (finishTick_fields state rng moves) as (_ & _ & ->).
  apply Forall_app. split.
  - apply Forall_forall. intros s Hs.
    by apply list_elem_of_In, filter_In in Hs as [_ Hs].
  - by apply respawnAll_respawned.
Qed.

Lemma advanceState_running_alive state commands state' :
  State.status state = running ->
  advanceState state commands = Some state' ->
  Forall (fun s => Snake.alive s = true) (State.snakes state').
Proof.
  intros Hrun. unfold advanceState.
  rewrite bool_decide_eq_false_2 by (by rewrite Hrun; intros H).
  intros H. apply bind_Some in H as ([moves rng] & _ & H). injection H as <-.
  apply finishTick_alive.
Qed.

(** C10: every snake of a state the engine produces is alive; such a state
    is advanced without an exception, and what advanceState returns from any
    running state has only living snakes: the survivors and the respawned
    ones. *)
Theorem snapshot_agents_alive (state : State.t) :
  reachable state ->
  Forall (fun s => Snake.alive s = true) (State.snakes state)
  /\ (forall commands,
        exists state',
          advanceState state commands = Some state'
          /\ Forall (fun s => Snake.alive s = true) (State.snakes state'))
  /\ (forall (any : State.t) commands state',
        State.status any = running ->
        advanceState any commands = Some state' ->
        Forall (fun s => Snake.alive s = true) (State.snakes state')).
Proof.
  intros Hr. pose proof (reachable_ok _ Hr) as Hok.
  assert (Halive : forall st, stateOk st ->
            Forall (fun s => Snake.alive s = true) (State.snakes st)).
  { intros st (Hs & _). eapply Forall_impl; [exact Hs|]. by intros s (Ha & _). }
  split; [by apply Halive|]. split.
  - intros commands.
    destruct (advanceState_ok state commands Hok) as (state' & Hs & Hok').
    exists state'. split; [done|by apply Halive].
  - intros any commands state'. apply advanceState_running_alive.
Qed.

Lemma snapshot_agents_alive_witness :
  exists state,
    createInitialState Partial.empty = Some state
    /\ Forall (fun s => Snake.alive s = true) (State.snakes state).
Proof.
  eexists. split; [vm_compute; reflexivity|].
  refine (proj1 (snapshot_agents_alive _ _)).
  apply (reachable_initial Partial.empty). vm_compute. reflexivity.
Defined.

(** ** Determinism (C3) *)

Lemma statesFrom_prefix state n ticks1 ticks2 :
  take n ticks1 = take n ticks2 ->
  take (S n) (statesFrom state ticks1) = take (S n) (statesFrom state ticks2).
Proof.
  revert state ticks1 ticks2. induction n as [|n IH]; intros state t1 t2 H.
  - by destruct t1, t2.
  - destruct t1 as [|c1 t1], t2 as [|c2 t2]; try done.
    cbn in H. injection H as -> H.
    cbn [statesFrom]. rewrite !(firstn_cons (S n)). f_equal.
    destruct (advanceState state c2); [by apply IH|done].
Qed.

Lemma statesFrom_length state ticks :
  stateOk state -> length (statesFrom state ticks) = S (length ticks).
Proof.
  revert state. induction ticks as [|c ticks IH]; intros state Hok; cbn; [done|].
  destruct (advanceState_ok state c Hok) as (state' & -> & Hok').
  by rewrite IH.
Qed.

(** C3: the run is a function of the config and of the command sequence.
    Two runs from the same config whose command sequences agree on the first
    [n] ticks go through the same states (every field of them) up to tick
    [n]; and a run yields a state for every tick. *)
Theorem deterministic_run (partialConfig : Partial.t) (n : nat)
    (ticks1 ticks2 : list (list Command.t)) :
  take n ticks1 = take n ticks2 ->
  take (S n) (trace partialConfig ticks1) = take (S n) (trace partialConfig ticks2)
  /\ length (trace partialConfig ticks1) = S (length ticks1)
  /\ length (trace partialConfig ticks2) = S (length ticks2).
Proof.
  intros H. unfold trace.
  destruct (createInitialState_total partialConfig) as (state & Hs & _).
  rewrite Hs. pose proof (createInitialState_ok _ _ Hs) as Hok.
  split_and!; [by apply statesFrom_prefix|by apply statesFrom_length..].
Qed.

Lemma deterministic_run_witness :
  take 2 (trace Partial.empty [[]; [Command.mk "player" Down]])
  = take 2 (trace Partial.empty [[]; [Command.mk "player" Up]; []]).
Proof.
  refine (proj1 (deterministic_run Partial.empty 1 _ _ _)). reflexivity.
Defined.

(** ** No reversal (C5) *)

Lemma nextPosition_back n a d :
  nextPosition (nextPosition n a) d = n -> d = opposite a.
Proof.
  destruct n as [nx ny]. unfold nextPosition. cbn.
  destruct a, d; cbn; intros [= ? ?]; try done; lia.
Qed.

(** C5: in every state the engine produces, the direction stored with an
    agent is the direction of the step that put its head where it is (the
    head is the neck moved by it; a move that is not collided stores its
    direction).  On every tick every agent moves, and the direction of the
    move is not the opposite of the stored one, so the new head is never the
    neck; a command to reverse is ignored by applyInput. *)
Theorem no_reversal (state : State.t) (commands : list Command.t) :
  reachable state ->
  exists moves rng,
    tickMoves state commands = Some (moves, rng)
    /\ Forall2
         (fun s m =>
            Move.willMove m = true
            /\ Move.direction m <> opposite (Snake.direction s)
            /\ applyInput s (opposite (Snake.direction s)) = s
            /\ (Move.collided m = false ->
                Snake.direction (applyMove state m) = Move.direction m)
            /\ exists h n rest,
                 Snake.segments s = h :: n :: rest
                 /\ h = nextPosition n (Snake.direction s)
                 /\ Move.nextHead m = Some (nextPosition h (Move.direction m))
                 /\ nextPosition h (Move.direction m) <> n)
         (State.snakes state) moves.
Proof.
  intros Hr. pose proof (reachable_ok _ Hr) as Hok.
  destruct (tickMoves_total state commands (stateOk_hasHead _ Hok)) as [[moves rng] Ht].
  exists moves, rng. split; [done|].
  apply tickMoves_spec in Ht as (cm & _ & Hall).
  destruct Hok as (Hs & _).
  apply Forall2_same_length_lookup. split; [by eapply Forall2_length|].
  intros i s m Hsi Hmi.
  destruct (Forall2_lookup_l _ _ _ _ _ Hall Hsi) as (m0 & Hm0 & pm & Hprop & Hset).
  assert (m0 = m) as -> by congruence.
  assert (Hsok : snakeOk s).
  { rewrite Forall_forall in Hs. eapply Hs, list_elem_of_lookup_2, Hsi. }
  pose proof (snakeOk_prepare state cm s Hsok) as Hpok.
  pose proof Hsok as (_ & _ & _ & _ & h & n & rest & Hseg & _ & Hgeo).
  destruct (prepareSnake_fields state cm s) as (_ & Eseg & Edir & _).
  pose proof Hpok as (Ha & _).
  rewrite <- Eseg in Hseg.
  destruct (proposeMove_moving state _ h (n :: rest) Ha (snakeOk_willMove _ Hpok) Hseg)
    as [tk Hpm].
  rewrite Hpm in Hprop. injection Hprop as <-.
  pose proof (maybeTurn_not_opposite (prepareSnake state cm s)) as Hno.
  rewrite Edir in Hno. rewrite Eseg in Hseg.
  assert (Hfields : Move.willMove m = true
            /\ Move.direction m = (maybeTurn (prepareSnake state cm s)).1
            /\ Move.nextHead m
               = Some (nextPosition h (maybeTurn (prepareSnake state cm s)).1)).
  { by destruct Hset as [->|(r & -> & _)]. }
  assert (Hstored : Move.collided m = false ->
            Snake.direction (applyMove state m) = Move.direction m).
  { intros Hc. destruct Hset as [->|(r & -> & _)]; [|done].
    unfold applyMove. cbn. rewrite Ha. cbn. by destruct (bool_decide _). }
  destruct Hfields as (Hw & Hd & Hn). rewrite Hd in *.
  split_and!; try done.
  - unfold applyInput. by rewrite decide_True.
  - exists h, n, rest. split_and!; try done.
    intros Hback. rewrite Hgeo in Hback. by apply nextPosition_back in Hback.
Qed.

Lemma no_reversal_witness :
  exists state moves rng,
    createInitialState Partial.empty = Some state
    /\ tickMoves state [Command.mk "player" Left] = Some (moves, rng)
    /\ Forall2
         (fun s m => Move.direction m <> opposite (Snake.direction s))
         (State.snakes state) moves.
Proof.
  eexists.
  destruct (no_reversal
              (default contest553 (createInitialState Partial.empty))
              [Command.mk "player" Left]) as (moves & rng & Ht & Hall).
  { apply (reachable_initial Partial.empty). vm_compute. reflexivity. }
  exists moves, rng. split; [vm_compute; reflexivity|]. split; [exact Ht|].
  eapply Forall2_impl; [exact Hall|]. intros s m H. apply H.
Defined.

(** ** Growth (C8) *)

Lemma foodOk_standard f :
  foodOk f -> Food.kind f = standard -> Food.growth f = 1.
Proof.
  intros (d & Hd & Hk & Hg & _) Hs. rewrite Hg. rewrite Hs in Hk.
  unfold foodDefinitions in Hd.
  repeat (apply elem_of_cons in Hd as [->|Hd]); try done.
  by apply elem_of_nil in Hd.
Qed.

Lemma removelast_length {A} (a : A) (l : list A) :
  length (removelast (a :: l)) = length l.
Proof.
  revert a. induction l as [|b l IH]; intros a; [done|].
  change (removelast (a :: b :: l)) with (a :: removelast (b :: l)).
  cbn [length]. by rewrite IH.
Qed.

Lemma advanceState_running state commands moves rng :
  State.status state = running ->
  tickMoves state commands = Some (moves, rng) ->
  advanceState state commands = Some (finishTick state rng moves).
Proof.
  intros Hs Ht. unfold advanceState.
  rewrite bool_decide_eq_false_2 by (by rewrite Hs; intros H).
  by rewrite Ht.
Qed.

Lemma survivor_elem state rng moves m :
  m ∈ moves -> Snake.alive (applyMove state m) = true ->
  applyMove state m ∈ State.snakes (finishTick state rng moves).
Proof.
  intros Hm Ha. destruct (finishTick_fields state rng moves) as (_ & _ & ->).
  apply elem_of_app. left. apply list_elem_of_In, filter_In. split; [|done].
  apply in_map. by apply list_elem_of_In.
Qed.

(** C8: in a running state the engine produced, an agent with no pending
    growth whose move is not collided is in the next state one cell on.  If
    the food the engine finds on the cell it enters is a `standard` food
    (growth 1), then after this tick its segment count is one more than
    before and the pending growth is consumed (0 again), so that later ticks
    add nothing for this food; if there is no food on that cell, the count
    is unchanged. *)
Theorem growth_by_one (state : State.t) (commands : list Command.t) :
  reachable state ->
  State.status state = running ->
  exists moves rng state',
    tickMoves state commands = Some (moves, rng)
    /\ advanceState state commands = Some state'
    /\ Forall2
         (fun s m =>
            Snake.pendingGrowth s = 0 ->
            Move.collided m = false ->
            exists h,
              Snake.segments s !! 0%nat = Some h
              /\ Move.nextHead m = Some (nextPosition h (Move.direction m))
              /\ applyMove state m ∈ State.snakes state'
              /\ Snake.id (applyMove state m) = Snake.id s
              /\ match foodAt state (nextPosition h (Move.direction m)) with
                 | Some f =>
                     Food.kind f = standard ->
                     length (Snake.segments (applyMove state m))
                     = S (length (Snake.segments s))
                     /\ Snake.pendingGrowth (applyMove state m) = 0
                 | None =>
                     length (Snake.segments (applyMove state m))
                     = length (Snake.segments s)
                     /\ Snake.pendingGrowth (applyMove state m) = 0
                 end)
         (State.snakes state) moves.
Proof.
  intros Hr Hrun. pose proof (reachable_ok _ Hr) as Hok.
  destruct (tickMoves_total state commands (stateOk_hasHead _ Hok)) as [[moves rng] Ht].
  exists moves, rng, (finishTick state rng moves).
  split; [done|]. split; [by apply advanceState_running|].
  pose proof Ht as Ht'. apply tickMoves_spec in Ht' as (cm & _ & Hall).
  destruct Hok as (Hs & _ & Hfoods).
  apply Forall2_same_length_lookup. split; [by eapply Forall2_length|].
  intros i s m Hsi Hmi Hpg Hcol.
  destruct (Forall2_lookup_l _ _ _ _ _ Hall Hsi) as (m0 & Hm0 & pm & Hprop & Hset).
  assert (m0 = m) as -> by congruence.
  assert (Hsok : snakeOk s).
  { rewrite Forall_forall in Hs. eapply Hs, list_elem_of_lookup_2, Hsi. }
  pose proof (snakeOk_prepare state cm s Hsok) as Hpok.
  pose proof Hsok as (_ & _ & _ & _ & h & n & rest & Hseg & _ & _).
  destruct (prepareSnake_fields state cm s)
    as (Eid & Eseg & _ & _ & _ & _ & _ & Epg & _).
  pose proof Hpok as (Ha & _).
  set (p := prepareSnake state cm s) in *.
  assert (Hsegp : Snake.segments p = h :: n :: rest) by congruence.
  destruct (proposeMove_moving state p h (n :: rest) Ha (snakeOk_willMove _ Hpok) Hsegp)
    as [tk Hpm].
  rewrite Hpm in Hprop. injection Hprop as <-.
  destruct Hset as [->|(r & -> & _)]; [|done].
  exists h. rewrite Hseg. split; [done|]. split; [done|].
  assert (Halive : Snake.alive (applyMove state
            (Move.mk p true (maybeTurn p).1 (Some (nextPosition h (maybeTurn p).1))
               match foodAt state (nextPosition h (maybeTurn p).1) with
               | Some f => Food.growth f
               | None => 0
               end
               (Food.id <$> foodAt state (nextPosition h (maybeTurn p).1))
               (foodAt state (nextPosition h (maybeTurn p).1) ≫= Food.effect)
               (Snake.accumulator p
                + Snake.speed p * getSpeedMultiplier (Snake.effects p) - 1)%Q
               (maybeTurn p).2 false None tk)) = true).
  { unfold applyMove. cbn. rewrite Ha. cbn. by destruct (bool_decide _). }
  split; [apply survivor_elem; [by eapply list_elem_of_lookup_2|done]|].
  unfold applyMove. cbn [Move.snake Move.willMove Move.collided Move.nextHead
    Move.growth Move.direction]. rewrite Ha, Hsegp, Epg, Hpg. cbn [negb].
  destruct (foodAt state (nextPosition h (maybeTurn p).1)) as [f|] eqn:Ef.
  - split.
    { by destruct (bool_decide _). }
    intros Hk.
    assert (Hg : Food.growth f = 1).
    { apply foodOk_standard; [|done]. rewrite Forall_forall in Hfoods.
      by eapply Hfoods, foodAt_elem. }
    rewrite Hg. by cbn.
  - split; [done|]. cbn [bool_decide]. 
    rewrite bool_decide_eq_false_2 by lia. cbn [Snake.segments Snake.pendingGrowth].
    by rewrite removelast_length.
Qed.

Lemma growth_by_one_witness :
  exists s state' s',
    State.snakes beforeEating !! 0%nat = Some s
    /\ advanceState beforeEating [] = Some state'
    /\ s' ∈ State.snakes state'
    /\ Snake.id s' = Snake.id s
    /\ length (Snake.segments s') = S (length (Snake.segments s)).
Proof.
  destruct (growth_by_one beforeEating []) as (moves & rng & state' & Ht & Ha & Hall).
  - apply (run_reachable soloConfig
             [[]; [Command.mk "player" Down]; []; []; []; []]).
    vm_compute. reflexivity.
  - vm_compute. reflexivity.
  - destruct (State.snakes beforeEating) as [|s rest] eqn:Es; [by vm_compute in Es|].
    destruct moves as [|m moves']; [by apply Forall2_length in Hall|].
    apply Forall2_cons_1 in Hall as [H0 _].
    assert (Em : Some (m :: moves', rng) = tickMoves beforeEating []) by done.
    vm_compute in Em. injection Em as -> _ _.
    vm_compute in Es. injection Es as <- _.
    destruct H0 as (h & Hh & _ & Hin & Hid & Hfood); [reflexivity..|].
    vm_compute in Hh. injection Hh as <-.
    eexists _, state', _. split; [reflexivity|]. split; [exact Ha|].
    split; [exact Hin|]. split; [exact Hid|].
    vm_compute in Hfood. vm_compute. apply Hfood. reflexivity.
Defined.

(** ** Agents that do not move (C6) *)

Lemma proposeMove64_snake state s pm :
  proposeMove64 state s = Some pm -> Move.snake pm = s.
Proof.
  unfold proposeMove64. destruct (Snake.alive s); cbn.
  - destruct (maybeTurn s) as [d pt].
    destruct (F64.toQ _) as [a|]; cbn; [|done].
    destruct (F64.leb _ _); cbn.
    + destruct (Snake.segments s !! 0%nat); cbn; [|done].
      destruct (last (Snake.segments s)); cbn; [|done]. by intros [= <-].
    + by intros [= <-].
  - by intros [= <-].
Qed.

Lemma prepared_accumulated state cm s :
  let p := prepareSnake state cm s in
  F64.add (F64.ofQ (Snake.accumulator p))
          (F64.mul (F64.ofQ (Snake.speed p)) (getSpeedMultiplier64 (Snake.effects p)))
  = accumulated64 state s.
Proof.
  intros p. subst p. unfold accumulated64.
  destruct (prepareSnake_fields state cm s)
    as (_ & _ & _ & _ & Esp & Eacc & _ & _ & Eeff & _).
  by rewrite Esp, Eacc, Eeff.
Qed.

Lemma proposeMove64_total state cm s :
  hasHead s -> finiteSpeed state s ->
  is_Some (proposeMove64 state (prepareSnake state cm s)).
Proof.
  intros Hh [a Ha]. unfold proposeMove64.
  destruct (Snake.alive (prepareSnake state cm s)); cbn; [|done].
  destruct (maybeTurn _) as [d pt].
  rewrite (prepared_accumulated state cm s). rewrite Ha. cbn.
  destruct (F64.leb _ _); cbn; [|done].
  destruct (prepareSnake_fields state cm s) as (_ & -> & _).
  unfold hasHead in Hh. destruct (Snake.segments s) as [|h t] eqn:E; [done|]. cbn.
  destruct (last_is_Some (h :: t)) as [_ [tl ->]]; done.
Qed.

Lemma proposeMove64_idle state cm s a :
  Snake.alive s = true ->
  F64.leb (F64.ofZ 1) (accumulated64 state s) = false ->
  F64.toQ (accumulated64 state s) = Some a ->
  let p := prepareSnake state cm s in
  proposeMove64 state p
  = Some (Move.mk p false (maybeTurn p).1 None 0 None None a
            (maybeTurn p).2 false None None).
Proof.
  intros Hal Hle Ha p. unfold proposeMove64.
  destruct (prepareSnake_fields state cm s) as (_ & _ & _ & Eal & _).
  fold p in Eal. rewrite Eal, Hal. cbn.
  destruct (maybeTurn p) as [d pt].
  unfold p. rewrite (prepared_accumulated state cm s), Hle, Ha. done.
Qed.

(** The moves of a tick in binary64: one per snake of the state, in order,
    each the move proposed for the prepared snake up to a collision. *)
Lemma tickMoves64_spec state commands moves rng :
  tickMoves64 state commands = Some (moves, rng) ->
  exists cm,
    commandsOfTick state commands = Some (cm, rng)
    /\ Forall2
      (fun s m =>
         exists pm,
           proposeMove64 state (prepareSnake state cm s) = Some pm
           /\ settled (buildSafeLookup (State.tick state)
                         (map (prepareSnake state cm) (State.snakes state))) pm m)
      (State.snakes state) moves.
Proof.
  unfold tickMoves64, checkedMoves64. intros H.
  apply bind_Some in H as ([[checked safe] rng'] & Hc & H).
  injection H as <- <-.
  apply bind_Some in Hc as ([cm rng0] & Hb & Hc).
  apply bind_Some in Hc as (proposed & Hp & Hc).
  apply bind_Some in Hc as (chk & Hc & H).
  injection H as <- <- <-. exists cm. split; [exact Hb|].
  apply mapM_Some_1 in Hp, Hc. apply Forall2_fmap_l in Hp.
  set (safe := buildSafeLookup _ _) in *.
  apply Forall2_same_length_lookup. split.
  { rewrite resolveHeadCollisions_length.
    by rewrite (Forall2_length _ _ _ Hp), (Forall2_length _ _ _ Hc). }
  intros i s f Hs Hf.
  destruct (Forall2_lookup_l _ _ _ _ _ Hp Hs) as (pm & Hpm & Hprop).
  destruct (Forall2_lookup_l _ _ _ _ _ Hc Hpm) as (m & Hm & Hchk).
  exists pm. split; [exact Hprop|].
  apply checkMove_cases in Hchk.
  destruct (resolve_settled _ _ _ _ _ Hm Hf) as [->|(-> & Hcm & Hwm & Hsafe)].
  - destruct Hchk as [->|[(-> & ? & ?)|(-> & ? & ? & ?)]].
    + by left.
    + right. exists wall. split_and!; auto.
    + right. exists body. split_and!; auto.
  - destruct Hchk as [->|[(-> & ? & ?)|(-> & ? & ? & ?)]]; [|done..].
    right. exists head. split_and!; auto.
Qed.

Lemma tickMoves64_total state commands :
  Forall hasHead (State.snakes state) ->
  Forall (finiteSpeed state) (State.snakes state) ->
  is_Some (tickMoves64 state commands).
Proof.
  intros Hh Hfin. unfold tickMoves64, checkedMoves64.
  destruct (backfillAi_total state (buildOccupancy (State.snakes state))
              (State.snakes state) (buildCommandMap commands)
              (createRng (State.rngState state)) Hh) as [[cm rng] ->].
  cbn.
  assert (Hprep : Forall hasHead (map (prepareSnake state cm) (State.snakes state))).
  { apply Forall_fmap. eapply Forall_impl; [exact Hh|]. intros s Hs.
    unfold hasHead, compose. by destruct (prepareSnake_fields state cm s) as (_ & -> & _). }
  destruct (mapM (proposeMove64 state) (map (prepareSnake state cm) (State.snakes state)))
    as [proposed|] eqn:Hp.
  2:{ exfalso. apply eq_None_not_Some in Hp. apply Hp.
      apply mapM_is_Some. apply Forall_fmap. apply Forall_forall. intros s Hs.
      rewrite Forall_forall in Hh, Hfin.
      apply proposeMove64_total; auto. }
  cbn.
  match goal with |- context [mapM ?f proposed] =>
    destruct (mapM f proposed) as [checked|] eqn:Hc end; [by cbn|].
  exfalso. apply eq_None_not_Some in Hc. apply Hc. apply mapM_is_Some.
  apply mapM_Some_1 in Hp.
  apply Forall_forall. intros pm Hpm.
  apply list_elem_of_lookup in Hpm as [i Hi].
  destruct (Forall2_lookup_r _ _ _ _ _ Hp Hi) as (s & Hs & Hprop).
  apply checkMove_total.
  - rewrite (proposeMove64_snake _ _ _ Hprop).
    rewrite Forall_forall in Hprep. apply Hprep. eapply list_elem_of_lookup_2, Hs.
  - intros k o Ho. apply buildSnakeLookup_elem in Ho.
    rewrite Forall_forall in Hprep. by apply Hprep.
Qed.

Lemma advanceState64_running state commands moves rng :
  State.status state = running ->
  tickMoves64 state commands = Some (moves, rng) ->
  advanceState64 state commands = Some (finishTick state rng moves).
Proof.
  intros Hs Ht. unfold advanceState64.
  rewrite bool_decide_eq_false_2 by (by rewrite Hs; intros H).
  by rewrite Ht.
Qed.

(** C6, as amended: a living agent that does not move in a tick is in the
    next state with id, segments, alive, speed, controller, pendingGrowth and
    safeUntilTick unchanged; its accumulator is the sum the tick computed,
    its effects are the unexpired ones, and its direction and pendingTurn
    are those maybeTurn gives for the agent once the command of the tick is
    queued: a pending turn is applied although the agent does not move.
    The agent does not move when accumulator + speed * multiplier (over its
    unexpired effects) is not >= 1 as the code computes it, in binary64;
    the tick is [advanceState64], and it returns a state when every
    accumulator it computes is a finite number. *)
Theorem idle_agent (state : State.t) (commands : list Command.t) (i : nat)
    (s : Snake.t) :
  State.status state = running ->
  Forall hasHead (State.snakes state) ->
  Forall (finiteSpeed state) (State.snakes state) ->
  State.snakes state !! i = Some s ->
  Snake.alive s = true ->
  F64.leb (F64.ofZ 1) (accumulated64 state s) = false ->
  exists cm rng state' accumulator,
    commandsOfTick state commands = Some (cm, rng)
    /\ advanceState64 state commands = Some state'
    /\ F64.toQ (accumulated64 state s) = Some accumulator
    /\ Snake.mk (Snake.id s) (Snake.segments s)
         (maybeTurn (prepareSnake state cm s)).1 true
         (maybeTurn (prepareSnake state cm s)).2 (Snake.speed s)
         accumulator
         (Snake.controller s) (Snake.pendingGrowth s)
         (pruneEffects (Snake.effects s) (State.tick state))
         (Snake.safeUntilTick s)
       ∈ State.snakes state'.
Proof.
  intros Hrun Hh Hfin Hsi Ha Hidle.
  destruct (tickMoves64_total state commands Hh Hfin) as [[moves rng] Ht].
  pose proof Ht as Ht'. apply tickMoves64_spec in Ht' as (cm & Hcm & Hall).
  assert (Hacc : exists a, F64.toQ (accumulated64 state s) = Some a).
  { rewrite Forall_forall in Hfin.
    pose proof (Hfin s (list_elem_of_lookup_2 _ _ _ Hsi)) as Hs.
    unfold finiteSpeed in Hs. cbn zeta in Hs. rewrite Hidle in Hs.
    destruct Hs as [a Hs]. by exists a. }
  destruct Hacc as [a Hacc].
  exists cm, rng, (finishTick state rng moves), a.
  split; [done|]. split; [by apply advanceState64_running|]. split; [done|].
  destruct (Forall2_lookup_l _ _ _ _ _ Hall Hsi) as (m & Hm & pm & Hprop & Hset).
  destruct (prepareSnake_fields state cm s)
    as (Eid & Eseg & Edir & Eal & Esp & Eacc & Ectl & Epg & Eeff & Esafe).
  rewrite (proposeMove64_idle state cm s a Ha Hidle Hacc) in Hprop.
  set (p := prepareSnake state cm s) in *.
  injection Hprop as <-.
  destruct Hset as [->|(r & _ & _ & Hw & _)]; [|done].
  match goal with |- ?x ∈ _ =>
    assert (Happ : applyMove state
      (Move.mk p false (maybeTurn p).1 None 0 None None a
         (maybeTurn p).2 false None None) = x) end.
  { unfold applyMove. cbn. rewrite Eal, Ha. cbn.
    by rewrite Eid, Eseg, Esp, Ectl, Epg, Eeff, Esafe. }
  rewrite <- Happ. apply survivor_elem; [by eapply list_elem_of_lookup_2|].
  by rewrite Happ.
Qed.

Lemma idle_agent_witness :
  exists state' s',
    advanceState64 (gateState (1 # 10) (2026619832316723 # 2251799813685248))
      [Command.mk "player" Up] = Some state'
    /\ s' ∈ State.snakes state'
    /\ Snake.segments s' = [mkVec2 5 5; mkVec2 4 5; mkVec2 3 5]
    /\ Snake.accumulator s' = (9007199254740991 # 9007199254740992)%Q
    /\ Snake.pendingGrowth s' = 0
    /\ Snake.effects s' = [].
Proof.
  destruct (idle_agent (gateState (1 # 10) (2026619832316723 # 2251799813685248))
              [Command.mk "player" Up] 0
              (Snake.mk "player" [mkVec2 5 5; mkVec2 4 5; mkVec2 3 5] Right true
                 None (1 # 10) (2026619832316723 # 2251799813685248) player 0
                 [Effect.mk speedBoost (16 # 10) 0] 0))
    as (cm & rng & state' & a & Hcm & Ha & Hacc & Hin).
  - reflexivity.
  - repeat constructor. done.
  - repeat constructor. vm_compute. eauto.
  - reflexivity.
  - reflexivity.
  - vm_compute. reflexivity.
  - vm_compute in Hacc. injection Hacc as <-.
    eexists state', _. split; [exact Ha|]. split; [exact Hin|].
    split; [reflexivity|]. split; [reflexivity|]. split; reflexivity.
Defined.

(** Where rounding decides.  Ten ticks at speed 0.1 leave the accumulator
    at 0.9999999999999999 and the agent where it was (the witness above is
    the tenth of them), and the sum of 0.7 and 0.3 is 1: the agent moves. *)
Example rounded_speeds :
  (fun state => map (fun s => (Snake.segments s, Snake.accumulator s))
                    (State.snakes state))
    <$> advanceAll64 (gateState (1 # 10) 0) (replicate 10 [])
  = Some [([mkVec2 5 5; mkVec2 4 5; mkVec2 3 5],
           (9007199254740991 # 9007199254740992)%Q)]
  /\ (fun state => map (fun s => (Snake.segments s, Snake.accumulator s))
                       (State.snakes state))
       <$> advanceState64 (gateState (3 # 10) (7 # 10)) []
     = Some [([mkVec2 6 5; mkVec2 5 5; mkVec2 4 5], 0%Q)].
Proof. split; vm_compute; reflexivity. Qed.

(** On the agent of the run below no sum is rounded: the two ticks give
    the same state. *)
Example exact_speeds :
  advanceState64 slowState [Command.mk "player" Up]
  = advanceState slowState [Command.mk "player" Up].
Proof. vm_compute. reflexivity. Qed.

(** C6 as stated fails: the agent below does not move (speed 1/2), and in
    the next state its direction has changed from Right to Up and its expired
    effect is gone. *)
Lemma idle_turn_applied :
  exists s state',
    State.snakes slowState = [s]
    /\ Snake.alive s = true
    /\ (Snake.accumulator s
        + Snake.speed s
          * getSpeedMultiplier (pruneEffects (Snake.effects s) (State.tick slowState))
        < 1)%Q
    /\ advanceState slowState [Command.mk "player" Up] = Some state'
    /\ forall s', s' ∈ State.snakes state' ->
         Snake.segments s' = Snake.segments s
         /\ Snake.direction s' <> Snake.direction s
         /\ Snake.effects s' <> Snake.effects s.
Proof.
  eexists _, _. split; [reflexivity|]. split; [reflexivity|].
  split; [vm_compute; reflexivity|]. split; [vm_compute; reflexivity|].
  intros s' Hs'. apply list_elem_of_singleton in Hs' as ->. by vm_compute.
Qed.

(** ** Agent ids are distinct *)

Lemma applyMove_id state m : Snake.id (applyMove state m) = Snake.id (Move.snake m).
Proof.
  unfold applyMove. destruct (negb (Snake.alive _)); [done|].
  destruct (negb (Move.willMove m)); [done|].
  destruct (Move.collided m); [done|].
  by destruct (bool_decide _).
Qed.

(** A move leaves its snake in the next state or makes a ticket, not both. *)
Lemma survivors_tickets_ids state moves :
  map Snake.id (List.filter Snake.alive (map (applyMove state) moves))
  ++ map Ticket.snakeId (respawnTicketsToAdd moves)
  ⊆+ map (fun m => Snake.id (Move.snake m)) moves.
Proof.
  unfold respawnTicketsToAdd. induction moves as [|m moves IH]; [done|].
  cbn [map List.filter omap list_omap].
  destruct (Snake.alive (applyMove state m)) eqn:Ea.
  - assert (Ht : ticketOf m = None).
    { unfold ticketOf. unfold applyMove in Ea.
      destruct (Snake.alive (Move.snake m)) eqn:E1; cbn; [|done].
      destruct (Move.willMove m); cbn in *; [|done].
      destruct (Move.collided m); cbn in *; [done|done]. }
    rewrite Ht. cbn [map app]. rewrite applyMove_id. by apply submseteq_skip.
  - destruct (ticketOf m) as [t|] eqn:Et.
    + cbn [map]. rewrite <- Permutation_middle.
      assert (Ticket.snakeId t = Snake.id (Move.snake m)) as ->.
      { unfold ticketOf in Et. destruct (_ && _); [|done]. by injection Et as <-. }
      by apply submseteq_skip.
    + by apply submseteq_cons.
Qed.

Lemma processTicket_ids state layouts acc ticket :
  map Snake.id (Respawn.respawnedSnakes (processTicket state layouts acc ticket))
  ++ map Ticket.snakeId (Respawn.updatedQueue (processTicket state layouts acc ticket))
  ⊆+ (map Snake.id (Respawn.respawnedSnakes acc)
      ++ map Ticket.snakeId (Respawn.updatedQueue acc))
     ++ [Ticket.snakeId ticket].
Proof.
  assert (Hkeep : forall n,
    map Snake.id (Respawn.respawnedSnakes acc)
    ++ map Ticket.snakeId (Respawn.updatedQueue acc ++ [withTicks ticket n])
    ⊆+ (map Snake.id (Respawn.respawnedSnakes acc)
        ++ map Ticket.snakeId (Respawn.updatedQueue acc))
       ++ [Ticket.snakeId ticket]).
  { intros n. rewrite map_app. cbn. by rewrite app_assoc. }
  unfold processTicket.
  destruct (bool_decide (Ticket.controller ticket <> ai)).
  { destruct (bool_decide _); cbn [Respawn.respawnedSnakes Respawn.updatedQueue].
    - apply Hkeep.
    - by apply submseteq_inserts_r. }
  destruct (bool_decide (0 < _)); cbn [Respawn.respawnedSnakes Respawn.updatedQueue].
  { apply Hkeep. }
  match goal with |- context [let '(_, _) := ?e in _] => destruct e as [[s|] r] eqn:E end;
    cbn [Respawn.respawnedSnakes Respawn.updatedQueue]; [|apply Hkeep].
  assert (Snake.id s = Ticket.snakeId ticket) as Hid.
  { destruct (bool_decide (0 < length layouts)%nat); [|done].
    destruct (next (Respawn.rng acc)) as [v r']. injection E as E <-.
    by apply trySpawn_built in E as (layout & _ & ->). }
  rewrite map_app. cbn [map]. rewrite Hid.
  rewrite <- !app_assoc. apply submseteq_skips_l.
  cbn. by rewrite <- Permutation_cons_append.
Qed.

Lemma processTickets_ids state layouts queue acc :
  map Snake.id (Respawn.respawnedSnakes (fold_left (processTicket state layouts) queue acc))
  ++ map Ticket.snakeId
       (Respawn.updatedQueue (fold_left (processTicket state layouts) queue acc))
  ⊆+ (map Snake.id (Respawn.respawnedSnakes acc)
      ++ map Ticket.snakeId (Respawn.updatedQueue acc))
     ++ map Ticket.snakeId queue.
Proof.
  revert acc. induction queue as [|t queue IH]; intros acc; cbn [fold_left map].
  - by rewrite app_nil_r.
  - etrans; [apply IH|].
    rewrite (cons_middle (Ticket.snakeId t)), app_assoc.
    apply submseteq_skips_r, processTicket_ids.
Qed.

Lemma submseteq_NoDup {A} (l k : list A) : l ⊆+ k -> NoDup k -> NoDup l.
Proof.
  intros [k' Hk]%submseteq_Permutation Hnd. rewrite Hk in Hnd.
  by apply NoDup_app in Hnd as (? & _).
Qed.

Lemma settled_snake safe pm m : settled safe pm m -> Move.snake m = Move.snake pm.
Proof. by intros [->|(r & -> & _)]. Qed.

Lemma tickMoves_ids state commands moves rng :
  tickMoves state commands = Some (moves, rng) ->
  map (fun m => Snake.id (Move.snake m)) moves = map Snake.id (State.snakes state).
Proof.
  intros Ht. apply tickMoves_spec in Ht as (cm & _ & Hall).
  induction Hall as [|s m snakes moves (pm & Hp & Hs) _ IH]; [done|].
  cbn. rewrite IH. f_equal.
  rewrite (settled_snake _ _ _ Hs), (proposeMove_snake _ _ _ Hp).
  by destruct (prepareSnake_fields state cm s) as (-> & _).
Qed.

Lemma finishTick_queue state rng moves :
  State.respawnQueue (finishTick state rng moves)
  = Respawn.updatedQueue (respawnAll state rng moves).
Proof. reflexivity. Qed.

Lemma finishTick_idsOk state commands moves rng :
  idsOk state -> tickMoves state commands = Some (moves, rng) ->
  idsOk (finishTick state rng moves).
Proof.
  unfold idsOk. intros Hnd Ht.
  destruct (finishTick_fields state rng moves) as (_ & _ & ->).
  rewrite finishTick_queue. eapply submseteq_NoDup; [|exact Hnd].
  rewrite map_app, <- app_assoc.
  etrans.
  { apply submseteq_skips_l. unfold respawnAll. apply processTickets_ids. }
  cbn [Respawn.respawnedSnakes Respawn.updatedQueue map app].
  rewrite map_app.
  rewrite (Permutation_app_comm (map Ticket.snakeId (State.respawnQueue state))).
  rewrite app_assoc. apply submseteq_skips_r.
  rewrite <- (tickMoves_ids _ _ _ _ Ht). apply survivors_tickets_ids.
Qed.

Lemma initialAi_ids layouts n :
  map Snake.id (initialAi layouts n)
  `sublist_of` map (fun i : nat => "ai-" +:+ pretty (i + 1)%nat) (seq 0 (Z.to_nat n)).
Proof.
  unfold initialAi. induction (seq 0 (Z.to_nat n)) as [|i l IH]; [done|].
  cbn [omap list_omap map].
  destruct (match layouts !! (i + 1)%nat with
            | Some l0 => Some l0
            | None => layouts !! ((i + 1) `mod` length layouts)%nat
            end) as [layout|]; cbn.
  - by apply sublist_skip.
  - by apply sublist_cons.
Qed.

Lemma createInitialState_idsOk pc state :
  createInitialState pc = Some state -> idsOk state.
Proof.
  unfold createInitialState. intros H.
  apply bind_Some in H as (layout & _ & H). injection H as <-.
  unfold idsOk.
  match goal with |- context [replenishFood ?s ?r] =>
    destruct (replenishFood_fields s r) as (_ & _ & -> & _ & ->) end.
  cbn [State.snakes State.respawnQueue map]. rewrite app_nil_r.
  change (Snake.id (buildSnake "player" _ _ _ _)) with "player".
  set (ids := map Snake.id _).
  assert (Hsub := initialAi_ids (createSpawnPoints (clampConfig (mergeConfig defaultConfig pc)))
                    (Config.aiCount (clampConfig (mergeConfig defaultConfig pc)))).
  fold ids in Hsub.
  apply NoDup_cons. split.
  - intros Hin. eapply elem_of_sublist in Hin; [|exact Hsub].
    apply list_elem_of_fmap in Hin as (i & Hi & _). done.
  - eapply sublist_NoDup; [|exact Hsub].
    apply NoDup_fmap_2_strong; [|apply NoDup_ListNoDup, List.seq_NoDup].
    intros i j _ _ Hij. apply String.app_inj, pretty_nat_inj in Hij. lia.
Qed.

Lemma reachable_idsOk state : reachable state -> idsOk state.
Proof.
  induction 1 as [pc state H|state commands state' Hr IH H].
  - by eapply createInitialState_idsOk.
  - unfold advanceState in H. case_bool_decide; [by injection H as <-|].
    apply bind_Some in H as ([moves rng] & Ht & H). injection H as <-.
    by eapply finishTick_idsOk.
Qed.

(** ** Head-to-head contests (C1) *)

Lemma buildSafeLookup_lookup tick snakes s :
  NoDup (map Snake.id snakes) -> s ∈ snakes ->
  isSafe (buildSafeLookup tick snakes) (Snake.id s) = isSnakeSafe s tick.
Proof.
  unfold buildSafeLookup, isSafe.
  induction snakes as [|a snakes IH] using rev_ind; intros Hnd Hs.
  - by apply elem_of_nil in Hs.
  - rewrite map_app in Hnd. cbn in Hnd. apply NoDup_app in Hnd as (Hnd & Hfresh & _).
    rewrite fold_left_app. cbn. rewrite lookup_insert.
    apply elem_of_app in Hs as [Hs|Hs].
    + destruct (decide (Snake.id a = Snake.id s)) as [E|E].
      * exfalso. apply (Hfresh (Snake.id s)).
        -- apply list_elem_of_fmap. eauto.
        -- rewrite E. by left.
      * by apply IH.
    + apply list_elem_of_singleton in Hs as ->. by rewrite decide_True.
Qed.

Lemma prepared_ids state cm snakes :
  map Snake.id (map (prepareSnake state cm) snakes) = map Snake.id snakes.
Proof.
  rewrite map_map. apply map_ext. intros s.
  by destruct (prepareSnake_fields state cm s) as (-> & _).
Qed.

(** In a state the engine produced the safe lookup of a tick tells of every
    move whether its own snake is inside its safe window. *)
Lemma safeLookup_reachable state commands moves safe rng j m :
  reachable state ->
  checkedMoves state commands = Some (moves, safe, rng) ->
  moves !! j = Some m ->
  isSafe safe (Snake.id (Move.snake m))
  = bool_decide (State.tick state < Snake.safeUntilTick (Move.snake m)).
Proof.
  intros Hr Hc Hm. apply checkedMoves_spec in Hc as (cm & _ & -> & Hall).
  destruct (Forall2_lookup_r _ _ _ _ _ Hall Hm) as (s & Hs & pm & Hp & Hset & _).
  rewrite (settled_snake _ _ _ Hset), (proposeMove_snake _ _ _ Hp).
  rewrite buildSafeLookup_lookup; [done| |].
  - rewrite prepared_ids. pose proof (reachable_idsOk _ Hr) as Hids.
    by apply NoDup_app in Hids as (? & _).
  - apply list_elem_of_fmap. exists s. split; [done|].
    by eapply list_elem_of_lookup_2.
Qed.

Lemma interactiveOf_spec safe moves idxs j :
  j ∈ interactiveOf safe moves idxs
  <-> j ∈ idxs
      /\ exists m, moves !! j = Some m
                   /\ isSafe safe (Snake.id (Move.snake m)) = false.
Proof.
  unfold interactiveOf. rewrite list_elem_of_In, filter_In, <- list_elem_of_In.
  split; intros [Hj H]; (split; [done|]).
  - destruct (moves !! j) as [m|]; [|done]. exists m. split; [done|].
    by apply negb_true_iff.
  - destruct H as (m & -> & ->). done.
Qed.

(** A contestant outside its safe window is a move of the array. *)
Lemma interactive_move safe moves idxs j :
  j ∈ interactiveOf safe moves idxs -> is_Some (moves !! j).
Proof.
  intros Hj. apply interactiveOf_spec in Hj as (_ & m & Hm & _).
  by exists m.
Qed.

(** What the contest leaves of a move it marks. *)
Lemma head_marked (final moves : list Move.t) j :
  is_Some (moves !! j) ->
  final !! j = Move.collide head <$> moves !! j ->
  Move.collided <$> final !! j = Some true
  /\ Move.reason <$> final !! j = Some (Some head)
  /\ Move.snake <$> final !! j = Move.snake <$> moves !! j
  /\ Move.willMove <$> final !! j = Move.willMove <$> moves !! j
  /\ Move.nextHead <$> final !! j = Move.nextHead <$> moves !! j.
Proof.
  intros [m Hm] ->. rewrite Hm. done.
Qed.

(** C1: the contest for a cell.  [moves] is the array of proposed moves of
    a tick as the boundary and occupancy pass leaves it,
    [contestants moves cell] the moving, not yet collided moves that target
    [cell], and [interactive] those of them outside their safe window.  When
    two or more remain: if one has the strictly greatest segment count, it is
    left untouched (not collided) and every other remaining contestant gets a
    head collision; if the greatest count is shared, every remaining
    contestant gets a head collision, also the strictly shorter ones.  A head
    collision leaves the move collided, with reason [head], and nothing else
    of it changed.  Contestants inside their safe window are left as they
    were.  In a state the engine produced, the remaining contestants are the
    moving, not collided moves to [cell] of the agents with
    safeUntilTick <= tick. *)
Theorem head_contest (state : State.t) (commands : list Command.t)
    (moves : list Move.t) (safeLookup : gmap string bool) (rng : Z)
    (cell : Z * Z) :
  checkedMoves state commands = Some (moves, safeLookup, rng) ->
  let interactive := interactiveOf safeLookup moves (contestants moves cell) in
  (2 <= length interactive)%nat ->
  exists final,
    tickMoves state commands = Some (final, rng)
    /\ (forall w, w ∈ interactive ->
         (forall j, j ∈ interactive -> j <> w ->
            (segmentCount moves j < segmentCount moves w)%nat) ->
         final !! w = moves !! w
         /\ Move.collided <$> final !! w = Some false
         /\ forall j, j ∈ interactive -> j <> w ->
              final !! j = Move.collide head <$> moves !! j
              /\ Move.collided <$> final !! j = Some true
              /\ Move.reason <$> final !! j = Some (Some head))
    /\ (forall a b, a ∈ interactive -> b ∈ interactive -> a <> b ->
          segmentCount moves a = segmentCount moves b ->
          (forall j, j ∈ interactive ->
             (segmentCount moves j <= segmentCount moves a)%nat) ->
          forall j, j ∈ interactive ->
            final !! j = Move.collide head <$> moves !! j
            /\ Move.collided <$> final !! j = Some true
            /\ Move.reason <$> final !! j = Some (Some head))
    /\ (forall j, j ∈ contestants moves cell -> j ∉ interactive ->
          final !! j = moves !! j)
    /\ (reachable state ->
        forall j,
          j ∈ interactive
          <-> exists m,
                moves !! j = Some m
                /\ Move.willMove m = true
                /\ Move.collided m = false
                /\ cellKey <$> Move.nextHead m = Some cell
                /\ Snake.safeUntilTick (Move.snake m) <= State.tick state).
Proof.
  intros Hc interactive H2.
  exists (resolveHeadCollisions safeLookup moves). split.
  { unfold tickMoves. by rewrite Hc. }
  destruct (contest_outcome safeLookup moves cell H2) as (H1 & H3 & H4).
  split.
  { intros w Hw Hgreatest. destruct (H1 w Hw Hgreatest) as (Ew & Ecol & Hothers).
    split; [exact Ew|]. split; [exact Ecol|].
    intros j Hj Hjw. pose proof (Hothers j Hj Hjw) as Ej.
    split; [exact Ej|].
    destruct (head_marked _ moves j (interactive_move _ _ _ _ Hj) Ej) as (? & ? & _).
    by split. }
  split.
  { intros a b Ha Hb Hab Heq Hmax j Hj.
    pose proof (H3 a b Ha Hb Hab Heq Hmax j Hj) as Ej.
    split; [exact Ej|].
    destruct (head_marked _ moves j (interactive_move _ _ _ _ Hj) Ej) as (? & ? & _).
    by split. }
  split; [exact H4|].
  intros Hr j. unfold interactive. rewrite interactiveOf_spec, contestants_spec.
  split.
  - intros (Hj & m & Hm & Hs). exists m. rewrite Hm in Hj. cbn in Hj.
    rewrite (safeLookup_reachable _ _ _ _ _ _ _ Hr Hc Hm) in Hs.
    apply bool_decide_eq_false in Hs. unfold contests in Hj.
    destruct (Move.willMove m), (Move.collided m); try done.
    split_and!; try done. lia.
  - intros (m & Hm & Hw & Hcol & Hn & Hs). split.
    + rewrite Hm. cbn. unfold contests. by rewrite Hw, Hcol.
    + exists m. split; [done|].
      rewrite (safeLookup_reachable _ _ _ _ _ _ _ Hr Hc Hm).
      apply bool_decide_eq_false. lia.
Qed.

(** The three-way contest of lengths 5, 5 and 3 leaves no snake. *)
Example three_way_tie :
  State.snakes <$> advanceState contest553 contest553Commands = Some [].
Proof. vm_compute. reflexivity. Qed.

Lemma head_contest_witness :
  exists final,
    tickMoves contest553 contest553Commands = Some (final, 7)
    /\ final !! 2%nat = Move.collide head <$> contest553Checked.1 !! 2%nat
    /\ Move.collided <$> final !! 2%nat = Some true
    /\ Move.reason <$> final !! 2%nat = Some (Some head).
Proof.
  destruct (head_contest contest553 contest553Commands
              contest553Checked.1 contest553Checked.2 7 (5, 5))
    as (final & Ht & _ & Htie & _).
  - vm_compute. reflexivity.
  - vm_compute. lia.
  - exists final. split; [exact Ht|].
    apply (Htie 0%nat 1%nat).
    + apply (bool_decide_unpack _). vm_compute. exact I.
    + apply (bool_decide_unpack _). vm_compute. exact I.
    + lia.
    + vm_compute. reflexivity.
    + intros j Hj. apply (bool_decide_unpack _).
      revert j Hj. apply Forall_forall. apply (bool_decide_unpack _).
      vm_compute. exact I.
    + apply (bool_decide_unpack _). vm_compute. exact I.
Defined.

(** ** The safe window (C2) *)

(** One tick of an agent inside its safe window. *)
Lemma safe_tick (state : State.t) (commands : list Command.t) (i : nat)
    (s : Snake.t) :
  State.status state = running ->
  Forall hasHead (State.snakes state) ->
  NoDup (map Snake.id (State.snakes state)) ->
  State.snakes state !! i = Some s ->
  Snake.alive s = true ->
  State.tick state < Snake.safeUntilTick s ->
  exists moves rng state' m,
    tickMoves state commands = Some (moves, rng)
    /\ advanceState state commands = Some state'
    /\ moves !! i = Some m
    /\ (Move.collided m = true -> Move.reason m = Some wall)
    /\ (Move.collided m = false ->
        applyMove state m ∈ State.snakes state'
        /\ Snake.alive (applyMove state m) = true
        /\ Snake.id (applyMove state m) = Snake.id s
        /\ Snake.safeUntilTick (applyMove state m) = Snake.safeUntilTick s)
    /\ Forall
         (fun r =>
            r ∈ State.snakes state'
            /\ Snake.safeUntilTick r = State.tick state' + SAFE_RESPAWN_TICKS)
         (Respawn.respawnedSnakes (respawnAll state rng moves))
    /\ State.tick state' = State.tick state + 1.
Proof.
  intros Hrun Hh Hnd Hsi Ha Hsafe.
  destruct (tickMoves_total state commands Hh) as [[moves rng] Ht].
  pose proof Ht as Ht'. apply tickMoves_spec in Ht' as (cm & _ & Hall).
  destruct (Forall2_lookup_l _ _ _ _ _ Hall Hsi) as (m & Hm & pm & Hprop & Hset).
  exists moves, rng, (finishTick state rng moves), m.
  split; [done|]. split; [by apply advanceState_running|]. split; [done|].
  destruct (prepareSnake_fields state cm s)
    as (Eid & Eseg & _ & Eal & _ & _ & _ & _ & _ & Esafe).
  set (p := prepareSnake state cm s) in *.
  assert (Hps : isSafe (buildSafeLookup (State.tick state)
                          (map (prepareSnake state cm) (State.snakes state)))
                       (Snake.id (Move.snake pm)) = true).
  { rewrite (proposeMove_snake _ _ _ Hprop).
    rewrite buildSafeLookup_lookup.
    - unfold isSnakeSafe. rewrite Esafe. by apply bool_decide_eq_true_2.
    - by rewrite prepared_ids.
    - apply list_elem_of_fmap. exists s. split; [done|].
      by eapply list_elem_of_lookup_2. }
  assert (Hpa : Snake.alive p = true) by congruence.
  assert (Hpm : Move.snake pm = p /\ Move.collided pm = false
                /\ Snake.alive (applyMove state pm) = true
                /\ Snake.id (applyMove state pm) = Snake.id s
                /\ Snake.safeUntilTick (applyMove state pm) = Snake.safeUntilTick s).
  { destruct (Qle_bool 1 (Snake.accumulator p
                + Snake.speed p * getSpeedMultiplier (Snake.effects p))) eqn:Eq.
    - rewrite Forall_forall in Hh.
      pose proof (Hh s (list_elem_of_lookup_2 _ _ _ Hsi)) as Hhead.
      unfold hasHead in Hhead. rewrite <- Eseg in Hhead.
      destruct (Snake.segments p) as [|h t] eqn:Es; [done|].
      destruct (proposeMove_moving state p h t Hpa Eq Es) as [tk Hp].
      rewrite Hp in Hprop. injection Hprop as <-.
      unfold applyMove. cbn. rewrite Hpa. cbn.
      by destruct (bool_decide _).
    - rewrite (proposeMove_idle state p Hpa Eq) in Hprop. injection Hprop as <-.
      unfold applyMove. cbn. by rewrite Hpa. }
  destruct Hpm as (Hsn & Hcol & Halive & Hid & Hkeep).
  split_and!.
  - destruct Hset as [->|(r & -> & _ & _ & [->|Hns])]; [congruence|done|congruence].
  - intros Hc. destruct Hset as [->|(r & -> & _)]; [|done].
    split_and!; try done.
    apply survivor_elem; [by eapply list_elem_of_lookup_2|done].
  - destruct (finishTick_fields state rng moves) as (Etick & _ & Esnakes).
    apply Forall_forall. intros r Hr. split.
    + rewrite Esnakes. apply elem_of_app. by right.
    + revert r Hr. apply Forall_forall. rewrite Etick.
      apply respawnAll_respawned. intros. cbn. lia.
  - by destruct (finishTick_fields state rng moves) as (-> & _).
Qed.

(** The window over a run: for as many ticks as the window has left, the
    agent is on the board with its window as it was, unless it left the
    grid on the way. *)
Lemma safe_run (ticks : list (list Command.t)) :
  forall (state state' : State.t) (s : Snake.t),
    reachable state ->
    s ∈ State.snakes state ->
    State.tick state + Z.of_nat (length ticks) <= Snake.safeUntilTick s ->
    advanceAll state ticks = Some state' ->
    (exists s',
       s' ∈ State.snakes state'
       /\ Snake.id s' = Snake.id s
       /\ Snake.safeUntilTick s' = Snake.safeUntilTick s)
    \/ (exists (k : nat) commands before,
          ticks !! k = Some commands
          /\ advanceAll state (take k ticks) = Some before
          /\ State.status before = running
          /\ leavesGrid before commands (Snake.id s) (Snake.safeUntilTick s)).
Proof.
  induction ticks as [|commands rest IH]; intros state state' s Hr Hs Hlen Hall.
  - injection Hall as <-. left. by exists s.
  - cbn in Hall. apply bind_Some in Hall as (st1 & Hadv & Hall).
    cbn [length] in Hlen.
    destruct (decide (State.status state = running)) as [Hrun|Hover].
    + pose proof (reachable_ok _ Hr) as Hok.
      pose proof (reachable_idsOk _ Hr) as Hids.
      apply NoDup_app in Hids as (Hnd & _).
      assert (Ha : Snake.alive s = true).
      { destruct Hok as (Hsn & _). rewrite Forall_forall in Hsn.
        by destruct (Hsn s Hs). }
      apply list_elem_of_lookup in Hs as [i Hsi].
      destruct (safe_tick state commands i s Hrun (stateOk_hasHead _ Hok)
                  Hnd Hsi Ha ltac:(lia))
        as (moves & rng & st1' & m & Ht & Hadv' & Hm & Hc & Hn & _ & Htick).
      rewrite Hadv in Hadv'. injection Hadv' as <-.
      destruct (Move.collided m) eqn:Ecol.
      * right. exists 0%nat, commands, state.
        split; [done|]. split; [done|]. split; [done|].
        exists moves, rng, i, s, m. split_and!; try done; [lia|by apply Hc].
      * destruct (Hn eq_refl) as (Hin & _ & Hid & Hkeep).
        destruct (IH st1 state' (applyMove state m)) as [Hon|Hoff].
        -- exact (reachable_advance _ _ _ Hr Hadv).
        -- exact Hin.
        -- rewrite Hkeep, Htick. lia.
        -- exact Hall.
        -- left. destruct Hon as (s' & Hs' & Hid' & Hk'). exists s'.
           split; [done|]. split; congruence.
        -- right. destruct Hoff as (k & c & before & Hk & Hpre & Hst & Hw).
           exists (S k), c, before. split; [done|]. split.
           { cbn. by rewrite Hadv. }
           split; [done|]. by rewrite <- Hid, <- Hkeep.
    + assert (st1 = state) as ->.
      { unfold advanceState in Hadv.
        rewrite bool_decide_eq_true_2 in Hadv by done. by injection Hadv. }
      destruct (IH state state' s Hr Hs ltac:(lia) Hall) as [Hon|Hoff]; [by left|].
      right. destruct Hoff as (k & c & before & Hk & Hpre & Hst & Hw).
      exists (S k), c, before. split; [done|]. split.
      { cbn. by rewrite Hadv. }
      by split.
Qed.

(** C2, as amended.  The respawn of a tick grants safeUntilTick = T + 12,
    T the tick of the state in which the agent appears.  In a running state
    the engine produced, an agent with tick < safeUntilTick gets no collision
    but [wall]: no body and no head collision; when its move is not collided
    it is alive in the next state, with its safeUntilTick as it was.  A wall
    still kills it.  So over a run: for as many ticks as the window has left
    (tick + number of ticks <= safeUntilTick: the ticks T .. T+11 of an agent
    that appeared at tick T), the agent is on the board of the last state
    with its window unchanged, unless it left the grid in one of these
    ticks.  At tick = safeUntilTick the immunity is over: the probe agent
    (safe until 30 + 12) passes through a body at tick 41 and dies of it at
    tick 42. *)
Theorem safe_window (state : State.t) (commands : list Command.t) (i : nat)
    (s : Snake.t) :
  reachable state ->
  State.status state = running ->
  State.snakes state !! i = Some s ->
  State.tick state < Snake.safeUntilTick s ->
  exists moves rng state' m,
    tickMoves state commands = Some (moves, rng)
    /\ advanceState state commands = Some state'
    /\ moves !! i = Some m
    /\ (Move.collided m = true -> Move.reason m = Some wall)
    /\ (Move.collided m = false ->
        applyMove state m ∈ State.snakes state'
        /\ Snake.alive (applyMove state m) = true
        /\ Snake.id (applyMove state m) = Snake.id s
        /\ Snake.safeUntilTick (applyMove state m) = Snake.safeUntilTick s)
    /\ SAFE_RESPAWN_TICKS = 12
    /\ Forall
         (fun r =>
            r ∈ State.snakes state'
            /\ Snake.safeUntilTick r = State.tick state' + SAFE_RESPAWN_TICKS)
         (Respawn.respawnedSnakes (respawnAll state rng moves))
    /\ (fun st => map Snake.id (State.snakes st))
         <$> advanceState (safeProbe 41) [Command.mk "ai-1" Right]
       = Some ["player"; "ai-1"]
    /\ (fun st => map Snake.id (State.snakes st))
         <$> advanceState (safeProbe 42) [Command.mk "ai-1" Right]
       = Some ["player"]
    /\ forall ticks final,
         State.tick state + Z.of_nat (length ticks) <= Snake.safeUntilTick s ->
         advanceAll state ticks = Some final ->
         (exists s',
            s' ∈ State.snakes final
            /\ Snake.id s' = Snake.id s
            /\ Snake.safeUntilTick s' = Snake.safeUntilTick s)
         \/ (exists (k : nat) commands before,
               ticks !! k = Some commands
               /\ advanceAll state (take k ticks) = Some before
               /\ State.status before = running
               /\ leavesGrid before commands (Snake.id s) (Snake.safeUntilTick s)).
Proof.
  intros Hr Hrun Hsi Hsafe.
  pose proof (reachable_ok _ Hr) as Hok.
  pose proof (reachable_idsOk _ Hr) as Hids.
  apply NoDup_app in Hids as (Hnd & _).
  assert (Ha : Snake.alive s = true).
  { destruct Hok as (Hs & _). rewrite Forall_forall in Hs.
    by destruct (Hs s (list_elem_of_lookup_2 _ _ _ Hsi)). }
  destruct (safe_tick state commands i s Hrun (stateOk_hasHead _ Hok)
              Hnd Hsi Ha Hsafe)
    as (moves & rng & state' & m & Ht & Hadv & Hm & Hc & Hn & Hg & _).
  exists moves, rng, state', m.
  do 5 (split; [assumption|]). split; [reflexivity|]. split; [assumption|].
  split; [vm_compute; reflexivity|]. split; [vm_compute; reflexivity|].
  intros ticks final Hlen Hall.
  exact (safe_run ticks state final s Hr (list_elem_of_lookup_2 _ _ _ Hsi) Hlen Hall).
Qed.

Lemma safe_window_witness :
  exists moves rng state' m,
    tickMoves afterRespawn [Command.mk "ai-1" Up] = Some (moves, rng)
    /\ advanceState afterRespawn [Command.mk "ai-1" Up] = Some state'
    /\ moves !! 1%nat = Some m
    /\ (Move.collided m = true -> Move.reason m = Some wall)
    /\ (Move.collided m = false ->
        Snake.safeUntilTick (applyMove afterRespawn m) = 27 + 12).
Proof.
  destruct (safe_window afterRespawn [Command.mk "ai-1" Up] 1
              (Snake.mk "ai-1" [mkVec2 3 3; mkVec2 2 3; mkVec2 1 3]
                 Right true None 1%Q 0%Q ai 0 [] 39))
    as (moves & rng & state' & m & Ht & Ha & Hm & Hc & Hn & _).
  - apply (run_reachable wallRunConfig (wallRunTicks 27)). vm_compute. reflexivity.
  - vm_compute. reflexivity.
  - vm_compute. reflexivity.
  - vm_compute. reflexivity.
  - exists moves, rng, state', m. do 4 (split; [assumption|]).
    intros Hcol. destruct (Hn Hcol) as (_ & _ & _ & Hk). exact Hk.
Defined.

(** C2 as stated fails: in the run below ai-1 is respawned at tick 27, safe
    until tick 39, and steered up; at tick 30 it leaves the grid and is gone
    from the next state. *)
Lemma safe_agent_dies_on_wall :
  exists s state',
    reachable beforeWall
    /\ State.tick beforeWall = 27 + 3
    /\ State.snakes beforeWall !! 1%nat = Some s
    /\ Snake.alive s = true
    /\ Snake.safeUntilTick s = 27 + SAFE_RESPAWN_TICKS
    /\ advanceState beforeWall [Command.mk "ai-1" Up] = Some state'
    /\ State.status state' = running
    /\ forall s', s' ∈ State.snakes state' -> Snake.id s' <> Snake.id s.
Proof.
  eexists _, _.
  split.
  { apply (run_reachable wallRunConfig (wallRunTicks 30)). vm_compute. reflexivity. }
  split; [vm_compute; reflexivity|].
  split; [vm_compute; reflexivity|].
  split; [reflexivity|]. split; [reflexivity|].
  split; [vm_compute; reflexivity|]. split; [reflexivity|].
  intros s' Hs'. apply list_elem_of_singleton in Hs' as ->. by vm_compute.
Qed.

(** ** The speed accumulator (C4) *)

(** C4 fails on the code: with seed 134 a `speed` food lies in front of the
    player; it is eaten on the first tick, and two ticks later the
    accumulator is 0 + 1.6 - 1 + 1.6 - 1 = 1.2 (1.2000000000000002 in
    doubles), which is not below 1.  The agent made one step on each of the
    three ticks: the boost gave it no extra step. *)
Lemma boosted_accumulator_reaches_one :
  exists state s,
    run boostConfig [[]; []; []] = Some state
    /\ reachable state
    /\ State.snakes state = [s]
    /\ (Snake.accumulator s == 12 # 10)%Q
    /\ ~ (Snake.accumulator s < 1)%Q
    /\ Snake.segments s = [mkVec2 6 3; mkVec2 5 3; mkVec2 4 3; mkVec2 3 3].
Proof.
  eexists _, _. split; [vm_compute; reflexivity|].
  split.
  { apply (run_reachable boostConfig [[]; []; []]). vm_compute. reflexivity. }
  split; [reflexivity|]. split; [vm_compute; reflexivity|].
  split; [|reflexivity]. vm_compute. intros H. discriminate H.
Qed.

(** ** Config clamping (C9) *)

(** C9, as amended: createInitialState accepts every config; the stored
    config has cols >= 8, rows >= 8, tickRate >= 1 and aiCount in [0,4]; the
    seed is stored as it was given (1 when absent), and it is the generator
    state of the result that is a uint32. *)
Theorem createInitialState_clamps (pc : Partial.t) :
  exists state,
    createInitialState pc = Some state
    /\ 8 <= Config.cols (State.config state)
    /\ 8 <= Config.rows (State.config state)
    /\ 1 <= Config.tickRate (State.config state)
    /\ 0 <= Config.aiCount (State.config state) <= 4
    /\ Config.seed (State.config state) = default 1 (Partial.seed pc)
    /\ isUint32 (State.rngState state).
Proof.
  destruct (createInitialState_total pc) as (state & Hs & Hc & Hr).
  exists state. split; [done|]. rewrite Hc.
  do 4 (split; [cbn; lia|]).
  split; [reflexivity|done].
Qed.

(** C9 as stated fails: a seed outside the uint32 range is stored unchanged. *)
Lemma createInitialState_seed_not_clamped :
  exists state,
    createInitialState (Partial.mk None None None (Some (-1)) None) = Some state
    /\ ~ isUint32 (Config.seed (State.config state)).
Proof.
  eexists. split; [reflexivity|].
  vm_compute. intros [H _]. by apply H.
Qed.

(** * Further properties *)

(** ** The generator *)

Lemma next_state s : (next s).2 = u32 (s + 1831565813).
Proof. reflexivity. Qed.

Lemma next_bits_range s : isUint32 (nextBits s).1.
Proof. unfold nextBits. cbn. apply u32_range. Qed.

Lemma next_value s : (next s).1 = ((nextBits s).1 # 4294967296)%Q.
Proof. unfold next. by destruct (nextBits s). Qed.

Lemma draw_range (state n : Z) :
  0 < n ->
  (0 <= (next state).1)%Q
  /\ ((next state).1 < 1)%Q
  /\ isUint32 (next state).2
  /\ 0 <= Qfloor ((next state).1 * inject_Z n) < n.
Proof.
  intros Hn. pose proof (next_bits_range state) as Hb.
  rewrite next_value. generalize dependent ((nextBits state).1). intros b [H0 H1].
  assert (Hv0 : (0 <= b # 4294967296)%Q) by (unfold Qle; cbn; lia).
  assert (Hv1 : (b # 4294967296 < 1)%Q) by (unfold Qlt; cbn; lia).
  split_and!; try done.
  - apply next_state_range.
  - rewrite <- (Qfloor_Z 0). apply Qfloor_resp_le.
    apply Qmult_le_0_compat; [done|]. unfold Qle. cbn. lia.
  - apply Z.lt_nge. intros Hge.
    assert (Hq : (inject_Z n <= (b # 4294967296) * inject_Z n)%Q).
    { eapply Qle_trans; [|apply Qfloor_le]. by rewrite <- Zle_Qle. }
    assert (Hnq : (0 < inject_Z n)%Q) by (unfold Qlt; cbn; lia).
    nra.
Qed.

(** X1: a draw lies in [0,1) and leaves a uint32 state, whatever the state it
    starts from; so Math.floor(next() * n) is an index below n. *)
Theorem next_unit_interval (state n : Z) :
  0 < n ->
  (0 <= (next state).1)%Q
  /\ ((next state).1 < 1)%Q
  /\ isUint32 (next state).2
  /\ 0 <= Qfloor ((next state).1 * inject_Z n) < n.
Proof. apply draw_range. Qed.

Lemma next_unit_interval_witness :
  0 <= Qfloor ((next 1).1 * inject_Z 6) < 6.
Proof. apply (next_unit_interval 1 6). lia. Defined.

Lemma nthState_spec n s : isUint32 s -> nthState n s = u32 (s + Z.of_nat n * 1831565813).
Proof.
  intros Hs. unfold nthState. induction n as [|n IH].
  - cbn. unfold u32. rewrite Z.add_0_r. symmetry. apply Z.mod_small. exact Hs.
  - rewrite Nat.iter_succ, IH, next_state. unfold u32.
    rewrite Zplus_mod_idemp_l. f_equal. lia.
Qed.

(** X2: the state of the generator is a counter: after n draws from a uint32
    seed it is seed + n * 0x6D2B79F5 modulo 2^32, and since the increment is
    odd no state comes back before 2^32 draws. *)
Theorem generator_full_period (seed : Z) (i j : nat) :
  isUint32 seed ->
  (i < j)%nat ->
  Z.of_nat j < 4294967296 ->
  nthState j seed = u32 (seed + Z.of_nat j * 1831565813)
  /\ nthState i seed <> nthState j seed.
Proof.
  intros Hs Hij Hj. split; [by apply nthState_spec|].
  rewrite !nthState_spec by done. unfold u32. intros E.
  assert (Hd : (4294967296 | (seed + Z.of_nat j * 1831565813)
                             - (seed + Z.of_nat i * 1831565813))).
  { apply Z.mod_divide; [lia|]. rewrite Zminus_mod, E, Z.sub_diag. reflexivity. }
  destruct Hd as [k Hk].
  assert (Hinv : 1831565813 * 3696798301 = 1 + 1576479847 * 4294967296) by reflexivity.
  set (d := Z.of_nat j - Z.of_nat i) in *.
  assert (Hd' : d = 4294967296 * (k * 3696798301 - d * 1576479847)) by lia.
  assert (0 < d < 4294967296) by lia.
  nia.
Qed.

Lemma generator_full_period_witness : nthState 0 1 <> nthState 5 1.
Proof.
  refine (proj2 (generator_full_period 1 0 5 _ _ _)); [unfold isUint32|..]; lia.
Defined.

(** ** Occupied cells *)

Lemma elem_of_addCells k cells occ :
  k ∈ addCells cells occ <-> k ∈ occ \/ k ∈ cellKey <$> cells.
Proof.
  unfold addCells. revert occ. induction cells as [|c cells IH]; intros occ; cbn.
  - rewrite elem_of_nil. tauto.
  - rewrite IH, elem_of_union, elem_of_singleton, elem_of_cons. tauto.
Qed.

Lemma elem_of_snakeCells k snakes occ :
  k ∈ fold_left (fun occ snake => addCells (Snake.segments snake) occ) snakes occ
  <-> k ∈ occ \/ exists s, s ∈ snakes /\ k ∈ segmentCells s.
Proof.
  revert occ. induction snakes as [|s snakes IH]; intros occ; cbn.
  - split; [by left|]. intros [?|(s & Hs & _)]; [done|]. by apply elem_of_nil in Hs.
  - rewrite IH, elem_of_addCells. split.
    + intros [[?|?]|(s' & ? & ?)]; [by left|right; exists s|right; exists s'];
        split; try done; [left|by right].
    + intros [?|(s' & Hs & ?)]; [by left; left|].
      apply elem_of_cons in Hs as [->|Hs]; [left; by right|right; by exists s'].
Qed.

Lemma elem_of_occupiedCells k snakes foods :
  k ∈ occupiedCells snakes foods
  <-> (exists s, s ∈ snakes /\ k ∈ segmentCells s) \/ k ∈ foodCells foods.
Proof.
  unfold occupiedCells. rewrite elem_of_addCells, elem_of_snakeCells.
  unfold foodCells. rewrite <- list_fmap_compose.
  split; [intros [[H|H]|H]|intros [H|H]]; auto. by apply elem_of_empty in H.
Qed.

(** ** Where the food manager puts a food *)

Lemma inBounds_iff config p :
  inBounds config p = true
  <-> 0 <= x p < Config.cols config /\ 0 <= y p < Config.rows config.
Proof.
  unfold inBounds. rewrite negb_true_iff, !orb_false_iff, !bool_decide_eq_false. lia.
Qed.

Lemma draw_index state n :
  0 < n -> 0 <= Qfloor ((next state).1 * inject_Z n) < n.
Proof. intros Hn. by apply draw_range. Qed.

Lemma placeFood_free attempts state ordinal occupied rng f r :
  0 < Config.cols (State.config state) ->
  0 < Config.rows (State.config state) ->
  placeFood attempts state ordinal occupied rng = (Some f, r) ->
  inBounds (State.config state) (Food.position f) = true
  /\ cellKey (Food.position f) ∉ occupied.
Proof.
  intros Hc Hr. revert rng. induction attempts as [|n IH]; intros rng; cbn; [done|].
  pose proof (draw_index rng _ Hc) as Hx.
  destruct (next rng) as [vx rng1]. cbn in Hx.
  pose proof (draw_index rng1 _ Hr) as Hy.
  destruct (next rng1) as [vy rng2]. cbn in Hy.
  case_bool_decide as Hocc; [apply IH|].
  destruct (pickFoodDefinition rng2) as [d rng3]. intros [= <- <-]. cbn.
  split; [by apply inBounds_iff|done].
Qed.

Lemma fillFoods_new fuel state foods occupied rng :
  0 < Config.cols (State.config state) ->
  0 < Config.rows (State.config state) ->
  exists new,
    (fillFoods fuel state foods occupied rng).1 = foods ++ new
    /\ Forall (fun f => inBounds (State.config state) (Food.position f) = true) new
    /\ NoDup (foodCells new)
    /\ forall k, k ∈ foodCells new -> k ∉ occupied.
Proof.
  intros Hc Hr. revert foods occupied rng.
  induction fuel as [|fuel IH]; intros foods occupied rng; cbn.
  { exists []. rewrite app_nil_r. split_and!; [done|constructor|constructor|].
    intros k Hk. by apply elem_of_nil in Hk. }
  case_bool_decide as Hlen; cbn.
  2:{ exists []. rewrite app_nil_r. split_and!; [done|constructor|constructor|].
      intros k Hk. by apply elem_of_nil in Hk. }
  destruct (placeFood _ state (length foods) occupied rng) as [[f|] r] eqn:Ep.
  2:{ exists []. rewrite app_nil_r. split_and!; [done|constructor|constructor|].
      intros k Hk. by apply elem_of_nil in Hk. }
  apply placeFood_free in Ep as [Hin Hfree]; [|done..].
  destruct (IH (foods ++ [f]) ({[cellKey (Food.position f)]} ∪ occupied) r)
    as (new & -> & Hnew & Hnd & Hocc).
  exists (f :: new). rewrite <- app_assoc. split_and!; [done|by constructor| |].
  - unfold foodCells. rewrite fmap_cons. constructor; [|done].
    intros Hk. apply (Hocc _ Hk). apply elem_of_union. left. by apply elem_of_singleton.
  - intros k Hk. unfold foodCells in Hk. rewrite fmap_cons in Hk.
    apply elem_of_cons in Hk as [->|Hk]; [done|].
    intros Ho. apply (Hocc _ Hk). apply elem_of_union. by right.
Qed.

Lemma replenishFood_new state rng :
  0 < Config.cols (State.config state) ->
  0 < Config.rows (State.config state) ->
  exists new,
    State.foods (replenishFood state rng) = State.foods state ++ new
    /\ Forall (fun f => inBounds (State.config state) (Food.position f) = true) new
    /\ NoDup (foodCells new)
    /\ forall k, k ∈ foodCells new ->
         k ∉ occupiedCells (State.snakes state) (State.foods state).
Proof.
  intros Hc Hr. unfold replenishFood. case_bool_decide as Hcap.
  { exists []. rewrite app_nil_r. split_and!; [done|constructor|constructor|].
    intros k Hk. by apply elem_of_nil in Hk. }
  destruct (fillFoods_new (MAX_FOOD - length (State.foods state)) state
              (State.foods state)
              (occupiedCells (State.snakes state) (State.foods state)) rng Hc Hr)
    as (new & Hf & Hrest).
  destruct (fillFoods _ _ _ _ _) as [foods r]. cbn in *. subst foods. by exists new.
Qed.

Lemma NoDup_fmap_eq {A B} (g : A -> B) (l : list A) a b :
  NoDup (g <$> l) -> a ∈ l -> b ∈ l -> g a = g b -> a = b.
Proof.
  intros Hnd Ha Hb E.
  apply list_elem_of_lookup in Ha as [i Hi], Hb as [j Hj].
  assert (i = j) as ->; [|congruence].
  eapply NoDup_lookup; [exact Hnd| |]; rewrite list_lookup_fmap.
  - by rewrite Hi.
  - rewrite Hj. cbn. by rewrite E.
Qed.

Lemma replenishFood_placed state rng :
  0 < Config.cols (State.config state) ->
  0 < Config.rows (State.config state) ->
  foodsPlaced (State.config state) (State.snakes state) (State.foods state) ->
  foodsPlaced (State.config state) (State.snakes state)
              (State.foods (replenishFood state rng)).
Proof.
  intros Hc Hr (Hin & Hnd & Hfree).
  destruct (replenishFood_new state rng Hc Hr) as (new & -> & Hnin & Hnnd & Hocc).
  split_and!.
  - by apply Forall_app.
  - unfold foodCells. rewrite fmap_app. apply NoDup_app. split_and!; [done| |done].
    intros k Hk Hk'. apply (Hocc _ Hk'). apply elem_of_occupiedCells. by right.
  - intros s f Hs Hf. apply elem_of_app in Hf as [Hf|Hf]; [by apply Hfree|].
    intros Hk. apply (Hocc (cellKey (Food.position f))).
    + unfold foodCells. by apply (list_elem_of_fmap_2 (fun f => cellKey (Food.position f))).
    + apply elem_of_occupiedCells. left. by exists s.
Qed.

(** ** Bodies on the grid *)

Lemma buildSnake_contiguous id hd d c safeUntil :
  contiguous (Snake.segments (buildSnake id hd d c safeUntil)).
Proof. destruct d; cbn; unfold manhattanDistance; cbn; lia. Qed.

Lemma spawn_margin n :
  let margin := Z.max 3 (Qfloor (inject_Z n * (1 # 10))) in
  3 <= margin /\ (margin = 3 \/ 10 * margin <= n).
Proof.
  intros margin. subst margin.
  assert (E : Qfloor (inject_Z n * (1 # 10)) = n / 10).
  { unfold Qfloor, Qmult, inject_Z. cbn. by rewrite Z.mul_1_r. }
  rewrite E. pose proof (Z.mul_div_le n 10). lia.
Qed.

Lemma spawn_bodyOk config layout id c safeUntil :
  8 <= Config.cols config -> 8 <= Config.rows config ->
  layout ∈ createSpawnPoints config ->
  bodyOk config
    (buildSnake id (Layout.head layout) (Layout.direction layout) c safeUntil).
Proof.
  intros Hc Hr Hl. split; [|apply buildSnake_contiguous].
  unfold createSpawnPoints in Hl.
  destruct (spawn_margin (Z.min (Config.cols config) (Config.rows config)))
    as [Hm3 Hm].
  set (margin := Z.max 3 _) in *. clearbody margin.
  pose proof (Z.mul_div_le (Config.cols config) 2).
  pose proof (Z.mod_pos_bound (Config.cols config) 2).
  pose proof (Z.div_mod (Config.cols config) 2).
  repeat (apply elem_of_cons in Hl as [->|Hl]); [..|by apply elem_of_nil in Hl];
    cbn; repeat constructor; apply inBounds_iff; cbn; lia.
Qed.

Lemma initialAi_built layouts n s :
  s ∈ initialAi layouts n ->
  exists (i : nat) layout,
    layout ∈ layouts
    /\ s = buildSnake ("ai-" +:+ pretty (i + 1)%nat) (Layout.head layout)
             (Layout.direction layout) ai 0.
Proof.
  unfold initialAi. intros H. apply list_elem_of_omap in H as (i & _ & H).
  apply fmap_Some in H as (layout & Hl & ->). exists i, layout. split; [|done].
  destruct (layouts !! (i + 1)%nat) eqn:E.
  - injection Hl as <-. by eapply list_elem_of_lookup_2.
  - by eapply list_elem_of_lookup_2.
Qed.

Lemma createInitialState_snakes pc state :
  createInitialState pc = Some state ->
  exists layout,
    layout ∈ createSpawnPoints (State.config state)
    /\ State.snakes state
       = buildSnake "player" (Layout.head layout) (Layout.direction layout) player 0
         :: initialAi (createSpawnPoints (State.config state))
              (Config.aiCount (State.config state))
    /\ State.config state = clampConfig (mergeConfig defaultConfig pc)
    /\ State.tick state = 0
    /\ State.status state = running
    /\ State.respawnQueue state = [].
Proof.
  unfold createInitialState. intros H.
  apply bind_Some in H as (layout & Hl & [= <-]).
  match goal with
  | |- context [replenishFood ?st ?r] =>
      destruct (replenishFood_fields st r) as (Ht & Hc & Hs & Hst & Hq)
  end.
  exists layout. rewrite Hc, Hs, Ht, Hst, Hq. cbn. split_and!; try done.
  by eapply list_elem_of_lookup_2.
Qed.

Lemma createInitialState_board pc state :
  createInitialState pc = Some state -> boardOk state.
Proof.
  intros H. pose proof H as H0.
  apply createInitialState_snakes in H as (layout & Hl & Hs & Hc & _).
  assert (Hcols : 8 <= Config.cols (State.config state)) by (rewrite Hc; cbn; lia).
  assert (Hrows : 8 <= Config.rows (State.config state)) by (rewrite Hc; cbn; lia).
  split_and!; [done|done| |].
  - rewrite Hs. constructor; [by apply spawn_bodyOk|].
    apply Forall_forall. intros s Hin.
    apply initialAi_built in Hin as (i & l & Hin & ->). by apply spawn_bodyOk.
  - unfold createInitialState in H0.
    apply bind_Some in H0 as (layout' & Hl' & [= <-]).
    match goal with
    | |- context [replenishFood ?st ?r] =>
        pose proof (replenishFood_fields st r) as (_ & Hc' & Hs' & _);
        pose proof (replenishFood_placed st r) as Hp
    end.
    rewrite Hc', Hs'. cbn in Hp |- *. apply Hp; [cbn in *; lia..|].
    split_and!; [constructor|constructor|]. intros s f _ Hf. by apply elem_of_nil in Hf.
Qed.

(** ** The verdict on a proposed move *)

Lemma checkMove_outside state occ safe sl mb m h m' :
  checkMove state occ safe sl mb m = Some m' ->
  Move.willMove m = true -> Move.collided m = false ->
  Move.nextHead m = Some h -> inBounds (State.config state) h = false ->
  m' = Move.collide wall m.
Proof.
  unfold checkMove. intros H Hw Hc Hn Hb. rewrite Hw, Hc, Hn, Hb in H. cbn in H.
  congruence.
Qed.

Lemma checkMove_inside state occ safe sl mb m h m' :
  checkMove state occ safe sl mb m = Some m' ->
  Move.nextHead m = Some h -> inBounds (State.config state) h = true ->
  m' = m
  \/ (m' = Move.collide body m
      /\ Move.collided m = false /\ Move.willMove m = true
      /\ isSafe safe (Snake.id (Move.snake m)) = false
      /\ exists o,
           occ !! cellKey h = Some o
           /\ o <> EmptyString
           /\ o <> Snake.id (Move.snake m)
           /\ isSafe safe o = false).
Proof.
  unfold checkMove. intros H Hn Hb. rewrite Hn, Hb in H. revert H.
  destruct (Move.willMove m) eqn:Ew, (Move.collided m) eqn:Ec; cbn;
    try (intros [= <-]; by left).
  destruct (occ !! cellKey h) as [o|] eqn:Eo; cbn; [|intros [= <-]; by left].
  case_bool_decide as Hempty; cbn; [intros [= <-]; by left|].
  case_bool_decide as Hself; [intros [= <-]; by left|].
  destruct (isSafe safe (Snake.id (Move.snake m))) eqn:Es; cbn;
    [intros [= <-]; by left|].
  destruct (isSafe safe o) eqn:Eso; cbn; [intros [= <-]; by left|].
  intros H. apply bind_Some in H as (b1 & _ & H).
  apply bind_Some in H as (b2 & _ & H). revert H.
  destruct (b1 && b2); [intros [= <-]; by left|].
  destruct (negb _); intros [= <-]; [|by left].
  right. split_and!; try done. exists o. split_and!; [done|done| |done]. congruence.
Qed.

Lemma buildOccupancy_from (snakes : list Snake.t) (occ0 : gmap (Z * Z) string) k o :
  (fold_left
     (fun occ snake =>
        fold_left (fun occ segment => <[cellKey segment := Snake.id snake]> occ)
                  (Snake.segments snake) occ)
     snakes occ0) !! k = Some o ->
  occ0 !! k = Some o
  \/ exists s, s ∈ snakes /\ Snake.id s = o /\ k ∈ segmentCells s.
Proof.
  revert occ0. induction snakes as [|s snakes IH]; intros occ0; cbn; [by left|].
  intros H. apply IH in H as [H|(s' & ? & ? & ?)].
  - assert (Hs : forall segs (occ : gmap (Z * Z) string),
        (fold_left (fun occ segment => <[cellKey segment := Snake.id s]> occ) segs occ)
          !! k = Some o ->
        occ !! k = Some o \/ (Snake.id s = o /\ k ∈ cellKey <$> segs)).
    { clear. induction segs as [|c segs IH]; intros occ; cbn; [by left|].
      intros H. apply IH in H as [H|[? ?]].
      - apply lookup_insert_Some in H as [[<- <-]|[_ H]]; [|by left].
        right. split; [done|]. apply elem_of_cons. by left.
      - right. split; [done|]. apply elem_of_cons. by right. }
    apply Hs in H as [H|[? ?]]; [by left|].
    right. exists s. split_and!; [apply elem_of_cons; by left|done|done].
  - right. exists s'. split_and!; [apply elem_of_cons; by right|done|done].
Qed.

Lemma buildOccupancy_lookup snakes k o :
  buildOccupancy snakes !! k = Some o ->
  exists s, s ∈ snakes /\ Snake.id s = o /\ k ∈ segmentCells s.
Proof.
  intros H. apply buildOccupancy_from in H as [H|H]; [|done].
  by rewrite lookup_empty in H.
Qed.

Lemma tickMoves_chain state commands moves rng :
  tickMoves state commands = Some (moves, rng) ->
  exists cm proposed checked,
    let prepared := map (prepareSnake state cm) (State.snakes state) in
    let safe := buildSafeLookup (State.tick state) prepared in
    commandsOfTick state commands = Some (cm, rng)
    /\ Forall2 (fun p pm => proposeMove state p = Some pm) prepared proposed
    /\ Forall2
         (fun pm chk =>
            checkMove state (buildOccupancy prepared) safe
              (buildSnakeLookup prepared) (buildMoveBySnake proposed) pm
            = Some chk)
         proposed checked
    /\ moves = resolveHeadCollisions safe checked.
Proof.
  unfold tickMoves, checkedMoves. intros H.
  apply bind_Some in H as ([[checked safe] rng'] & Hc & H).
  injection H as <- <-.
  apply bind_Some in Hc as ([cm rng''] & Hb & H).
  apply bind_Some in H as (proposed & Hp & H).
  apply bind_Some in H as (chk & Hc & H).
  injection H as <- <- <-. exists cm, proposed, chk. cbn zeta.
  split; [exact Hb|]. apply mapM_Some_1 in Hp, Hc. done.
Qed.

Lemma losers_two safe store idxs j :
  j ∈ losers safe store idxs ->
  (2 <= length (interactiveOf safe store idxs))%nat.
Proof.
  unfold losers. case_bool_decide as H1; [intros H; by apply elem_of_nil in H|].
  case_bool_decide as H2; [intros H; by apply elem_of_nil in H|]. lia.
Qed.

Lemma another_element (l : list nat) j :
  (2 <= length l)%nat -> NoDup l -> exists k, k ∈ l /\ k <> j.
Proof.
  destruct l as [|a [|b l]]; cbn; [lia|lia|]. intros _ Hnd.
  apply NoDup_cons in Hnd as [Hab _].
  destruct (decide (a = j)) as [->|Ha].
  - exists b. split; [apply elem_of_cons; right; apply elem_of_cons; by left|].
    intros ->. apply Hab. apply elem_of_cons. by left.
  - exists a. split; [apply elem_of_cons; by left|done].
Qed.

Lemma head_mark_other safe checked j m f :
  checked !! j = Some m ->
  resolveHeadCollisions safe checked !! j = Some f ->
  f = m
  \/ (f = Move.collide head m
      /\ Move.collided m = false /\ Move.willMove m = true
      /\ isSafe safe (Snake.id (Move.snake m)) = false
      /\ exists k mk,
           k <> j /\ checked !! k = Some mk
           /\ Move.collided mk = false /\ Move.willMove mk = true
           /\ cellKey <$> Move.nextHead mk = cellKey <$> Move.nextHead m
           /\ isSafe safe (Snake.id (Move.snake mk)) = false).
Proof.
  intros Hm Hf. destruct (contests m) as [cell|] eqn:Ec.
  - rewrite (resolve_contest _ _ _ _ _ Hm Ec) in Hf. injection Hf as <-.
    case_bool_decide as Hl; [|by left]. right.
    pose proof (losers_two _ _ _ _ Hl) as H2.
    pose proof (losers_interactive _ _ _ _ Hl) as Hi.
    apply interactiveOf_spec in Hi as (_ & m0 & Hm0 & Hunsafe).
    assert (m0 = m) as -> by congruence.
    destruct (another_element _ j H2 (interactiveOf_NoDup safe checked cell))
      as (k & Hk & Hkj).
    pose proof (interactive_contests _ _ _ _ Hk) as (mk & Hmk & Hck & Hcol & Hw).
    apply interactiveOf_spec in Hk as (_ & mk' & Hmk' & Hunsafek).
    assert (mk' = mk) as -> by congruence.
    unfold contests in Ec, Hck.
    destruct (Move.willMove m) eqn:Ew, (Move.collided m) eqn:Ecol; try done.
    rewrite Hw, Hcol in Hck. cbn in Ec, Hck.
    split_and!; try done. exists k, mk. split_and!; try done. congruence.
  - rewrite (resolve_idle _ _ _ _ Hm Ec) in Hf. left. congruence.
Qed.

Lemma buildOccupancy_prepared state cm snakes :
  buildOccupancy (map (prepareSnake state cm) snakes) = buildOccupancy snakes.
Proof.
  unfold buildOccupancy. generalize (∅ : gmap (Z * Z) string).
  induction snakes as [|s snakes IH]; intros occ; [done|]. cbn [map fold_left].
  pose proof (prepareSnake_fields state cm s) as (Hid & Hseg & _). cbn in Hid, Hseg.
  rewrite Hid, Hseg. apply IH.
Qed.

Lemma cellKey_inj p q : cellKey p = cellKey q -> p = q.
Proof. destruct p, q. unfold cellKey. cbn. by intros [= -> ->]. Qed.


Lemma prepareSnake_role state cm s :
  Snake.id (prepareSnake state cm s) = Snake.id s
  /\ Snake.controller (prepareSnake state cm s) = Snake.controller s.
Proof.
  pose proof (prepareSnake_fields state cm s) as (? & _ & _ & _ & _ & _ & ? & _).
  done.
Qed.

Lemma isSafe_prepared state cm s :
  NoDup (map Snake.id (State.snakes state)) ->
  s ∈ State.snakes state ->
  isSafe (buildSafeLookup (State.tick state)
            (map (prepareSnake state cm) (State.snakes state))) (Snake.id s)
  = bool_decide (State.tick state < Snake.safeUntilTick s).
Proof.
  intros Hnd Hs.
  pose proof (prepareSnake_fields state cm s) as (Hid & _ & _ & _ & _ & _ & _ & _ & _ & Hsafe).
  cbn in Hid, Hsafe. rewrite <- Hid.
  rewrite buildSafeLookup_lookup.
  - unfold isSnakeSafe. by rewrite Hsafe.
  - by rewrite prepared_ids.
  - by apply (list_elem_of_fmap_2 (prepareSnake state cm)).
Qed.

(** The move proposed for a snake of a state whose snakes all move. *)
Lemma proposed_move state cm s :
  snakeOk s ->
  exists h0 pm,
    Snake.segments s !! 0%nat = Some h0
    /\ proposeMove state (prepareSnake state cm s) = Some pm
    /\ Move.snake pm = prepareSnake state cm s
    /\ Move.willMove pm = true
    /\ Move.collided pm = false
    /\ Move.direction pm = (maybeTurn (prepareSnake state cm s)).1
    /\ Move.pendingTurn pm = (maybeTurn (prepareSnake state cm s)).2
    /\ Move.nextHead pm
       = Some (nextPosition h0 (maybeTurn (prepareSnake state cm s)).1)
    /\ Move.ateFoodId pm
       = Food.id <$> foodAt state
                       (nextPosition h0 (maybeTurn (prepareSnake state cm s)).1).
Proof.
  intros Hsok.
  pose proof (snakeOk_prepare state cm s Hsok) as Hpok.
  pose proof (snakeOk_willMove _ Hpok) as Hw.
  pose proof (prepareSnake_fields state cm s) as (_ & Hseg & _). cbn in Hseg.
  destruct Hpok as (Halive & _ & _ & _ & h0 & n & rest & Hsegs & _ & _).
  destruct (proposeMove_moving state _ h0 (n :: rest) Halive Hw Hsegs) as (tk & Epm).
  exists h0. eexists. rewrite Epm. split; [by rewrite <- Hseg, Hsegs|].
  split; [reflexivity|]. cbn. done.
Qed.

Lemma tickMoves_verdict state commands moves rng :
  stateOk state -> NoDup (map Snake.id (State.snakes state)) ->
  tickMoves state commands = Some (moves, rng) ->
  exists cm,
    commandsOfTick state commands = Some (cm, rng)
    /\ Forall2 (verdict state cm) (State.snakes state) moves.
Proof.
  intros (Hok & _ & _) Hnd H.
  apply tickMoves_chain in H as (cm & proposed & checked & Hcm & Hp & Hc & ->).
  cbn zeta in *. exists cm. split; [exact Hcm|].
  apply Forall2_fmap_l in Hp.
  set (safe := buildSafeLookup _ _) in *.
  assert (Hsnake : forall i s, State.snakes state !! i = Some s ->
            exists h0 pm chk,
              Snake.segments s !! 0%nat = Some h0
              /\ proposed !! i = Some pm /\ checked !! i = Some chk
              /\ proposeMove state (prepareSnake state cm s) = Some pm
              /\ checkMove state
                   (buildOccupancy (map (prepareSnake state cm) (State.snakes state)))
                   safe
                   (buildSnakeLookup (map (prepareSnake state cm) (State.snakes state)))
                   (buildMoveBySnake proposed) pm = Some chk
              /\ Move.snake pm = prepareSnake state cm s
              /\ Move.willMove pm = true /\ Move.collided pm = false
              /\ Move.direction pm = (maybeTurn (prepareSnake state cm s)).1
              /\ Move.pendingTurn pm = (maybeTurn (prepareSnake state cm s)).2
              /\ Move.nextHead pm
                 = Some (nextPosition h0 (maybeTurn (prepareSnake state cm s)).1)
              /\ Move.ateFoodId pm
                 = Food.id <$> foodAt state
                     (nextPosition h0 (maybeTurn (prepareSnake state cm s)).1)).
  { intros i s Hs.
    destruct (Forall2_lookup_l _ _ _ _ _ Hp Hs) as (pm & Hpm & Hprop).
    destruct (Forall2_lookup_l _ _ _ _ _ Hc Hpm) as (chk & Hchk & Hcheck).
    assert (Hsin : s ∈ State.snakes state) by (by eapply list_elem_of_lookup_2).
    destruct (proposed_move state cm s (proj1 (Forall_forall _ _) Hok s Hsin))
      as (h0 & pm' & Hh & Hprop' & Hrest).
    assert (pm' = pm) as -> by congruence.
    exists h0, pm, chk. split_and!; try done; apply Hrest. }
  apply Forall2_same_length_lookup. split.
  { rewrite resolveHeadCollisions_length.
    by rewrite (Forall2_length _ _ _ Hp), (Forall2_length _ _ _ Hc). }
  intros i s m Hs Hmi.
  destruct (Hsnake i s Hs)
    as (h0 & pm & chk & Hh & Hpm & Hchk & Hprop & Hcheck & Hsn & Hw & Hcol & Hd & Hpt & Hn & Hate).
  assert (Hsin : s ∈ State.snakes state) by (by eapply list_elem_of_lookup_2).
  pose proof (prepareSnake_role state cm s) as [Hid _].
  exists h0, pm. do 9 (split; [done|]).
  set (nh := nextPosition h0 _) in *.
  destruct (inBounds (State.config state) nh) eqn:Eb.
  - assert (Hunsafe : forall k t mk,
              State.snakes state !! k = Some t ->
              Move.snake mk = prepareSnake state cm t ->
              isSafe safe (Snake.id (Move.snake mk)) = false ->
              Snake.safeUntilTick t <= State.tick state).
    { intros k t mk Hk -> Hu. destruct (prepareSnake_role state cm t) as [Hidt _].
      rewrite Hidt in Hu. unfold safe in Hu. rewrite isSafe_prepared in Hu;
        [|done|by eapply list_elem_of_lookup_2].
      apply bool_decide_eq_false in Hu. lia. }
    eapply checkMove_inside in Hcheck
      as [->|(-> & _ & _ & Hu & o & Ho & Hoe & Hne & Hoso)]; [| |exact Hn|exact Eb].
    + destruct (head_mark_other _ _ _ _ _ Hchk Hmi)
        as [->|(-> & _ & _ & Hu & k & mk & Hki & Hmk & Hck & Hwk & Hcell & Huk)];
        [by left|].
      right; right. split; [done|]. split; [by eapply Hunsafe|].
      destruct (lookup_lt_is_Some_2 (State.snakes state) k) as [other Hother].
      { rewrite (Forall2_length _ _ _ Hp), (Forall2_length _ _ _ Hc).
        by eapply lookup_lt_Some. }
      destruct (Hsnake k other Hother)
        as (h & pmk & chk' & Hhk & Hpmk & Hchk' & _ & Hcheckk & Hsnk & _ & _ & _ & _ & Hnk & _).
      assert (chk' = mk) as -> by congruence.
      assert (mk = pmk) as ->.
      { apply checkMove_cases in Hcheckk as [->|[(-> & _)|(-> & _)]]; done. }
      exists other, h. split_and!.
      * by eapply list_elem_of_lookup_2.
      * intros E. apply Hki. eapply NoDup_lookup; [exact Hnd| |].
        -- rewrite list_lookup_fmap, Hother. reflexivity.
        -- rewrite list_lookup_fmap, Hs. cbn. by rewrite E.
      * done.
      * rewrite Hnk, Hn in Hcell. cbn in Hcell. injection Hcell as Hx Hy.
        unfold nh, nextPosition. by rewrite Hx, Hy.
      * by eapply Hunsafe.
    + destruct (head_mark_other _ _ _ _ _ Hchk Hmi) as [->|(_ & Hcc & _)]; [|done].
      right; left. split; [done|].
      split; [by eapply (Hunsafe i s pm)|].
      rewrite buildOccupancy_prepared in Ho. pose proof Ho as Ho0.
      apply buildOccupancy_lookup in Ho as (other & Hother & Hoid & Hcell).
      exists other. split_and!; [done|by rewrite Hoid|by rewrite Hoid| |done|].
      * rewrite Hsn, Hid in Hne. congruence.
      * apply list_elem_of_lookup in Hother as [k Hk].
        eapply (Hunsafe k other (Move.mk (prepareSnake state cm other) true Up None 0
                                   None None 0 None false None None));
          [done|done|]. cbn. destruct (prepareSnake_role state cm other) as [-> _].
        by rewrite Hoid.
  - eapply checkMove_outside in Hcheck as ->; [|done..].
    destruct (head_mark_other _ _ _ _ _ Hchk Hmi) as [->|(_ & Hcc & _)]; done.
Qed.

(** ** The survivors of a tick *)

Lemma nextPosition_adjacent h d : manhattanDistance (nextPosition h d) h = 1.
Proof. destruct d; unfold manhattanDistance; cbn; lia. Qed.

Lemma contiguous_removelast l : contiguous l -> contiguous (removelast l).
Proof.
  induction l as [|a [|b [|c l]] IH]; cbn; try done.
  intros (? & ? & ?). split; [done|]. apply IH. by split.
Qed.

Lemma elem_of_removelast {A} (l : list A) a : a ∈ removelast l -> a ∈ l.
Proof.
  induction l as [|b [|c l] IH]; cbn; try done.
  - intros H. by apply elem_of_nil in H.
  - intros H. apply elem_of_cons in H as [->|H]; [apply elem_of_cons; by left|].
    apply elem_of_cons. right. by apply IH.
Qed.

Lemma verdict_survivor state cm s m :
  verdict state cm s m ->
  Snake.alive (applyMove state m) = true ->
  exists h0 nh,
    Snake.segments s !! 0%nat = Some h0
    /\ nh = nextPosition h0 (maybeTurn (prepareSnake state cm s)).1
    /\ inBounds (State.config state) nh = true
    /\ Move.collided m = false
    /\ Move.ateFoodId m = Food.id <$> foodAt state nh
    /\ Snake.direction (applyMove state m) = (maybeTurn (prepareSnake state cm s)).1
    /\ (Snake.segments (applyMove state m) = nh :: Snake.segments s
        \/ Snake.segments (applyMove state m) = removelast (nh :: Snake.segments s)).
Proof.
  intros (h0 & pm & Hh & Hprop & Hsn & Hw & Hc & Hd & Hpt & Hn & Hate & Hv) Ha.
  pose proof (prepareSnake_fields state cm s) as (_ & Hseg & _). cbn in Hseg.
  assert (Hm : m = pm /\ inBounds (State.config state)
                          (nextPosition h0 (maybeTurn (prepareSnake state cm s)).1) = true).
  { revert Hv. destruct (inBounds _ _); intros Hv.
    - destruct Hv as [->|[(-> & _)|(-> & _)]]; [done|exfalso..];
        unfold applyMove in Ha; cbn in Ha; rewrite Hw in Ha;
        destruct (Snake.alive (Move.snake pm)) eqn:Eal; cbn in Ha; congruence.
    - subst m. exfalso. unfold applyMove in Ha; cbn in Ha; rewrite Hw in Ha;
        destruct (Snake.alive (Move.snake pm)) eqn:Eal; cbn in Ha; congruence. }
  destruct Hm as [-> Hb]. exists h0, (nextPosition h0 (maybeTurn (prepareSnake state cm s)).1).
  split_and!; try done.
  - unfold applyMove in *. rewrite Hw, Hc, Hn, Hd in *.
    destruct (Snake.alive (Move.snake pm)) eqn:Eal; cbn in *; [|congruence].
    by destruct (bool_decide _).
  - unfold applyMove in *. rewrite Hw, Hc, Hn, Hsn, Hseg in *.
    destruct (Snake.alive (prepareSnake state cm s)) eqn:Eal; cbn in *; [|congruence].
    destruct (bool_decide _); cbn; [by left|by right].
Qed.

Lemma survivor_body state cm s m :
  verdict state cm s m ->
  Snake.alive (applyMove state m) = true ->
  bodyOk (State.config state) s ->
  bodyOk (State.config state) (applyMove state m).
Proof.
  intros Hv Ha [Hin Hcont].
  apply verdict_survivor in Hv as (h0 & nh & Hh & -> & Hb & _ & _ & _ & Hsegs); [|done].
  destruct (Snake.segments s) as [|h rest] eqn:Es; [done|]. injection Hh as ->.
  assert (Hfull : Forall (fun p => inBounds (State.config state) p = true)
                         (nextPosition h0 (maybeTurn (prepareSnake state cm s)).1
                          :: h0 :: rest)
                  /\ contiguous (nextPosition h0 (maybeTurn (prepareSnake state cm s)).1
                                 :: h0 :: rest)).
  { split; [by constructor|]. split; [apply nextPosition_adjacent|done]. }
  destruct Hfull as [Hfin Hfc]. unfold bodyOk. destruct Hsegs as [->| ->]; split; try done.
  - apply Forall_forall. intros p Hp. apply elem_of_removelast in Hp.
    by apply (proj1 (Forall_forall _ _) Hfin).
  - by apply contiguous_removelast.
Qed.

Lemma foodsAfterEat_elem state moves f :
  f ∈ foodsAfterEat state moves
  <-> f ∈ State.foods state
      /\ forall m, m ∈ moves -> Move.ateFoodId m <> Some (Food.id f).
Proof.
  unfold foodsAfterEat. rewrite list_elem_of_In, filter_In, <- list_elem_of_In.
  rewrite negb_true_iff. split; intros [Hf H]; (split; [done|]).
  - intros m Hm E. apply not_true_iff_false in H. apply H. apply existsb_exists.
    exists m. split; [by apply list_elem_of_In|by apply bool_decide_eq_true].
  - apply not_true_iff_false. intros He. apply existsb_exists in He as (m & Hm & E).
    apply bool_decide_eq_true in E. apply (H m); [by apply list_elem_of_In|done].
Qed.


Lemma foodAt_cell state pos f :
  NoDup (foodCells (State.foods state)) ->
  f ∈ State.foods state -> Food.position f = pos ->
  foodAt state pos = Some f.
Proof.
  intros Hnd Hf <-. unfold foodAt.
  destruct (List.find _ _) as [f'|] eqn:E.
  - apply find_some in E as [Hin Hp]. apply list_elem_of_In in Hin.
    apply andb_true_iff in Hp as [Hx Hy].
    apply bool_decide_eq_true in Hx, Hy. f_equal.
    apply (NoDup_fmap_eq (fun f => cellKey (Food.position f)) (State.foods state));
      [done..|]. unfold cellKey. by rewrite Hx, Hy.
  - eapply find_none in E; [|by apply list_elem_of_In].
    by rewrite !bool_decide_eq_true_2 in E.
Qed.

Lemma survivor_food state cm s m moves f :
  verdict state cm s m -> m ∈ moves ->
  Snake.alive (applyMove state m) = true ->
  NoDup (foodCells (State.foods state)) ->
  (forall f, f ∈ State.foods state -> cellKey (Food.position f) ∉ segmentCells s) ->
  f ∈ foodsAfterEat state moves ->
  cellKey (Food.position f) ∉ segmentCells (applyMove state m).
Proof.
  intros Hv Hm Ha Hnd Hfree Hf.
  apply verdict_survivor in Hv as (h0 & nh & Hh & Hnh & Hb & _ & Hate & _ & Hsegs);
    [|done].
  apply foodsAfterEat_elem in Hf as [Hf Hne].
  assert (Hall : cellKey (Food.position f) ∉ cellKey <$> (nh :: Snake.segments s)).
  { rewrite fmap_cons. apply not_elem_of_cons. split; [|by apply Hfree].
    intros E. apply cellKey_inj in E.
    apply (Hne m Hm). rewrite Hate. by rewrite (foodAt_cell state nh f). }
  unfold segmentCells. destruct Hsegs as [->| ->]; [done|].
  intros Hk. apply Hall. apply list_elem_of_fmap in Hk as (p & -> & Hp).
  apply list_elem_of_fmap_2. by apply elem_of_removelast.
Qed.

(** ** The snakes a tick brings back *)

Lemma fits_spec config occupied s :
  fits config occupied s = true
  <-> Forall (fun p => inBounds config p = true) (Snake.segments s)
      /\ forall k, k ∈ segmentCells s -> k ∉ occupied.
Proof.
  unfold fits, segmentCells. rewrite forallb_forall, Forall_forall. split.
  - intros H. split.
    + intros p Hp. apply list_elem_of_In, H, andb_true_iff in Hp. tauto.
    + intros k Hk. apply list_elem_of_fmap in Hk as (p & -> & Hp).
      apply list_elem_of_In, H, andb_true_iff in Hp as [_ Hp].
      apply negb_true_iff, bool_decide_eq_false in Hp. done.
  - intros [Hin Hfree] p Hp. apply list_elem_of_In in Hp. apply andb_true_iff. split.
    + by apply Hin.
    + apply negb_true_iff, bool_decide_eq_false, Hfree. by apply list_elem_of_fmap_2.
Qed.

Lemma trySpawn_fits state ticket layouts occupied startIndex s :
  trySpawn state ticket layouts occupied startIndex = Some s ->
  fits (State.config state) occupied s = true.
Proof. unfold trySpawn. intros H. by apply find_some in H as [_ H]. Qed.

Lemma respawnInv_same config occ0 acc acc' :
  Respawn.occupied acc' = Respawn.occupied acc ->
  Respawn.respawnedSnakes acc' = Respawn.respawnedSnakes acc ->
  respawnInv config occ0 acc -> respawnInv config occ0 acc'.
Proof. unfold respawnInv. by intros -> ->. Qed.

Lemma respawnInv_spawn state ticket layouts startIndex occ0 acc s rng queue :
  respawnInv (State.config state) occ0 acc ->
  trySpawn state ticket layouts (Respawn.occupied acc) startIndex = Some s ->
  respawnInv (State.config state) occ0
    (Respawn.mk rng (addCells (Snake.segments s) (Respawn.occupied acc))
       (Respawn.respawnedSnakes acc ++ [s]) queue).
Proof.
  intros (Hocc & Hall & Hpair) Hs.
  pose proof (trySpawn_fits _ _ _ _ _ _ Hs) as Hfit.
  apply fits_spec in Hfit as [Hin Hfree].
  apply trySpawn_built in Hs as (layout & _ & Hbuilt).
  unfold respawnInv. cbn. split_and!.
  - intros k. rewrite elem_of_addCells, Hocc. split.
    + intros [[?|(a & Ha & ?)]|?]; [by left|right; exists a|right; exists s];
        (split; [|done]); apply elem_of_app; [by left|right; by apply list_elem_of_singleton].
    + intros [?|(a & Ha & ?)]; [by left; left|].
      apply elem_of_app in Ha as [Ha|Ha]; [left; right; by exists a|].
      apply list_elem_of_singleton in Ha as ->. by right.
  - apply Forall_app. split; [done|]. constructor; [|done]. split.
    + split; [done|]. rewrite Hbuilt. apply buildSnake_contiguous.
    + intros k Hk Hk0. apply (Hfree k Hk). apply Hocc. by left.
  - intros i j a b Hij Ha Hb.
    destruct (decide (j < length (Respawn.respawnedSnakes acc))%nat) as [Hj|Hj].
    + rewrite lookup_app_l in Ha by lia. rewrite lookup_app_l in Hb by lia.
      exact (Hpair i j a b Hij Ha Hb).
    + rewrite lookup_app_r in Hb by lia.
      destruct (j - length (Respawn.respawnedSnakes acc))%nat eqn:Ej; [|done].
      injection Hb as <-.
      assert (Hi : (i < length (Respawn.respawnedSnakes acc))%nat) by lia.
      rewrite lookup_app_l in Ha by lia.
      assert (Hd : forall k, k ∈ segmentCells a -> k ∉ segmentCells s).
      { intros k Hka Hks. apply (Hfree k Hks). apply Hocc. right. exists a.
        split; [by eapply list_elem_of_lookup_2|done]. }
      split; [exact Hd|]. intros k Hks Hka. by apply (Hd k).
Qed.

Lemma processTicket_inv state layouts occ0 acc ticket :
  respawnInv (State.config state) occ0 acc ->
  respawnInv (State.config state) occ0 (processTicket state layouts acc ticket).
Proof.
  intros Hinv. unfold processTicket.
  destruct (bool_decide (Ticket.controller ticket <> ai)).
  { destruct (bool_decide _); [|done]. by eapply respawnInv_same. }
  destruct (bool_decide (0 < Ticket.ticksRemaining ticket - 1)).
  { by eapply respawnInv_same. }
  destruct (bool_decide (0 < length layouts)%nat).
  - destruct (next (Respawn.rng acc)) as [v rng].
    destruct (trySpawn _ _ _ _ _) as [s|] eqn:Es.
    + by eapply respawnInv_spawn.
    + by eapply respawnInv_same.
  - by eapply respawnInv_same.
Qed.

Lemma respawnAll_inv state rng moves :
  respawnInv (State.config state)
    (occupiedCells (List.filter Snake.alive (map (applyMove state) moves))
                   (foodsAfterEat state moves))
    (respawnAll state rng moves).
Proof.
  unfold respawnAll.
  set (occ0 := occupiedCells _ _).
  assert (H0 : respawnInv (State.config state) occ0 (Respawn.mk rng occ0 [] [])).
  { unfold respawnInv. cbn. split_and!; [|constructor|].
    - intros k. split; [by left|]. intros [?|(s & Hs & _)]; [done|].
      by apply elem_of_nil in Hs.
    - intros i j a b _ Ha. done. }
  revert H0. generalize (Respawn.mk rng occ0 [] []).
  generalize (State.respawnQueue state ++ respawnTicketsToAdd moves).
  intros queue. induction queue as [|t queue IH]; intros acc Hacc; cbn; [done|].
  apply IH. by apply processTicket_inv.
Qed.

(** ** The board of a reachable state *)

Lemma finishTick_board state commands moves rng :
  stateOk state -> NoDup (map Snake.id (State.snakes state)) ->
  boardOk state ->
  tickMoves state commands = Some (moves, rng) ->
  boardOk (finishTick state rng moves).
Proof.
  intros Hok Hnd (Hc & Hr & Hbodies & Hfin & Hfnd & Hffree) Ht.
  apply tickMoves_verdict in Ht as (cm & _ & Hv); [|done..].
  pose proof (respawnAll_inv state rng moves) as (Hocc & Hresp & _).
  set (survivors := List.filter Snake.alive (map (applyMove state) moves)) in *.
  set (r := respawnAll state rng moves) in *.
  assert (Hsurv : forall t, t ∈ survivors ->
            bodyOk (State.config state) t
            /\ forall f, f ∈ foodsAfterEat state moves ->
                 cellKey (Food.position f) ∉ segmentCells t).
  { intros t Hin. apply list_elem_of_In, filter_In in Hin as [Hin Halive].
    apply list_elem_of_In, list_elem_of_fmap in Hin as (m & -> & Hm).
    apply list_elem_of_lookup in Hm as [i Hi].
    destruct (Forall2_lookup_r _ _ _ _ _ Hv Hi) as (s & Hs & Hvs).
    assert (Hsin : s ∈ State.snakes state) by (by eapply list_elem_of_lookup_2).
    split.
    - eapply survivor_body; [done..|]. by apply (proj1 (Forall_forall _ _) Hbodies).
    - intros f Hf. eapply survivor_food; [done| |done..| |done].
      + by eapply list_elem_of_lookup_2.
      + intros f' Hf'. by apply Hffree. }
  assert (Hsnakes : State.snakes (finishTick state rng moves)
                    = survivors ++ Respawn.respawnedSnakes r) by reflexivity.
  unfold finishTick. fold survivors r.
  set (st := State.mk (State.tick state + 1) _ _ (foodsAfterEat state moves) _ _ _).
  pose proof (replenishFood_fields st (Respawn.rng r)) as (_ & Hcfg & Hsn & _).
  cbn -[replenishFood]. rewrite Hcfg. cbn -[replenishFood].
  unfold boardOk. cbn -[replenishFood]. split_and!; [done|done| |].
  - apply Forall_app. split.
    + apply Forall_forall. intros t Hin. by apply Hsurv.
    + eapply Forall_impl; [exact Hresp|]. by intros t [? _].
  - apply (replenishFood_placed st (Respawn.rng r)); [cbn; lia..|].
    cbn. split_and!.
    + apply Forall_forall. intros f Hf. apply foodsAfterEat_elem in Hf as [Hf _].
      by apply (proj1 (Forall_forall _ _) Hfin).
    + unfold foodCells, foodsAfterEat.
      apply (NoDup_fmap_2_strong _); [|apply NoDup_ListNoDup, List.NoDup_filter,
                                         NoDup_ListNoDup; by eapply NoDup_fmap_1].
      intros a b Ha Hb E. apply list_elem_of_In, filter_In in Ha as [Ha _], Hb as [Hb _].
      apply list_elem_of_In in Ha, Hb.
      by apply (NoDup_fmap_eq (fun f => cellKey (Food.position f)) (State.foods state)).
    + intros t f Ht Hf. apply elem_of_app in Ht as [Ht|Ht].
      * by apply Hsurv.
      * pose proof (proj1 (Forall_forall _ _) Hresp t Ht) as [_ Hfree].
        intros Hk. apply (Hfree _ Hk). apply elem_of_occupiedCells. right.
        by apply (list_elem_of_fmap_2 (fun f => cellKey (Food.position f))).
Qed.

Lemma idsOk_snakes state : idsOk state -> NoDup (map Snake.id (State.snakes state)).
Proof. unfold idsOk. intros H. by apply NoDup_app in H as [H _]. Qed.

Lemma advanceState_board state commands state' :
  stateOk state -> idsOk state -> boardOk state ->
  advanceState state commands = Some state' -> boardOk state'.
Proof.
  intros Hok Hids Hb. unfold advanceState. case_bool_decide as Hst.
  { by intros [= <-]. }
  intros H. apply bind_Some in H as ([moves rng] & Ht & [= <-]).
  eapply finishTick_board; [done|by apply idsOk_snakes|done..].
Qed.

Lemma reachable_board state : reachable state -> boardOk state.
Proof.
  induction 1 as [pc state H|state commands state' Hr IH H].
  - by eapply createInitialState_board.
  - eapply advanceState_board; [by apply reachable_ok|by apply reachable_idsOk|done..].
Qed.



(** X4: in every state the engine can reach, the foods lie on the grid, no
    two of them on the same cell, and none under a segment of a snake. *)
Theorem foods_on_free_cells (state : State.t) :
  reachable state ->
  Forall (fun f => 0 <= x (Food.position f) < Config.cols (State.config state)
                   /\ 0 <= y (Food.position f) < Config.rows (State.config state))
         (State.foods state)
  /\ NoDup (Food.position <$> State.foods state)
  /\ forall s f, s ∈ State.snakes state -> f ∈ State.foods state ->
       Food.position f ∉ Snake.segments s.
Proof.
  intros Hr. pose proof (reachable_board _ Hr) as (_ & _ & _ & Hin & Hnd & Hfree).
  split_and!.
  - eapply Forall_impl; [exact Hin|]. intros f. apply inBounds_iff.
  - unfold foodCells in Hnd. rewrite (list_fmap_compose Food.position cellKey) in Hnd.
    by eapply NoDup_fmap_1.
  - intros s f Hs Hf Hp. apply (Hfree s f Hs Hf). by apply list_elem_of_fmap_2.
Qed.

Lemma foods_on_free_cells_witness :
  NoDup (Food.position <$> State.foods afterRespawn).
Proof.
  refine (proj1 (proj2 (foods_on_free_cells afterRespawn _))).
  apply (run_reachable wallRunConfig (wallRunTicks 27)). vm_compute. reflexivity.
Defined.

(** ** The respawn queue *)

Lemma trySpawn_some state ticket layouts occupied startIndex s :
  trySpawn state ticket layouts occupied startIndex = Some s ->
  exists layout,
    layout ∈ layouts
    /\ s = spawnBody state ticket layout
    /\ fits (State.config state) occupied s = true.
Proof.
  intros H. pose proof (trySpawn_fits _ _ _ _ _ _ H) as Hf.
  apply trySpawn_built in H as (layout & Hl & ->). by exists layout.
Qed.

Lemma trySpawn_none state ticket layouts occupied startIndex layout :
  trySpawn state ticket layouts occupied startIndex = None ->
  layout ∈ layouts ->
  fits (State.config state) occupied (spawnBody state ticket layout) = false.
Proof.
  unfold trySpawn. intros H Hl.
  apply list_elem_of_lookup in Hl as [j Hj].
  pose proof (lookup_lt_Some _ _ _ Hj) as Hlt.
  set (n := length layouts) in *.
  set (i := Z.to_nat ((Z.of_nat j - startIndex) mod Z.of_nat n)).
  assert (Hi : (i < n)%nat).
  { unfold i. pose proof (Z.mod_pos_bound (Z.of_nat j - startIndex) (Z.of_nat n)). lia. }
  assert (Hrot : Z.to_nat ((startIndex + Z.of_nat i) mod Z.of_nat n) = j).
  { unfold i. rewrite Z2Nat.id by (apply Z.mod_pos_bound; lia).
    rewrite Zplus_mod_idemp_r.
    replace (startIndex + (Z.of_nat j - startIndex)) with (Z.of_nat j) by lia.
    rewrite Z.mod_small by lia. lia. }
  eapply find_none in H; [exact H|].
  apply list_elem_of_In, list_elem_of_omap. exists i. split.
  - apply list_elem_of_In, in_seq. lia.
  - rewrite Hrot, Hj. reflexivity.
Qed.

Lemma processTicket_cases state layouts acc t :
  let r := processTicket state layouts acc t in
  (1 < Ticket.ticksRemaining t
   /\ Respawn.respawnedSnakes r = Respawn.respawnedSnakes acc
   /\ Respawn.updatedQueue r
      = Respawn.updatedQueue acc ++ [withTicks t (Ticket.ticksRemaining t - 1)])
  \/ (Ticket.ticksRemaining t <= 1 /\ Ticket.controller t <> ai /\ r = acc)
  \/ (Ticket.ticksRemaining t <= 1 /\ Ticket.controller t = ai
      /\ ((exists layout,
             layout ∈ layouts
             /\ fits (State.config state) (Respawn.occupied acc)
                  (spawnBody state t layout) = true
             /\ Respawn.respawnedSnakes r
                = Respawn.respawnedSnakes acc ++ [spawnBody state t layout]
             /\ Respawn.updatedQueue r = Respawn.updatedQueue acc)
          \/ ((forall layout, layout ∈ layouts ->
                 fits (State.config state) (Respawn.occupied acc)
                   (spawnBody state t layout) = false)
              /\ Respawn.respawnedSnakes r = Respawn.respawnedSnakes acc
              /\ Respawn.updatedQueue r = Respawn.updatedQueue acc ++ [withTicks t 1]))).
Proof.
  cbn zeta. unfold processTicket.
  case_bool_decide as Hc; case_bool_decide as Hr; cbn.
  - left. split; [lia|done].
  - right; left. split; [lia|done].
  - left. split; [lia|done].
  - right; right. split; [lia|]. split; [by destruct (Ticket.controller t)|].
    case_bool_decide as Hn.
    + destruct (next (Respawn.rng acc)) as [v rng].
      destruct (trySpawn _ _ _ _ _) as [s|] eqn:Es; cbn.
      * left. apply trySpawn_some in Es as (layout & Hl & -> & Hf). by exists layout.
      * right. split; [|done]. intros layout Hl. by eapply trySpawn_none.
    + right. split; [|done]. intros layout Hl. destruct layouts; [|cbn in Hn; lia].
      by apply elem_of_nil in Hl.
Qed.

Lemma queueOutcome_nil state layouts : queueOutcome state layouts [] [] [].
Proof.
  split_and!; [constructor|constructor|]. intros t Ht. by apply elem_of_nil in Ht.
Qed.

Lemma queueOutcome_cons state layouts t queue new1 kept1 new kept :
  queueOutcome state layouts [t] new1 kept1 ->
  queueOutcome state layouts queue new kept ->
  queueOutcome state layouts (t :: queue) (new1 ++ new) (kept1 ++ kept).
Proof.
  intros (Hn1 & Hk1 & Ha1) (Hn & Hk & Ha). split_and!.
  - apply Forall_app. split.
    + eapply Forall_impl; [exact Hn1|]. intros s (t' & l & Ht' & ?).
      apply list_elem_of_singleton in Ht' as ->. exists t, l. split; [|done].
      apply elem_of_cons. by left.
    + eapply Forall_impl; [exact Hn|]. intros s (t' & l & Ht' & ?).
      exists t', l. split; [|done]. apply elem_of_cons. by right.
  - apply Forall_app. split.
    + eapply Forall_impl; [exact Hk1|]. intros k (t' & Ht' & ?).
      apply list_elem_of_singleton in Ht' as ->. exists t. split; [|done].
      apply elem_of_cons. by left.
    + eapply Forall_impl; [exact Hk|]. intros k (t' & Ht' & ?).
      exists t'. split; [|done]. apply elem_of_cons. by right.
  - intros t' Ht'. apply elem_of_cons in Ht' as [->|Ht'].
    + destruct (Ha1 t) as [H1 H2]; [by apply list_elem_of_singleton|]. split.
      * intros Hr. apply elem_of_app. left. by apply H1.
      * intros Hr Hc. destruct (H2 Hr Hc) as [(l & Hl & Hs)|Hq].
        -- left. exists l. split; [done|]. apply elem_of_app. by left.
        -- right. apply elem_of_app. by left.
    + destruct (Ha t' Ht') as [H1 H2]. split.
      * intros Hr. apply elem_of_app. right. by apply H1.
      * intros Hr Hc. destruct (H2 Hr Hc) as [(l & Hl & Hs)|Hq].
        -- left. exists l. split; [done|]. apply elem_of_app. by right.
        -- right. apply elem_of_app. by right.
Qed.

Lemma processTicket_outcome state layouts acc t :
  exists new kept,
    Respawn.respawnedSnakes (processTicket state layouts acc t)
    = Respawn.respawnedSnakes acc ++ new
    /\ Respawn.updatedQueue (processTicket state layouts acc t)
       = Respawn.updatedQueue acc ++ kept
    /\ queueOutcome state layouts [t] new kept.
Proof.
  destruct (processTicket_cases state layouts acc t)
    as [(Hr & -> & ->)|[(Hr & Hc & ->)|(Hr & Hc & [(l & Hl & Hf & -> & ->)|(Hno & -> & ->)])]].
  - exists [], [withTicks t (Ticket.ticksRemaining t - 1)]. rewrite app_nil_r.
    split; [done|]. split; [done|]. split_and!; [constructor| |].
    + constructor; [|constructor]. exists t. split; [by apply list_elem_of_singleton|].
      left. done.
    + intros t' Ht'. apply list_elem_of_singleton in Ht' as ->. split.
      * intros _. by apply list_elem_of_singleton.
      * lia.
  - exists [], []. rewrite !app_nil_r. split; [done|]. split; [done|]. split_and!; [constructor|constructor|].
    intros t' Ht'. apply list_elem_of_singleton in Ht' as ->. split; [lia|done].
  - exists [spawnBody state t l], []. rewrite app_nil_r.
    split; [done|]. split; [done|]. split_and!; [ |constructor|].
    + constructor; [|constructor]. exists t, l. split; [by apply list_elem_of_singleton|done].
    + intros t' Ht'. apply list_elem_of_singleton in Ht' as ->. split; [lia|].
      intros _ _. left. exists l. split; [done|]. by apply list_elem_of_singleton.
  - exists [], [withTicks t 1]. rewrite app_nil_r.
    split; [done|]. split; [done|]. split_and!; [constructor| |].
    + constructor; [|constructor]. exists t. split; [by apply list_elem_of_singleton|].
      right. done.
    + intros t' Ht'. apply list_elem_of_singleton in Ht' as ->. split; [lia|].
      intros _ _. right. by apply list_elem_of_singleton.
Qed.

Lemma processTickets_outcome state layouts queue acc :
  exists new kept,
    Respawn.respawnedSnakes (fold_left (processTicket state layouts) queue acc)
    = Respawn.respawnedSnakes acc ++ new
    /\ Respawn.updatedQueue (fold_left (processTicket state layouts) queue acc)
       = Respawn.updatedQueue acc ++ kept
    /\ queueOutcome state layouts queue new kept.
Proof.
  revert acc. induction queue as [|t queue IH]; intros acc; cbn.
  - exists [], []. rewrite !app_nil_r. split; [done|]. split; [done|]. apply queueOutcome_nil.
  - destruct (processTicket_outcome state layouts acc t) as (new1 & kept1 & Hn1 & Hk1 & Ho1).
    destruct (IH (processTicket state layouts acc t)) as (new & kept & -> & -> & Ho).
    exists (new1 ++ new), (kept1 ++ kept). rewrite Hn1, Hk1, <- !app_assoc.
    split; [done|]. split; [done|]. by apply queueOutcome_cons.
Qed.

Lemma respawnAll_outcome state rng moves :
  queueOutcome state (createSpawnPoints (State.config state))
    (State.respawnQueue state ++ respawnTicketsToAdd moves)
    (Respawn.respawnedSnakes (respawnAll state rng moves))
    (Respawn.updatedQueue (respawnAll state rng moves)).
Proof.
  unfold respawnAll.
  destruct (processTickets_outcome state (createSpawnPoints (State.config state))
              (State.respawnQueue state ++ respawnTicketsToAdd moves)
              (Respawn.mk rng
                 (occupiedCells (List.filter Snake.alive (map (applyMove state) moves))
                    (foodsAfterEat state moves)) [] []))
    as (new & kept & -> & -> & Ho).
  exact Ho.
Qed.

(** ** Who is who *)

Lemma applyMove_controller state m :
  Snake.controller (applyMove state m) = Snake.controller (Move.snake m).
Proof.
  unfold applyMove.
  destruct (Snake.alive (Move.snake m)), (Move.willMove m), (Move.collided m);
    cbn; try done.
  by destruct (bool_decide _).
Qed.

Lemma tickMoves_snakes state commands moves rng :
  tickMoves state commands = Some (moves, rng) ->
  exists cm,
    commandsOfTick state commands = Some (cm, rng)
    /\ Forall2 (fun s m => Move.snake m = prepareSnake state cm s)
               (State.snakes state) moves.
Proof.
  intros H. apply tickMoves_spec in H as (cm & Hcm & H). exists cm. split; [done|].
  eapply Forall2_impl; [exact H|]. intros s m (pm & Hp & Hs). cbn.
  apply settled_snake in Hs as ->. by eapply proposeMove_snake.
Qed.


Lemma ai_id_not_player (i : nat) : "ai-" +:+ pretty i <> "player".
Proof. cbn. discriminate. Qed.

Lemma createInitialState_roles pc state :
  createInitialState pc = Some state -> rolesOk state.
Proof.
  intros H. apply createInitialState_snakes in H as (l & _ & Hs & _ & _ & Hst & Hq).
  unfold rolesOk. rewrite Hs, Hst, Hq. split_and!.
  - constructor; [done|]. apply Forall_forall. intros s Hin.
    apply initialAi_built in Hin as (i & l' & _ & ->). cbn. split; [done|].
    intros E. by apply ai_id_not_player in E.
  - constructor.
  - split; [|done]. intros _. eexists. split; [apply elem_of_cons; by left|done].
Qed.

Lemma finishTick_roles state commands moves rng :
  rolesOk state -> tickMoves state commands = Some (moves, rng) ->
  rolesOk (finishTick state rng moves).
Proof.
  intros (Hsn & Hq & _) Ht.
  apply tickMoves_snakes in Ht as (cm & _ & Hm).
  pose proof (respawnAll_outcome state rng moves) as (Hnew & Hkept & _).
  assert (Hmove : forall m, m ∈ moves ->
            Snake.controller (Move.snake m) = player
            <-> Snake.id (Move.snake m) = "player").
  { intros m Hin. apply list_elem_of_lookup in Hin as [i Hi].
    destruct (Forall2_lookup_r _ _ _ _ _ Hm Hi) as (s & Hs & ->).
    destruct (prepareSnake_role state cm s) as [-> ->].
    apply (proj1 (Forall_forall _ _) Hsn). by eapply list_elem_of_lookup_2. }
  assert (Hqueue : forall t, t ∈ State.respawnQueue state ++ respawnTicketsToAdd moves ->
            Ticket.controller t = ai /\ Ticket.snakeId t <> "player"
            /\ 1 <= Ticket.ticksRemaining t <= RESPAWN_DELAY_TICKS).
  { intros t Hin. apply elem_of_app in Hin as [Hin|Hin].
    - pose proof (proj1 (Forall_forall _ _) Hq t Hin) as (? & ? & ?).
      unfold RESPAWN_DELAY_TICKS in *. split_and!; [done|done|lia|lia].
    - unfold respawnTicketsToAdd in Hin. apply list_elem_of_omap in Hin as (m & Hmin & Htk).
      unfold ticketOf in Htk.
      destruct (_ && _) eqn:E; [|done]. injection Htk as <-. cbn.
      apply andb_true_iff in E as [_ E]. apply bool_decide_eq_true in E.
      split_and!; [done| |done|done].
      intros Hid. apply (Hmove m Hmin) in Hid. congruence. }
  unfold rolesOk. rewrite finishTick_queue.
  destruct (finishTick_fields state rng moves) as (_ & _ & ->).
  split_and!.
  - apply Forall_app. split.
    + apply Forall_forall. intros t Hin. apply list_elem_of_In, filter_In in Hin as [Hin _].
      apply list_elem_of_In, list_elem_of_fmap in Hin as (m & -> & Hmin).
      rewrite applyMove_controller, applyMove_id. by apply Hmove.
    + eapply Forall_impl; [exact Hnew|].
      intros s (t & l & Hin & Hc & _ & _ & ->). cbn.
      destruct (Hqueue t Hin) as (_ & Hid & _). rewrite Hc. split; [done|]. done.
  - eapply Forall_impl; [exact Hkept|].
    intros k (t & Hin & [(Hr & ->)|(Hr & Hc & ->)]); cbn;
      destruct (Hqueue t Hin) as (? & ? & ?); unfold RESPAWN_DELAY_TICKS in *;
      split_and!; try done; lia.
  - unfold finishTick. cbn -[replenishFood].
    set (all := List.filter Snake.alive (map (applyMove state) moves) ++ _).
    destruct (existsb _ all) eqn:Ex.
    + apply existsb_exists in Ex as (s & Hin & Hp). apply bool_decide_eq_true in Hp.
      rewrite orb_false_r. case_bool_decide as Hlen.
      { destruct all; [by apply in_nil in Hin|done]. }
      split; [|done]. intros _. exists s. split; [by apply list_elem_of_In|done].
    + rewrite orb_true_r. split; [done|]. intros (s & Hin & Hp). exfalso.
      apply not_true_iff_false in Ex. apply Ex. apply existsb_exists. exists s.
      split; [by apply list_elem_of_In|by apply bool_decide_eq_true].
Qed.

Lemma reachable_roles state : reachable state -> rolesOk state.
Proof.
  induction 1 as [pc state H|state commands state' Hr IH H].
  - by eapply createInitialState_roles.
  - unfold advanceState in H. case_bool_decide; [by injection H as <-|].
    apply bind_Some in H as ([moves rng] & Ht & H). injection H as <-.
    by eapply finishTick_roles.
Qed.

Lemma tick_fate state commands moves rng s :
  stateOk state -> tickMoves state commands = Some (moves, rng) ->
  s ∈ State.snakes state ->
  exists m,
    m ∈ moves
    /\ Snake.id (Move.snake m) = Snake.id s
    /\ Snake.controller (Move.snake m) = Snake.controller s
    /\ (Snake.alive (applyMove state m) = true
        \/ (Snake.controller s = ai
            /\ ticketOf m = Some (Ticket.mk (Snake.id s) ai RESPAWN_DELAY_TICKS))
        \/ (Snake.controller s = player /\ Snake.alive (applyMove state m) = false)).
Proof.
  intros (Hok & _) Ht Hs. apply tickMoves_snakes in Ht as (cm & _ & Hm).
  apply list_elem_of_lookup in Hs as [i Hi].
  destruct (Forall2_lookup_l _ _ _ _ _ Hm Hi) as (m & Hmi & Hsn).
  exists m. split; [by eapply list_elem_of_lookup_2|].
  pose proof (prepareSnake_fields state cm s)
    as (Hid & _ & _ & Hal & _ & _ & Hc & _). cbn in Hid, Hal, Hc.
  rewrite Hsn, Hid, Hc. split; [done|]. split; [done|].
  assert (Halive : Snake.alive s = true).
  { eapply (proj1 (Forall_forall _ _) Hok). by eapply list_elem_of_lookup_2. }
  unfold applyMove, ticketOf. rewrite Hsn, Hal, Hc, Hid, Halive. cbn.
  destruct (Move.willMove m); cbn; [|by left].
  destruct (Move.collided m); cbn.
  - destruct (Snake.controller s); [right; right; done|right; left; done].
  - left. by destruct (bool_decide _).
Qed.

Lemma survivor_ids state commands moves rng t :
  tickMoves state commands = Some (moves, rng) ->
  t ∈ List.filter Snake.alive (map (applyMove state) moves) ->
  Snake.id t ∈ map Snake.id (State.snakes state).
Proof.
  intros Ht Hin. apply list_elem_of_In, filter_In in Hin as [Hin _].
  apply list_elem_of_In, list_elem_of_fmap in Hin as (m & -> & Hm).
  rewrite applyMove_id, <- (tickMoves_ids _ _ _ _ Ht).
  by apply (list_elem_of_fmap_2 (fun m => Snake.id (Move.snake m))).
Qed.

Lemma finishTick_agentIds state commands moves rng :
  tickMoves state commands = Some (moves, rng) ->
  agentIds (finishTick state rng moves) ⊆+ agentIds state.
Proof.
  intros Ht. unfold agentIds.
  destruct (finishTick_fields state rng moves) as (_ & _ & ->).
  rewrite finishTick_queue, map_app, <- app_assoc.
  etrans.
  { apply submseteq_skips_l. unfold respawnAll. apply processTickets_ids. }
  cbn [Respawn.respawnedSnakes Respawn.updatedQueue map app].
  rewrite map_app.
  rewrite (Permutation_app_comm (map Ticket.snakeId (State.respawnQueue state))).
  rewrite app_assoc. apply submseteq_skips_r.
  rewrite <- (tickMoves_ids _ _ _ _ Ht). apply survivors_tickets_ids.
Qed.

Lemma finishTick_keeps_agent state commands moves rng id :
  stateOk state -> rolesOk state ->
  tickMoves state commands = Some (moves, rng) ->
  id ∈ agentIds state -> id <> "player" ->
  id ∈ agentIds (finishTick state rng moves).
Proof.
  intros Hok (Hroles & Hq & _) Ht Hin Hid.
  pose proof (respawnAll_outcome state rng moves) as (_ & _ & Hall).
  unfold agentIds. destruct (finishTick_fields state rng moves) as (_ & _ & ->).
  rewrite finishTick_queue, map_app.
  assert (Hticket : forall t,
            t ∈ State.respawnQueue state ++ respawnTicketsToAdd moves ->
            Ticket.controller t = ai -> 1 <= Ticket.ticksRemaining t ->
            Ticket.snakeId t
            ∈ map Snake.id (Respawn.respawnedSnakes (respawnAll state rng moves))
              ++ map Ticket.snakeId (Respawn.updatedQueue (respawnAll state rng moves))).
  { intros t Htin Hc Hr. destruct (Hall t Htin) as [H1 H2].
    destruct (decide (1 < Ticket.ticksRemaining t)) as [Hlt|Hle].
    - apply elem_of_app. right.
      apply (list_elem_of_fmap_2 Ticket.snakeId _ _ (H1 Hlt)).
    - destruct H2 as [(l & _ & Hs)|Hk]; [lia|done| |]; apply elem_of_app.
      + left. apply (list_elem_of_fmap_2 Snake.id _ _ Hs).
      + right. apply (list_elem_of_fmap_2 Ticket.snakeId _ _ Hk). }
  unfold agentIds in Hin. apply elem_of_app in Hin as [Hin|Hin].
  - apply list_elem_of_fmap in Hin as (s & -> & Hs).
    destruct (tick_fate _ _ _ _ s Hok Ht Hs) as (m & Hm & Hmid & _ & [Hal|[[Hc Htk]|[Hc _]]]).
    + apply elem_of_app. left. apply elem_of_app. left.
      rewrite <- Hmid, <- (applyMove_id state m). apply list_elem_of_fmap_2.
      apply list_elem_of_In, filter_In. split; [|done].
      apply list_elem_of_In. by apply list_elem_of_fmap_2.
    + rewrite <- app_assoc. apply elem_of_app. right.
      apply (Hticket (Ticket.mk (Snake.id s) ai RESPAWN_DELAY_TICKS)); [|done|done].
      apply elem_of_app. right. unfold respawnTicketsToAdd. apply list_elem_of_omap.
      by exists m.
    + exfalso. apply Hid. by apply (proj1 (Forall_forall _ _) Hroles s Hs).
  - apply list_elem_of_fmap in Hin as (t & -> & Htin).
    pose proof (proj1 (Forall_forall _ _) Hq t Htin) as (Hc & _ & Hr & _).
    rewrite <- app_assoc. apply elem_of_app. right.
    apply Hticket; [|done..]. apply elem_of_app. by left.
Qed.

Lemma initialAi_full layouts n :
  layouts <> [] ->
  map Snake.id (initialAi layouts n)
  = map (fun i : nat => "ai-" +:+ pretty (i + 1)%nat) (seq 0 (Z.to_nat n)).
Proof.
  intros Hne. unfold initialAi. induction (seq 0 (Z.to_nat n)) as [|i l IH]; [done|].
  cbn [omap list_omap map].
  destruct (match layouts !! (i + 1)%nat with
            | Some l0 => Some l0
            | None => layouts !! ((i + 1) `mod` length layouts)%nat
            end) as [layout|] eqn:E; cbn.
  - by rewrite <- IH.
  - destruct (layouts !! (i + 1)%nat); [done|].
    apply lookup_ge_None in E.
    assert (Hlen : (length layouts <> 0)%nat) by (by destruct layouts).
    pose proof (Nat.mod_upper_bound (i + 1) (length layouts) Hlen). lia.
Qed.

Lemma advanceState_config state commands state' :
  advanceState state commands = Some state' ->
  State.config state' = State.config state.
Proof.
  unfold advanceState. case_bool_decide as Hst; [by intros [= <-]|].
  intros H. apply bind_Some in H as ([moves rng] & _ & [= <-]).
  by destruct (finishTick_fields state rng moves) as (_ & -> & _).
Qed.

Lemma player_on_board state :
  rolesOk state ->
  "player" ∈ agentIds state <-> State.status state = running.
Proof.
  intros (Hs & Hq & Hst). rewrite Hst. unfold agentIds. rewrite elem_of_app. split.
  - intros [Hin|Hin].
    + apply list_elem_of_fmap in Hin as (s & Hid & Hin). exists s. split; [done|].
      by apply (proj1 (Forall_forall _ _) Hs s Hin).
    + apply list_elem_of_fmap in Hin as (t & Hid & Hin).
      by destruct (proj1 (Forall_forall _ _) Hq t Hin) as (_ & ? & _).
  - intros (s & Hin & Hc). left.
    apply (proj1 (Forall_forall _ _) Hs s Hin) in Hc. rewrite <- Hc.
    by apply list_elem_of_fmap_2.
Qed.

Lemma reachable_agents state id :
  reachable state ->
  id ∈ agentIds state
  <-> (id = "player" /\ State.status state = running)
      \/ exists i : nat,
           Z.of_nat i < Config.aiCount (State.config state)
           /\ id = "ai-" +:+ pretty (i + 1)%nat.
Proof.
  intros Hr. revert id. induction Hr as [pc state H|state commands state' Hr IH H]; intros id.
  - pose proof (createInitialState_roles _ _ H) as Hroles.
    apply createInitialState_snakes in H as (l & Hl & Hs & _ & _ & Hst & Hq).
    unfold agentIds. rewrite Hs, Hq, Hst, app_nil_r. cbn [map].
    rewrite initialAi_full by (intros E; rewrite E in Hl; by apply elem_of_nil in Hl).
    change (Snake.id (buildSnake "player" _ _ _ _)) with "player".
    rewrite elem_of_cons, list_elem_of_fmap. split.
    + intros [->|(i & -> & Hi)]; [by left|]. right. exists i. split; [|done].
      apply list_elem_of_In, in_seq in Hi. lia.
    + intros [[-> _]|(i & Hi & ->)]; [by left|]. right. exists i. split; [done|].
      apply list_elem_of_In, in_seq. lia.
  - pose proof (reachable_roles _ (reachable_advance _ _ _ Hr H)) as Hroles'.
    rewrite (advanceState_config _ _ _ H).
    pose proof H as H0. unfold advanceState in H.
    case_bool_decide as Hst; [injection H as <-; apply IH|].
    apply bind_Some in H as ([moves rng] & Ht & [= <-]). split.
    + intros Hin. destruct (decide (id = "player")) as [->|Hne].
      * left. split; [done|]. by apply player_on_board.
      * eapply elem_of_submseteq in Hin; [|by eapply finishTick_agentIds].
        apply IH in Hin as [[? _]|?]; [done|by right].
    + intros [[-> Hrun]|Hai]; [by apply player_on_board|].
      pose proof Hai as (i & _ & Hid).
      eapply finishTick_keeps_agent;
        [by apply reachable_ok|by apply reachable_roles|done|apply IH; by right|].
      rewrite Hid. apply ai_id_not_player.
Qed.

(** X5: the agents of a state the engine can reach are the AI agents
    ai-1 .. ai-n of the config, each of them either on the board or in the
    respawn queue and never twice, and the player for as long as the game is
    running: no tick loses an agent or makes one up. *)
Theorem agents_never_lost (state : State.t) :
  reachable state ->
  NoDup (agentIds state)
  /\ forall id,
       id ∈ agentIds state
       <-> (id = "player" /\ State.status state = running)
           \/ exists i : nat,
                Z.of_nat i < Config.aiCount (State.config state)
                /\ id = "ai-" +:+ pretty (i + 1)%nat.
Proof.
  intros Hr. split; [by apply reachable_idsOk|]. intros id. by apply reachable_agents.
Qed.

Lemma agents_never_lost_witness : "ai-1" ∈ agentIds beforeWall.
Proof.
  refine (proj2 (proj2 (agents_never_lost beforeWall _) "ai-1") _).
  - apply (run_reachable wallRunConfig (wallRunTicks 30)). vm_compute. reflexivity.
  - right. exists 0%nat. split; [vm_compute; reflexivity|reflexivity].
Defined.

(** X6: in a state the engine can reach the game is over exactly when the
    player is not on the board; the player is never in the respawn queue, so
    a game that is over stays over, and the engine returns such a state as
    it is. *)
Theorem gameover_iff_player_gone (state : State.t) :
  reachable state ->
  (State.status state = gameover
   <-> ("player" ∉ map Snake.id (State.snakes state)))
  /\ ("player" ∉ map Ticket.snakeId (State.respawnQueue state))
  /\ (State.status state = gameover ->
      forall commands, advanceState state commands = Some state).
Proof.
  intros Hr. pose proof (reachable_roles _ Hr) as Hroles.
  pose proof (player_on_board _ Hroles) as Hp. destruct Hroles as (_ & Hq & _).
  assert (Hnq : "player" ∉ map Ticket.snakeId (State.respawnQueue state)).
  { intros Hin. apply list_elem_of_fmap in Hin as (t & Hid & Hin).
    by destruct (proj1 (Forall_forall _ _) Hq t Hin) as (_ & ? & _). }
  unfold agentIds in Hp. rewrite elem_of_app in Hp. split_and!; [|done|].
  - destruct (State.status state); split; try done.
    + intros Hn. exfalso. apply Hn. destruct Hp as [_ [H|H]]; done.
    + intros _ Hin. by destruct Hp as [Hp _]; discriminate Hp; left.
  - intros Hst commands. unfold advanceState. rewrite Hst. done.
Qed.

Lemma gameover_iff_player_gone_witness :
  "player" ∉ map Ticket.snakeId (State.respawnQueue beforeWall).
Proof.
  refine (proj1 (proj2 (gameover_iff_player_gone beforeWall _))).
  apply (run_reachable wallRunConfig (wallRunTicks 30)). vm_compute. reflexivity.
Defined.

Lemma advanceState_tick state commands state' :
  State.status state = running ->
  advanceState state commands = Some state' ->
  exists moves rng,
    tickMoves state commands = Some (moves, rng)
    /\ state' = finishTick state rng moves.
Proof.
  intros Hst. unfold advanceState. rewrite Hst. cbn. intros H.
  apply bind_Some in H as ([moves rng] & Ht & [= <-]). by exists moves, rng.
Qed.

(** X7: a ticket of a state the engine can reach belongs to an AI agent that
    is not on the board and has 1 to 23 ticks left.  A tick takes one tick
    off a ticket with more than one left; a ticket with one tick left either
    puts its agent back on the board, at a spawn point, or stays as it is
    for another try. *)
Theorem ticket_lifecycle (state state' : State.t) (commands : list Command.t)
    (t : Ticket.t) :
  reachable state ->
  State.status state = running ->
  advanceState state commands = Some state' ->
  t ∈ State.respawnQueue state ->
  Ticket.controller t = ai
  /\ 1 <= Ticket.ticksRemaining t <= 23
  /\ (Ticket.snakeId t ∉ map Snake.id (State.snakes state))
  /\ (1 < Ticket.ticksRemaining t ->
      withTicks t (Ticket.ticksRemaining t - 1) ∈ State.respawnQueue state')
  /\ (Ticket.ticksRemaining t = 1 ->
      (exists layout,
         layout ∈ createSpawnPoints (State.config state)
         /\ spawnBody state t layout ∈ State.snakes state')
      \/ t ∈ State.respawnQueue state').
Proof.
  intros Hr Hst Hadv Ht.
  pose proof (reachable_roles _ Hr) as (_ & Hq & _).
  pose proof (proj1 (Forall_forall _ _) Hq t Ht) as (Hc & _ & Hrem).
  unfold RESPAWN_DELAY_TICKS in Hrem.
  destruct (advanceState_tick _ _ _ Hst Hadv) as (moves & rng & Htm & ->).
  pose proof (respawnAll_outcome state rng moves) as (_ & _ & Hall).
  destruct (Hall t) as [H1 H2]; [apply elem_of_app; by left|].
  rewrite finishTick_queue.
  destruct (finishTick_fields state rng moves) as (_ & _ & ->).
  split_and!; [done|lia|lia| |done|].
  - pose proof (reachable_idsOk _ Hr) as Hids. unfold idsOk in Hids.
    apply NoDup_app in Hids as (_ & Hdis & _). intros Hin. apply (Hdis _ Hin).
    by apply list_elem_of_fmap_2.
  - intros Hone. destruct H2 as [(l & Hl & Hs)|Hk]; [lia|done| |].
    + left. exists l. split; [done|]. apply elem_of_app. by right.
    + right. replace t with (withTicks t 1); [done|].
      destruct t. unfold withTicks. cbn in *. by subst.
Qed.

Lemma ticket_lifecycle_witness :
  exists layout,
    layout ∈ createSpawnPoints (State.config beforeRespawn)
    /\ spawnBody beforeRespawn (Ticket.mk "ai-1" ai 1) layout
       ∈ State.snakes afterRespawn
    \/ Ticket.mk "ai-1" ai 1 ∈ State.respawnQueue afterRespawn.
Proof.
  assert (H : reachable beforeRespawn).
  { apply (run_reachable wallRunConfig (wallRunTicks 26)). vm_compute. reflexivity. }
  assert (Hst : State.status beforeRespawn = running) by (vm_compute; reflexivity).
  assert (Hadv : advanceState beforeRespawn (Command.mk "ai-1" Up :: loopTurn 27)
                 = Some afterRespawn) by (vm_compute; reflexivity).
  assert (Ht : Ticket.mk "ai-1" ai 1 ∈ State.respawnQueue beforeRespawn).
  { vm_compute. apply list_elem_of_here. }
  destruct (proj2 (proj2 (proj2 (proj2
              (ticket_lifecycle _ _ _ _ H Hst Hadv Ht)))) eq_refl)
    as [(l & Hl & Hs)|Hq].
  - exists l. left. by split.
  - eexists (Layout.mk (mkVec2 0 0) Up). by right.
Defined.

(** X8: what a tick makes of a snake of a state the engine can reach: it
    is on the board of the next state, or it was an AI snake and a ticket of
    23 ticks stands for it in the queue, or it was the player and the game
    is over. *)
Theorem death_outcome (state state' : State.t) (commands : list Command.t)
    (s : Snake.t) :
  reachable state ->
  State.status state = running ->
  advanceState state commands = Some state' ->
  s ∈ State.snakes state ->
  (Snake.id s ∈ map Snake.id (State.snakes state'))
  \/ (Snake.controller s = ai
      /\ Ticket.mk (Snake.id s) ai (RESPAWN_DELAY_TICKS - 1) ∈ State.respawnQueue state')
  \/ (Snake.controller s = player /\ State.status state' = gameover).
Proof.
  intros Hr Hst Hadv Hs.
  pose proof (reachable_roles _ (reachable_advance _ _ _ Hr Hadv)) as Hroles'.
  destruct (decide (Snake.id s ∈ map Snake.id (State.snakes state'))) as [Hin|Hout];
    [by left|right].
  destruct (Snake.controller s) eqn:Ec.
  - right. split; [done|].
    pose proof (reachable_roles _ Hr) as (Hsn & _).
    apply (proj1 (Forall_forall _ _) Hsn s Hs) in Ec. rewrite Ec in Hout.
    pose proof (player_on_board _ Hroles') as Hp.
    destruct (State.status state'); [|done]. exfalso. destruct Hp as [_ Hp].
    specialize (Hp eq_refl). unfold agentIds in Hp. apply elem_of_app in Hp as [Hp|Hp]; [done|].
    destruct Hroles' as (_ & Hq & _). apply list_elem_of_fmap in Hp as (t & Hid & Ht).
    by destruct (proj1 (Forall_forall _ _) Hq t Ht) as (_ & ? & _).
  - left. split; [done|].
    destruct (advanceState_tick _ _ _ Hst Hadv) as (moves & rng & Htm & ->).
    destruct (tick_fate _ _ _ _ s (reachable_ok _ Hr) Htm Hs)
      as (m & Hm & Hmid & _ & [Hal|[[_ Htk]|[Hc _]]]); [| |congruence].
    + exfalso. apply Hout. destruct (finishTick_fields state rng moves) as (_ & _ & ->).
      rewrite map_app. apply elem_of_app. left.
      rewrite <- Hmid, <- (applyMove_id state m). apply list_elem_of_fmap_2.
      apply list_elem_of_In, filter_In. split; [|done].
      apply list_elem_of_In. by apply list_elem_of_fmap_2.
    + pose proof (respawnAll_outcome state rng moves) as (_ & _ & Hall).
      destruct (Hall (Ticket.mk (Snake.id s) ai RESPAWN_DELAY_TICKS)) as [H1 _].
      { apply elem_of_app. right. unfold respawnTicketsToAdd. apply list_elem_of_omap.
        by exists m. }
      rewrite finishTick_queue. apply H1. cbn. unfold RESPAWN_DELAY_TICKS. lia.
Qed.

Lemma death_outcome_witness :
  exists s state',
    State.snakes beforeWall !! 1%nat = Some s
    /\ advanceState beforeWall [Command.mk "ai-1" Up] = Some state'
    /\ ((Snake.id s ∈ map Snake.id (State.snakes state'))
        \/ (Snake.controller s = ai
            /\ Ticket.mk (Snake.id s) ai (RESPAWN_DELAY_TICKS - 1)
               ∈ State.respawnQueue state')
        \/ (Snake.controller s = player /\ State.status state' = gameover)).
Proof.
  eexists. eexists. split; [vm_compute; reflexivity|].
  split; [vm_compute; reflexivity|].
  refine (death_outcome beforeWall _ [Command.mk "ai-1" Up] _ _ _ _ _).
  - apply (run_reachable wallRunConfig (wallRunTicks 30)). vm_compute. reflexivity.
  - vm_compute. reflexivity.
  - vm_compute. reflexivity.
  - apply (list_elem_of_lookup_2 _ 1%nat). vm_compute. reflexivity.
Defined.

(** X9: a snake of the next state whose agent was in the respawn queue was
    built at one of the spawn points of the config, with three segments and
    twelve safe ticks ahead, and shares no cell with any other snake of
    that state. *)
Theorem respawn_on_free_cells (state state' : State.t) (commands : list Command.t)
    (s : Snake.t) :
  reachable state ->
  State.status state = running ->
  advanceState state commands = Some state' ->
  s ∈ State.snakes state' ->
  Snake.id s ∈ map Ticket.snakeId (State.respawnQueue state) ->
  (exists layout,
     layout ∈ createSpawnPoints (State.config state)
     /\ s = buildSnake (Snake.id s) (Layout.head layout) (Layout.direction layout)
              ai (State.tick state' + SAFE_RESPAWN_TICKS))
  /\ forall s', s' ∈ State.snakes state' -> Snake.id s' <> Snake.id s ->
       forall p, p ∈ Snake.segments s -> p ∉ Snake.segments s'.
Proof.
  intros Hr Hst Hadv Hs Hid.
  destruct (advanceState_tick _ _ _ Hst Hadv) as (moves & rng & Htm & ->).
  pose proof (respawnAll_outcome state rng moves) as (Hnew & _ & _).
  pose proof (respawnAll_inv state rng moves) as (_ & Hresp & Hpair).
  destruct (finishTick_fields state rng moves) as (Htick & _ & Hsn).
  rewrite Htick. rewrite Hsn in *. clear Hsn.
  set (survivors := List.filter Snake.alive (map (applyMove state) moves)) in *.
  set (r := respawnAll state rng moves) in *.
  assert (Hsr : s ∈ Respawn.respawnedSnakes r).
  { apply elem_of_app in Hs as [Hs|Hs]; [|done]. exfalso.
    pose proof (survivor_ids _ _ _ _ _ Htm Hs) as Hin.
    pose proof (reachable_idsOk _ Hr) as Hids. unfold idsOk in Hids.
    apply NoDup_app in Hids as (_ & Hdis & _). by apply (Hdis _ Hin). }
  split.
  - pose proof (proj1 (Forall_forall _ _) Hnew s Hsr) as (t & l & _ & Hc & _ & Hl & ->).
    exists l. split; [done|]. unfold spawnBody. by rewrite Hc.
  - intros s' Hs' Hne p Hp Hp'.
    pose proof (proj1 (Forall_forall _ _) Hresp s Hsr) as [_ Hfree].
    assert (Hk : cellKey p ∈ segmentCells s) by (by apply list_elem_of_fmap_2).
    assert (Hk' : cellKey p ∈ segmentCells s') by (by apply list_elem_of_fmap_2).
    apply elem_of_app in Hs' as [Hs'|Hs'].
    + apply (Hfree _ Hk). apply elem_of_occupiedCells. left. by exists s'.
    + apply list_elem_of_lookup in Hsr as [i Hi], Hs' as [j Hj].
      destruct (Nat.lt_trichotomy i j) as [Hlt|[->|Hlt]].
      * destruct (Hpair i j s s' Hlt Hi Hj) as [Hd _]. by apply (Hd _ Hk).
      * congruence.
      * destruct (Hpair j i s' s Hlt Hj Hi) as [_ Hd]. by apply (Hd _ Hk).
Qed.

Lemma respawn_on_free_cells_witness :
  exists s,
    State.snakes afterRespawn !! 1%nat = Some s
    /\ forall s', s' ∈ State.snakes afterRespawn -> Snake.id s' <> Snake.id s ->
         forall p, p ∈ Snake.segments s -> p ∉ Snake.segments s'.
Proof.
  eexists. split; [vm_compute; reflexivity|].
  refine (proj2 (respawn_on_free_cells beforeRespawn afterRespawn
                   (Command.mk "ai-1" Up :: loopTurn 27) _ _ _ _ _ _)).
  - apply (run_reachable wallRunConfig (wallRunTicks 26)). vm_compute. reflexivity.
  - vm_compute. reflexivity.
  - vm_compute. reflexivity.
  - apply (list_elem_of_lookup_2 _ 1%nat). vm_compute. reflexivity.
  - vm_compute. apply list_elem_of_here.
Defined.

(** ** How a snake is lost *)

Lemma verdict_fields state cm s m :
  verdict state cm s m ->
  exists h0,
    Snake.segments s !! 0%nat = Some h0
    /\ Snake.id (Move.snake m) = Snake.id s
    /\ Move.willMove m = true
    /\ Move.nextHead m
       = Some (nextPosition h0 (maybeTurn (prepareSnake state cm s)).1)
    /\ Move.direction m = (maybeTurn (prepareSnake state cm s)).1
    /\ Move.pendingTurn m = (maybeTurn (prepareSnake state cm s)).2.
Proof.
  intros (h0 & pm & Hh & _ & Hsn & Hw & _ & Hd & Hpt & Hn & _ & Hv). exists h0.
  destruct (prepareSnake_role state cm s) as [Hid _].
  assert (Hm : m = pm \/ exists r, m = Move.collide r pm).
  { revert Hv. destruct (inBounds _ _); intros Hv; [|right; by exists wall].
    destruct Hv as [->|[(-> & _)|(-> & _)]]; [by left|right; by exists body|right; by exists head]. }
  destruct Hm as [->|(r & ->)]; cbn; rewrite Hsn, Hid; done.
Qed.

Lemma dead_off_board state commands moves rng i s m :
  idsOk state ->
  tickMoves state commands = Some (moves, rng) ->
  State.snakes state !! i = Some s -> moves !! i = Some m ->
  Snake.alive (applyMove state m) = false ->
  Snake.id s ∉ map Snake.id (State.snakes (finishTick state rng moves)).
Proof.
  intros Hids Ht Hs Hm Hdead.
  pose proof (tickMoves_ids _ _ _ _ Ht) as Hmids.
  pose proof (idsOk_snakes _ Hids) as Hnd.
  destruct (finishTick_fields state rng moves) as (_ & _ & ->).
  rewrite map_app. intros Hin. apply elem_of_app in Hin as [Hin|Hin].
  - apply list_elem_of_fmap in Hin as (t & Hid & Hin).
    apply list_elem_of_In, filter_In in Hin as [Hin Halive].
    apply list_elem_of_In, list_elem_of_fmap in Hin as (m' & -> & Hm').
    apply list_elem_of_lookup in Hm' as [j Hj].
    rewrite applyMove_id in Hid.
    assert (j = i) as ->; [|congruence].
    eapply NoDup_lookup; [exact Hnd| |].
    + rewrite <- Hmids, list_lookup_fmap, Hj. cbn. by rewrite <- Hid.
    + by rewrite list_lookup_fmap, Hs.
  - apply list_elem_of_fmap in Hin as (t & Hid & Hin).
    pose proof (respawnAll_outcome state rng moves) as (Hnew & _ & _).
    pose proof (proj1 (Forall_forall _ _) Hnew t Hin) as (tk & l & Htk & _ & Hrem & _ & ->).
    cbn in Hid. apply elem_of_app in Htk as [Htk|Htk].
    + unfold idsOk in Hids. apply NoDup_app in Hids as (_ & Hdis & _).
      apply (Hdis (Snake.id s)).
      * apply list_elem_of_fmap_2. by eapply list_elem_of_lookup_2.
      * rewrite Hid. by apply list_elem_of_fmap_2.
    + unfold respawnTicketsToAdd in Htk. apply list_elem_of_omap in Htk as (m' & _ & Htk).
      unfold ticketOf in Htk. destruct (_ && _); [|done]. injection Htk as <-.
      cbn in Hrem. unfold RESPAWN_DELAY_TICKS in Hrem. lia.
Qed.

(** X10: a snake whose next head is off the grid collides with the wall,
    safe or not, and is not on the board of the next state. *)
Theorem wall_always_kills (state state' : State.t) (commands : list Command.t)
    (moves : list Move.t) (rng : Z) (i : nat) (s : Snake.t) (m : Move.t)
    (nh : Vec2) :
  reachable state ->
  State.status state = running ->
  tickMoves state commands = Some (moves, rng) ->
  advanceState state commands = Some state' ->
  State.snakes state !! i = Some s ->
  moves !! i = Some m ->
  Move.nextHead m = Some nh ->
  inBounds (State.config state) nh = false ->
  Move.collided m = true
  /\ Move.reason m = Some wall
  /\ Snake.id s ∉ map Snake.id (State.snakes state').
Proof.
  intros Hr Hst Ht Hadv Hs Hm Hn Hb.
  rewrite (advanceState_running _ _ _ _ Hst Ht) in Hadv. injection Hadv as <-.
  pose proof Ht as Hv.
  apply tickMoves_verdict in Hv as (cm & _ & Hv);
    [|by apply reachable_ok|by apply idsOk_snakes, reachable_idsOk].
  destruct (Forall2_lookup_l _ _ _ _ _ Hv Hs) as (m' & Hm' & Hvs).
  assert (m' = m) as -> by congruence.
  pose proof (verdict_fields _ _ _ _ Hvs) as (h0 & Hh0 & _ & _ & Hn' & _).
  destruct Hvs as (h0' & pm & Hh & _ & Hsn & Hw & _ & _ & _ & Hpn & _ & Hvs).
  assert (h0' = h0) as -> by congruence.
  assert (nextPosition h0 (maybeTurn (prepareSnake state cm s)).1 = nh) as Hnh
    by congruence.
  rewrite Hnh, Hb in Hvs. subst m. split; [done|]. split; [done|].
  eapply dead_off_board; [by apply reachable_idsOk|done..|].
  unfold applyMove. cbn. rewrite Hw.
  destruct (Snake.alive (Move.snake pm)) eqn:Eal; cbn; done.
Qed.

Lemma wall_always_kills_witness :
  exists state',
    advanceState beforeWall [Command.mk "ai-1" Up] = Some state'
    /\ "ai-1" ∉ map Snake.id (State.snakes state').
Proof.
  eexists. split; [vm_compute; reflexivity|].
  eapply (fun moves rng m nh H1 H2 H3 H4 H5 H6 H7 H8 =>
            proj2 (proj2 (wall_always_kills beforeWall _ [Command.mk "ai-1" Up]
              moves rng 1
              (Snake.mk "ai-1" [mkVec2 3 0; mkVec2 3 1; mkVec2 3 2] Up true None 1 0
                 ai 0 [] 39)
              m nh H1 H2 H3 H4 H5 H6 H7 H8))).
  - apply (run_reachable wallRunConfig (wallRunTicks 30)). vm_compute. reflexivity.
  - vm_compute. reflexivity.
  - vm_compute. reflexivity.
  - vm_compute. reflexivity.
  - vm_compute. reflexivity.
  - vm_compute. reflexivity.
  - vm_compute. reflexivity.
  - vm_compute. reflexivity.
Defined.

(** X11: why a move collides.  A snake of a state the engine can reach
    collides with the wall when its next head is off the grid; with a body
    only when the cell holds a segment of another snake and neither of the
    two is safe; head to head only when the move of another snake that is
    not safe has the same next head.  It never collides with its own body. *)
Theorem collision_causes (state : State.t) (commands : list Command.t)
    (moves : list Move.t) (rng : Z) (i : nat) (s : Snake.t) (m : Move.t) :
  reachable state ->
  tickMoves state commands = Some (moves, rng) ->
  State.snakes state !! i = Some s ->
  moves !! i = Some m ->
  Move.collided m = true ->
  exists nh,
    Move.nextHead m = Some nh
    /\ match Move.reason m with
       | Some wall => inBounds (State.config state) nh = false
       | Some body =>
           inBounds (State.config state) nh = true
           /\ Snake.safeUntilTick s <= State.tick state
           /\ exists other,
                other ∈ State.snakes state
                /\ Snake.id other <> Snake.id s
                /\ nh ∈ Snake.segments other
                /\ Snake.safeUntilTick other <= State.tick state
       | Some head =>
           inBounds (State.config state) nh = true
           /\ Snake.safeUntilTick s <= State.tick state
           /\ exists j other m',
                j <> i
                /\ State.snakes state !! j = Some other
                /\ moves !! j = Some m'
                /\ Move.nextHead m' = Some nh
                /\ Snake.safeUntilTick other <= State.tick state
       | None => False
       end.
Proof.
  intros Hr Ht Hs Hm Hcol.
  apply tickMoves_verdict in Ht as (cm & _ & Hv);
    [|by apply reachable_ok|by apply idsOk_snakes, reachable_idsOk].
  destruct (Forall2_lookup_l _ _ _ _ _ Hv Hs) as (m0 & Hm0 & Hvs).
  assert (m0 = m) as -> by congruence.
  destruct Hvs as (h0 & pm & Hh & _ & Hsn & Hw & Hpc & _ & _ & Hpn & _ & Hvs).
  exists (nextPosition h0 (maybeTurn (prepareSnake state cm s)).1).
  destruct (inBounds (State.config state)
              (nextPosition h0 (maybeTurn (prepareSnake state cm s)).1)) eqn:Eb.
  - destruct Hvs as [->|[(-> & Hsafe & other & Ho & _ & _ & Hne & Hcell & Hos)
                        |(-> & Hsafe & other & h & Ho & Hne & Hoh & Hnh & Hos)]].
    + congruence.
    + split; [done|]. cbn. split_and!; [done..|]. exists other.
      split_and!; [done..| |done].
      apply list_elem_of_fmap in Hcell as (p & Hp & Hin).
      apply cellKey_inj in Hp. by subst.
    + split; [done|]. cbn. split_and!; [done..|].
      apply list_elem_of_lookup in Ho as [j Hj].
      destruct (Forall2_lookup_l _ _ _ _ _ Hv Hj) as (m' & Hm' & Hvo).
      apply verdict_fields in Hvo as (h' & Hh' & _ & _ & Hn' & _).
      exists j, other, m'. split_and!; [|done..| |done].
      * intros ->. congruence.
      * rewrite Hn'. congruence.
  - subst m. done.
Qed.

Lemma collision_causes_witness :
  exists m nh,
    wallMoves.1 !! 1%nat = Some m
    /\ Move.nextHead m = Some nh
    /\ inBounds (State.config beforeWall) nh = false.
Proof.
  destruct (wallMoves.1 !! 1%nat) as [m|] eqn:Em; [|vm_compute in Em; discriminate].
  assert (Hr : reachable beforeWall).
  { apply (run_reachable wallRunConfig (wallRunTicks 30)). vm_compute. reflexivity. }
  assert (Ht : tickMoves beforeWall [Command.mk "ai-1" Up]
               = Some (wallMoves.1, wallMoves.2)) by (vm_compute; reflexivity).
  assert (Hs : State.snakes beforeWall !! 1%nat
               = Some (Snake.mk "ai-1" [mkVec2 3 0; mkVec2 3 1; mkVec2 3 2] Up true
                         None 1 0 ai 0 [] 39)) by (vm_compute; reflexivity).
  assert (Hc : Move.collided m = true /\ Move.reason m = Some wall).
  { vm_compute in Em. injection Em as <-. split; reflexivity. }
  destruct Hc as [Hc Hw].
  destruct (collision_causes _ _ _ _ _ _ _ Hr Ht Hs Em Hc) as (nh & Hn & H).
  rewrite Hw in H. exists m, nh. split; [reflexivity|]. split; assumption.
Defined.

(** ** The AI policy *)

Lemma aiCandidate_cases snake state occ hd tail best rng d :
  (aiBlocked snake state occ hd tail d = true
   /\ aiCandidate snake state occ hd tail (best, rng) d = (best, rng))
  \/ (aiBlocked snake state occ hd tail d = false
      /\ ((exists score,
             aiCandidate snake state occ hd tail (best, rng) d
             = (Some (d, score), (next rng).2))
          \/ (exists b, best = Some b
                /\ aiCandidate snake state occ hd tail (best, rng) d
                   = (best, (next rng).2)))).
Proof.
  unfold aiCandidate, aiBlocked. cbn zeta.
  destruct (inBounds _ _); cbn; [|by left].
  destruct (truthy _ && negb _); cbn; [by left|]. right. split; [done|].
  destruct (next rng) as [v r]. cbn.
  destruct best as [[bd bs]|].
  - destruct (Qlt_le_dec _ _); [left; by eexists|right; by eexists].
  - left. by eexists.
Qed.

Lemma aiCandidates_best snake state occ hd tail candidates best rng :
  let r := fold_left (aiCandidate snake state occ hd tail) candidates (best, rng) in
  match r.1 with
  | Some (d, _) =>
      (exists s, best = Some (d, s))
      \/ (d ∈ candidates /\ aiBlocked snake state occ hd tail d = false)
  | None =>
      best = None
      /\ forall d, d ∈ candidates -> aiBlocked snake state occ hd tail d = true
  end.
Proof.
  cbn zeta. revert best rng.
  induction candidates as [|c cs IH]; intros best rng; cbn [fold_left fst].
  - destruct best as [[d s]|]; [left; by exists s|]. split; [done|].
    intros d Hd. by apply elem_of_nil in Hd.
  - destruct (aiCandidate_cases snake state occ hd tail best rng c)
      as [[Hb ->]|[Hb [(score & ->)|(b & -> & ->)]]].
    + specialize (IH best rng). destruct (fold_left _ _ _).1 as [[d s]|].
      * destruct IH as [?|[? ?]]; [by left|right]. split; [|done].
        apply elem_of_cons. by right.
      * destruct IH as [-> IH]. split; [done|]. intros d Hd.
        apply elem_of_cons in Hd as [->|Hd]; [done|by apply IH].
    + specialize (IH (Some (c, score)) (next rng).2).
      destruct (fold_left _ _ _).1 as [[d s]|].
      * right. destruct IH as [(s' & [= -> ->])|[? ?]].
        -- split; [apply elem_of_cons; by left|done].
        -- split; [apply elem_of_cons; by right|done].
      * by destruct IH.
    + specialize (IH (Some b) (next rng).2).
      destruct (fold_left _ _ _).1 as [[d s]|].
      * destruct IH as [?|[? ?]]; [by left|right]. split; [|done].
        apply elem_of_cons. by right.
      * by destruct IH.
Qed.

Lemma computeAiTurn_choice snake state occ rng od rng' hd tail :
  Snake.alive snake = true ->
  Snake.segments snake !! 0%nat = Some hd ->
  last (Snake.segments snake) = Some tail ->
  computeAiTurn snake state occ rng = Some (od, rng') ->
  match od with
  | Some d =>
      d <> opposite (Snake.direction snake)
      /\ aiBlocked snake state occ hd tail d = false
  | None =>
      forall d, d <> opposite (Snake.direction snake) ->
        aiBlocked snake state occ hd tail d = true
  end.
Proof.
  intros Ha Hs Hl. unfold computeAiTurn. rewrite Ha, Hs, Hl.
  cbn [negb mbind option_bind].
  set (cands := List.filter _ allDirections).
  pose proof (aiCandidates_best snake state occ hd tail cands None rng) as Hbest.
  cbn zeta in Hbest.
  destruct (fold_left _ cands _) as [best r]. cbn [fst] in Hbest. intros [= <- <-].
  destruct best as [[d s]|]; cbn [fmap option_fmap option_map fst].
  - destruct Hbest as [(? & ?)|[Hd Hb]]; [done|]. split; [|done].
    apply list_elem_of_In, filter_In in Hd as [_ Hd]. by apply bool_decide_eq_true in Hd.
  - destruct Hbest as [_ Hall]. intros d Hd. apply Hall.
    apply list_elem_of_In, filter_In. split; [by destruct d; cbn; auto|].
    by apply bool_decide_eq_true.
Qed.

(** ** Commands *)

Lemma buildCommandMap_snoc commands c :
  buildCommandMap (commands ++ [c])
  = <[Command.snakeId c := Command.direction c]> (buildCommandMap commands).
Proof. unfold buildCommandMap. by rewrite fold_left_app. Qed.

Lemma buildCommandMap_lookup commands id :
  buildCommandMap commands !! id
  = Command.direction
    <$> last (List.filter (fun c => bool_decide (Command.snakeId c = id)) commands).
Proof.
  induction commands as [|c commands IH] using rev_ind; [done|].
  rewrite buildCommandMap_snoc, List.filter_app. cbn [List.filter].
  case_bool_decide as Hid.
  - rewrite last_snoc. cbn. rewrite <- Hid. apply lookup_insert_eq.
  - rewrite app_nil_r, lookup_insert_ne by done. apply IH.
Qed.

Lemma backfillAi_keeps state occ snakes cm0 rng cm rng' k d :
  backfillAi state occ snakes cm0 rng = Some (cm, rng') ->
  cm0 !! k = Some d -> cm !! k = Some d.
Proof.
  revert cm0 rng. induction snakes as [|s snakes IH]; intros cm0 rng; cbn.
  { by intros [= <- <-]. }
  destruct (bool_decide (Snake.controller s = ai)); cbn; [|apply IH].
  case_bool_decide as Hin; cbn; [apply IH|].
  intros H Hk. apply bind_Some in H as ([od r] & _ & H).
  destruct od as [d'|]; [|by eapply IH].
  eapply IH; [exact H|]. rewrite lookup_insert_ne; [done|].
  intros <-. apply Hin. by exists d.
Qed.

Lemma backfillAi_other state occ snakes cm0 rng cm rng' k :
  backfillAi state occ snakes cm0 rng = Some (cm, rng') ->
  k ∉ map Snake.id snakes -> cm !! k = cm0 !! k.
Proof.
  revert cm0 rng. induction snakes as [|s snakes IH]; intros cm0 rng; cbn.
  { by intros [= <- <-]. }
  intros H Hk. apply not_elem_of_cons in Hk as [Hks Hk].
  destruct (bool_decide (Snake.controller s = ai)); cbn in H; [|by eapply IH].
  destruct (bool_decide (is_Some (cm0 !! Snake.id s))); cbn in H; [by eapply IH|].
  apply bind_Some in H as ([od r] & _ & H).
  destruct od as [d'|]; [|by eapply IH].
  rewrite (IH _ _ H Hk). by rewrite lookup_insert_ne.
Qed.

Lemma backfillAi_policy state occ snakes cm0 rng cm rng' s :
  backfillAi state occ snakes cm0 rng = Some (cm, rng') ->
  NoDup (map Snake.id snakes) -> s ∈ snakes ->
  Snake.controller s = ai -> cm0 !! Snake.id s = None ->
  exists r r', computeAiTurn s state occ r = Some (cm !! Snake.id s, r').
Proof.
  revert cm0 rng. induction snakes as [|s0 snakes IH]; intros cm0 rng; cbn.
  { intros _ _ Hs. by apply elem_of_nil in Hs. }
  intros H Hnd Hs Hc Hnone. apply NoDup_cons in Hnd as [Hfresh Hnd].
  apply elem_of_cons in Hs as [<-|Hs].
  - rewrite Hc, Hnone in H. rewrite bool_decide_eq_true_2 in H by done.
    rewrite bool_decide_eq_false_2 in H by (by intros [? ?]). cbn in H.
    apply bind_Some in H as ([od r] & Hai & H). exists rng, r.
    destruct od as [d|].
    + rewrite (backfillAi_other _ _ _ _ _ _ _ _ H Hfresh), lookup_insert_eq. done.
    + rewrite (backfillAi_other _ _ _ _ _ _ _ _ H Hfresh), Hnone. done.
  - assert (Hne : Snake.id s0 <> Snake.id s).
    { intros E. apply Hfresh. rewrite E. by apply list_elem_of_fmap_2. }
    destruct (bool_decide (Snake.controller s0 = ai)); cbn in H; [|by eapply IH].
    destruct (bool_decide (is_Some (cm0 !! Snake.id s0))); cbn in H; [by eapply IH|].
    apply bind_Some in H as ([od r] & _ & H).
    destruct od as [d'|]; [|by eapply IH].
    eapply IH; [exact H|done..|]. by rewrite lookup_insert_ne.
Qed.

Lemma prepareSnake_turn state cm s d :
  Snake.alive s = true -> cm !! Snake.id s = Some d ->
  d <> opposite (Snake.direction s) ->
  maybeTurn (prepareSnake state cm s) = (d, None).
Proof.
  intros Ha Hd Hne. unfold prepareSnake. cbn. rewrite Ha, Hd. cbn.
  unfold applyInput. cbn. rewrite decide_False by done.
  unfold maybeTurn. cbn. by rewrite decide_True.
Qed.

Lemma prepareSnake_no_turn state cm s :
  cm !! Snake.id s = None ->
  maybeTurn (prepareSnake state cm s) = maybeTurn s.
Proof.
  intros Hd. unfold prepareSnake. cbn. rewrite Hd.
  by destruct (Snake.alive s).
Qed.

(** X12: the last command a tick is given for a snake wins over the earlier
    ones and over the AI policy, and when it is not a reversal the snake
    makes that turn in the same tick: its next head is the cell in the
    commanded direction. *)
Theorem last_command_turns (state : State.t) (commands : list Command.t)
    (moves : list Move.t) (rng : Z) (i : nat) (s : Snake.t) (m : Move.t)
    (c : Command.t) :
  reachable state ->
  tickMoves state commands = Some (moves, rng) ->
  State.snakes state !! i = Some s ->
  moves !! i = Some m ->
  last (List.filter (fun c => bool_decide (Command.snakeId c = Snake.id s)) commands)
  = Some c ->
  Command.direction c <> opposite (Snake.direction s) ->
  Move.direction m = Command.direction c
  /\ Move.pendingTurn m = None
  /\ exists h0,
       Snake.segments s !! 0%nat = Some h0
       /\ Move.nextHead m = Some (nextPosition h0 (Command.direction c)).
Proof.
  intros Hr Ht Hs Hm Hlast Hne.
  pose proof (reachable_ok _ Hr) as Hok.
  apply tickMoves_verdict in Ht as (cm & Hcm & Hv);
    [|done|by apply idsOk_snakes, reachable_idsOk].
  destruct (Forall2_lookup_l _ _ _ _ _ Hv Hs) as (m0 & Hm0 & Hvs).
  assert (m0 = m) as -> by congruence.
  assert (Hsin : s ∈ State.snakes state) by (by eapply list_elem_of_lookup_2).
  assert (Halive : Snake.alive s = true).
  { destruct Hok as (Hok & _). by apply (proj1 (Forall_forall _ _) Hok s Hsin). }
  assert (Hd : cm !! Snake.id s = Some (Command.direction c)).
  { unfold commandsOfTick in Hcm. eapply backfillAi_keeps; [exact Hcm|].
    by rewrite buildCommandMap_lookup, Hlast. }
  apply verdict_fields in Hvs as (h0 & Hh & _ & _ & Hn & Hdir & Hpt).
  rewrite (prepareSnake_turn _ _ _ _ Halive Hd Hne) in Hn, Hdir, Hpt.
  split; [done|]. split; [done|]. by exists h0.
Qed.

Lemma last_command_turns_witness :
  exists moves rng m,
    tickMoves beforeWall [Command.mk "ai-1" Right; Command.mk "ai-1" Left]
    = Some (moves, rng)
    /\ moves !! 1%nat = Some m
    /\ Move.direction m = Left.
Proof.
  destruct (tickMoves beforeWall [Command.mk "ai-1" Right; Command.mk "ai-1" Left])
    as [[moves rng]|] eqn:Ht; [|vm_compute in Ht; discriminate].
  pose proof Ht as Ht0. vm_compute in Ht0. injection Ht0 as Em _.
  destruct (moves !! 1%nat) as [m|] eqn:Hm;
    [|rewrite <- Em in Hm; vm_compute in Hm; discriminate].
  exists moves, rng, m. split; [reflexivity|]. split; [exact Hm|].
  refine (proj1 (last_command_turns beforeWall _ moves rng 1
                   (Snake.mk "ai-1" [mkVec2 3 0; mkVec2 3 1; mkVec2 3 2] Up true None
                      1 0 ai 0 [] 39)
                   m (Command.mk "ai-1" Left) _ Ht _ Hm _ _)).
  - apply (run_reachable wallRunConfig (wallRunTicks 30)). vm_compute. reflexivity.
  - vm_compute. reflexivity.
  - vm_compute. reflexivity.
  - discriminate.
Defined.

(** X13: an AI snake no command is given for goes where its policy sends
    it: to a cell on the grid that holds no segment, or only the tail it is
    about to leave; so it can only be lost head to head.  Only when every
    direction but the reverse is blocked does it keep its course. *)
Theorem ai_policy_is_safe (state : State.t) (commands : list Command.t)
    (moves : list Move.t) (rng : Z) (i : nat) (s : Snake.t) (m : Move.t)
    (hd tail : Vec2) :
  reachable state ->
  tickMoves state commands = Some (moves, rng) ->
  State.snakes state !! i = Some s ->
  moves !! i = Some m ->
  Snake.controller s = ai ->
  (forall c, c ∈ commands -> Command.snakeId c <> Snake.id s) ->
  Snake.segments s !! 0%nat = Some hd ->
  last (Snake.segments s) = Some tail ->
  (exists d,
     d <> opposite (Snake.direction s)
     /\ aiBlocked s state (buildOccupancy (State.snakes state)) hd tail d = false
     /\ Move.direction m = d
     /\ Move.nextHead m = Some (nextPosition hd d)
     /\ (Move.collided m = true -> Move.reason m = Some head))
  \/ ((forall d, d <> opposite (Snake.direction s) ->
         aiBlocked s state (buildOccupancy (State.snakes state)) hd tail d = true)
      /\ Move.direction m = (maybeTurn s).1).
Proof.
  intros Hr Ht Hs Hm Hc Hnone Hhd Htail.
  pose proof (reachable_ok _ Hr) as Hok.
  pose proof (idsOk_snakes _ (reachable_idsOk _ Hr)) as Hnd.
  apply tickMoves_verdict in Ht as (cm & Hcm & Hv); [|done..].
  destruct (Forall2_lookup_l _ _ _ _ _ Hv Hs) as (m0 & Hm0 & Hvs).
  assert (m0 = m) as -> by congruence.
  assert (Hsin : s ∈ State.snakes state) by (by eapply list_elem_of_lookup_2).
  assert (Halive : Snake.alive s = true).
  { destruct Hok as (Hok & _). by apply (proj1 (Forall_forall _ _) Hok s Hsin). }
  assert (Hcm0 : buildCommandMap commands !! Snake.id s = None).
  { rewrite buildCommandMap_lookup.
    destruct (last (List.filter _ commands)) as [c|] eqn:El; [|done]. exfalso.
    apply last_Some_elem_of, list_elem_of_In, filter_In in El as [Hin Hid].
    apply bool_decide_eq_true in Hid. by apply (Hnone c); [apply list_elem_of_In|]. }
  unfold commandsOfTick in Hcm.
  destruct (backfillAi_policy _ _ _ _ _ _ _ s Hcm Hnd Hsin Hc Hcm0) as (r & r' & Hai).
  pose proof (computeAiTurn_choice _ _ _ _ _ _ _ _ Halive Hhd Htail Hai) as Hchoice.
  pose proof (verdict_fields _ _ _ _ Hvs) as (h0 & Hh & _ & _ & Hn & Hdir & _).
  assert (h0 = hd) as -> by congruence.
  destruct (cm !! Snake.id s) as [d|] eqn:Ed.
  - left. destruct Hchoice as [Hne Hfree]. exists d.
    rewrite (prepareSnake_turn _ _ _ _ Halive Ed Hne) in Hn, Hdir.
    split_and!; [done..|]. intros Hcol.
    destruct Hvs as (h0 & pm & Hh0 & _ & Hsn & Hw & Hpc & _ & _ & Hpn & _ & Hvs).
    assert (h0 = hd) as -> by congruence.
    rewrite (prepareSnake_turn _ _ _ _ Halive Ed Hne) in Hvs. cbn [fst] in Hvs.
    unfold aiBlocked in Hfree. cbn zeta in Hfree.
    apply orb_false_iff in Hfree as [Hin Hocc]. apply negb_false_iff in Hin.
    rewrite Hin in Hvs.
    destruct Hvs as [->|[(-> & _ & other & _ & Ho & Hoe & Hos & _)|(-> & _)]];
      [congruence| |done].
    exfalso. rewrite Ho in Hocc. cbn in Hocc.
    rewrite (bool_decide_eq_false_2 (Snake.id other = EmptyString)) in Hocc by done.
    rewrite (bool_decide_eq_false_2 (Some (Snake.id other) = Some (Snake.id s))) in Hocc
      by congruence.
    done.
  - right. split; [done|]. by rewrite (prepareSnake_no_turn _ _ _ Ed) in Hdir.
Qed.

Lemma ai_policy_is_safe_witness :
  exists moves rng m,
    tickMoves beforeWall [] = Some (moves, rng)
    /\ moves !! 1%nat = Some m
    /\ Move.direction m <> Up.
Proof.
  destruct (tickMoves beforeWall []) as [[moves rng]|] eqn:Ht;
    [|vm_compute in Ht; discriminate].
  pose proof Ht as Ht0. vm_compute in Ht0. injection Ht0 as Em _.
  destruct (moves !! 1%nat) as [m|] eqn:Hm;
    [|rewrite <- Em in Hm; vm_compute in Hm; discriminate].
  exists moves, rng, m. split; [reflexivity|]. split; [exact Hm|].
  assert (Hr : reachable beforeWall).
  { apply (run_reachable wallRunConfig (wallRunTicks 30)). vm_compute. reflexivity. }
  assert (Hs : State.snakes beforeWall !! 1%nat
               = Some (Snake.mk "ai-1" [mkVec2 3 0; mkVec2 3 1; mkVec2 3 2] Up true
                         None 1 0 ai 0 [] 39)) by (vm_compute; reflexivity).
  destruct (ai_policy_is_safe beforeWall [] moves rng 1 _ m (mkVec2 3 0) (mkVec2 3 2)
              Hr Ht Hs Hm eq_refl)
    as [(d & Hne & Hfree & Hd & _)|[Hall _]].
  - intros c Hc. apply elem_of_nil in Hc. destruct Hc.
  - reflexivity.
  - reflexivity.
  - rewrite Hd. intros ->. vm_compute in Hfree. discriminate Hfree.
  - specialize (Hall Left). vm_compute in Hall. discriminate Hall. discriminate.
Defined.

(** ** Speed boosts *)

Lemma foodOk_template f :
  foodOk f ->
  Food.effect f = None \/ Food.effect f = Some (Template.mk speedBoost (16 # 10) 18).
Proof.
  intros (d & Hd & _ & _ & ->). unfold foodDefinitions in Hd.
  repeat (apply elem_of_cons in Hd as [->|Hd]); [by left|by left|by right|].
  by apply elem_of_nil in Hd.
Qed.

Lemma pruneEffects_elem effects tick e :
  e ∈ pruneEffects effects tick <-> e ∈ effects /\ tick < Effect.expiresAtTick e.
Proof.
  unfold pruneEffects. rewrite list_elem_of_In, filter_In, <- list_elem_of_In.
  by rewrite bool_decide_eq_true.
Qed.

Lemma survivor_effects state safe s cm pm m :
  snakeOk s -> Forall foodOk (State.foods state) ->
  Forall (effectOk (State.tick state)) (Snake.effects s) ->
  proposeMove state (prepareSnake state cm s) = Some pm -> settled safe pm m ->
  Snake.alive (applyMove state m) = true ->
  Forall (effectOk (State.tick state + 1)) (Snake.effects (applyMove state m)).
Proof.
  intros Hsok Hfoods Heff Hprop Hset Halive.
  pose proof (snakeOk_prepare state cm s Hsok) as Hpok.
  pose proof (snakeOk_willMove _ Hpok) as Hw.
  pose proof (prepareSnake_fields state cm s)
    as (_ & _ & _ & _ & _ & _ & _ & _ & Hpe & _). cbn in Hpe.
  destruct Hpok as (Hpa & _ & _ & _ & h0 & n & rest & Hsegs & _ & _).
  destruct (proposeMove_moving state _ h0 (n :: rest) Hpa Hw Hsegs) as (tk & Epm).
  rewrite Hprop in Epm. injection Epm as ->.
  assert (Hm : m = Move.mk (prepareSnake state cm s) true
                     (maybeTurn (prepareSnake state cm s)).1
                     (Some (nextPosition h0 (maybeTurn (prepareSnake state cm s)).1))
                     (match foodAt state (nextPosition h0 (maybeTurn (prepareSnake state cm s)).1) with
                      | Some f => Food.growth f
                      | None => 0
                      end)
                     (Food.id <$> foodAt state (nextPosition h0 (maybeTurn (prepareSnake state cm s)).1))
                     (foodAt state (nextPosition h0 (maybeTurn (prepareSnake state cm s)).1) ≫= Food.effect)
                     (Snake.accumulator (prepareSnake state cm s)
                      + Snake.speed (prepareSnake state cm s)
                        * getSpeedMultiplier (Snake.effects (prepareSnake state cm s)) - 1)%Q
                     (maybeTurn (prepareSnake state cm s)).2 false None tk).
  { destruct Hset as [->|(r & -> & _)]; [done|]. exfalso.
    unfold applyMove in Halive. cbn in Halive. rewrite Hpa in Halive. done. }
  subst m. unfold applyMove. cbn. rewrite Hpa. cbn.
  assert (Hold : Forall (effectOk (State.tick state + 1))
                        (Snake.effects (prepareSnake state cm s))).
  { rewrite Hpe. apply Forall_forall. intros e He.
    apply pruneEffects_elem in He as [He Hlt].
    destruct (proj1 (Forall_forall _ _) Heff e He) as (? & ? & ?).
    split_and!; [done|done|lia|lia]. }
  set (nh := nextPosition h0 _).
  assert (Htpl : foodAt state nh ≫= Food.effect = None
                 \/ foodAt state nh ≫= Food.effect
                    = Some (Template.mk speedBoost (16 # 10) 18)).
  { destruct (foodAt state nh) as [f|] eqn:Ef; [|by left]. cbn.
    apply foodOk_template. apply (proj1 (Forall_forall _ _) Hfoods).
    by eapply foodAt_elem. }
  destruct (bool_decide _); cbn; destruct Htpl as [E|E]; rewrite E; cbn;
    try exact Hold;
    (apply Forall_app; split; [exact Hold|]); (constructor; [|constructor]);
    unfold effectOk; cbn; split_and!; try done; lia.
Qed.

Lemma createInitialState_effects pc state :
  createInitialState pc = Some state -> effectsOk state.
Proof.
  intros H. apply createInitialState_snakes in H as (l & _ & Hs & _).
  unfold effectsOk. rewrite Hs. constructor; [constructor|].
  apply Forall_forall. intros s Hin.
  apply initialAi_built in Hin as (i & l' & _ & ->). constructor.
Qed.

Lemma finishTick_effects state commands moves rng :
  stateOk state -> effectsOk state ->
  tickMoves state commands = Some (moves, rng) ->
  effectsOk (finishTick state rng moves).
Proof.
  intros (Hok & _ & Hfoods) Heff Ht. unfold effectsOk.
  destruct (finishTick_fields state rng moves) as (-> & _ & ->).
  apply tickMoves_spec in Ht as (cm & _ & Hall).
  apply Forall_app. split.
  - apply Forall_forall. intros t Hin.
    apply list_elem_of_In, filter_In in Hin as [Hin Halive].
    apply list_elem_of_In, list_elem_of_fmap in Hin as (m & -> & Hm).
    apply list_elem_of_lookup in Hm as [i Hi].
    destruct (Forall2_lookup_r _ _ _ _ _ Hall Hi) as (s & Hs & pm & Hprop & Hset).
    assert (Hsin : s ∈ State.snakes state) by (by eapply list_elem_of_lookup_2).
    eapply survivor_effects; [| | |exact Hprop|exact Hset|done].
    + by apply (proj1 (Forall_forall _ _) Hok).
    + done.
    + by apply (proj1 (Forall_forall _ _) Heff).
  - apply respawnAll_respawned. intros id layout c. constructor.
Qed.

Lemma reachable_effects state : reachable state -> effectsOk state.
Proof.
  induction 1 as [pc state H|state commands state' Hr IH H].
  - by eapply createInitialState_effects.
  - unfold advanceState in H. case_bool_decide as Hst; [by injection H as <-|].
    apply bind_Some in H as ([moves rng] & Ht & H). injection H as <-.
    eapply finishTick_effects; [by apply reachable_ok|done..].
Qed.

Lemma multiplier_power effects acc :
  Forall (fun e => Effect.multiplier e = (16 # 10)%Q) effects ->
  (fold_left
     (fun multiplier e =>
        match Effect.type e with
        | speedBoost => (multiplier * Effect.multiplier e)%Q
        end) effects acc
   == acc * (16 # 10) ^ Z.of_nat (length effects))%Q.
Proof.
  revert acc. induction effects as [|e effects IH]; intros acc Hall.
  - cbn [fold_left length Z.of_nat]. change ((16 # 10) ^ 0)%Q with 1%Q.
    by rewrite Qmult_1_r.
  - apply Forall_cons in Hall as [He Hall]. cbn [fold_left length].
    rewrite IH by done. destruct (Effect.type e). rewrite He.
    rewrite Nat2Z.inj_succ, <- Z.add_1_r, Qpower_plus by done.
    change ((16 # 10) ^ 1)%Q with (16 # 10)%Q.
    generalize ((16 # 10) ^ Z.of_nat (length effects))%Q. intros q.
    rewrite <- Qmult_assoc. apply Qmult_comp; [reflexivity|apply Qmult_comm].
Qed.

(** X14: every effect a snake of a reachable state carries is the 1.6
    speed boost of a `speed` food and expires at most 17 ticks after the
    tick of the state; so in the next tick the speed of the snake is
    multiplied by 1.6 to the number of its boosts that have not expired. *)
Theorem boosts_expire (state : State.t) (s : Snake.t) :
  reachable state ->
  s ∈ State.snakes state ->
  Forall (fun e =>
            Effect.type e = speedBoost
            /\ Effect.multiplier e = (16 # 10)%Q
            /\ State.tick state <= Effect.expiresAtTick e <= State.tick state + 17)
         (Snake.effects s)
  /\ (getSpeedMultiplier (pruneEffects (Snake.effects s) (State.tick state))
      == (16 # 10) ^ Z.of_nat (length (pruneEffects (Snake.effects s) (State.tick state))))%Q.
Proof.
  intros Hr Hs. pose proof (reachable_effects _ Hr) as Heff.
  pose proof (proj1 (Forall_forall _ _) Heff s Hs) as He. split; [exact He|].
  unfold getSpeedMultiplier. rewrite multiplier_power; [apply Qmult_1_l|].
  apply Forall_forall. intros e Hin. apply pruneEffects_elem in Hin as [Hin _].
  by destruct (proj1 (Forall_forall _ _) He e Hin) as (_ & ? & _).
Qed.

Lemma boosts_expire_witness :
  exists state s,
    run boostConfig [[]] = Some state
    /\ State.snakes state !! 0%nat = Some s
    /\ Snake.effects s <> []
    /\ Forall (fun e =>
                 Effect.type e = speedBoost
                 /\ Effect.multiplier e = (16 # 10)%Q
                 /\ State.tick state <= Effect.expiresAtTick e <= State.tick state + 17)
              (Snake.effects s).
Proof.
  destruct (run boostConfig [[]]) as [state|] eqn:Hrun; [|vm_compute in Hrun; discriminate].
  pose proof Hrun as H0. vm_compute in H0. injection H0 as Es.
  destruct (State.snakes state !! 0%nat) as [s|] eqn:Hs;
    [|rewrite <- Es in Hs; vm_compute in Hs; discriminate].
  exists state, s. split; [reflexivity|]. split; [exact Hs|]. split.
  - pose proof Hs as Hs0. rewrite <- Es in Hs0. vm_compute in Hs0.
    injection Hs0 as <-. discriminate.
  - refine (proj1 (boosts_expire state s _ _)).
    + eapply run_reachable. exact Hrun.
    + eapply list_elem_of_lookup_2. exact Hs.
Defined.

(** ** Runs *)

Lemma advanceAll_gameover state ticks :
  State.status state = gameover -> advanceAll state ticks = Some state.
Proof.
  intros Hst. induction ticks as [|c ticks IH]; [done|]. cbn.
  unfold advanceState. rewrite Hst. cbn. exact IH.
Qed.

Lemma advanceState_clock state commands state' :
  advanceState state commands = Some state' ->
  (State.status state = running
   /\ State.tick state' = State.tick state + 1
   /\ State.config state' = State.config state)
  \/ (State.status state = gameover /\ state' = state).
Proof.
  unfold advanceState. destruct (State.status state) eqn:Hst; cbn.
  - intros H. apply bind_Some in H as ([moves rng] & _ & [= <-]). left.
    destruct (finishTick_fields state rng moves) as (-> & -> & _). done.
  - intros [= <-]. by right.
Qed.

(** X15: a run keeps its config, and its clock counts the ticks that found
    the game running: the tick of the last state is the number of ticks run
    as long as the game is running at the end, and a game that is over
    takes no further tick. *)
Theorem run_clock (state state' : State.t) (ticks : list (list Command.t)) :
  advanceAll state ticks = Some state' ->
  State.config state' = State.config state
  /\ State.tick state <= State.tick state' <= State.tick state + Z.of_nat (length ticks)
  /\ (State.status state' = running ->
      State.tick state' = State.tick state + Z.of_nat (length ticks))
  /\ (State.status state = gameover -> state' = state).
Proof.
  revert state. induction ticks as [|c ticks IH]; intros state; cbn [advanceAll].
  - intros [= <-]. cbn. split_and!; try done; intros; lia.
  - intros H. apply bind_Some in H as (s1 & H1 & H).
    apply advanceState_clock in H1 as [(Hst & Ht & Hc)|(Hst & ->)].
    + destruct (IH _ H) as (Hc' & Hle & Hrun & _). rewrite Hc', Hc, Ht in *.
      cbn [length]. split_and!; [done|lia|lia| |congruence].
      intros Hr. rewrite (Hrun Hr). lia.
    + rewrite (advanceAll_gameover _ _ Hst) in H. injection H as <-.
      cbn [length]. split_and!; [done|lia|lia|congruence|done].
Qed.

Lemma run_clock_witness :
  State.tick afterRespawn = 27.
Proof.
  destruct (createInitialState wallRunConfig) as [s0|] eqn:H0;
    [|vm_compute in H0; discriminate].
  assert (Hrun : advanceAll s0 (wallRunTicks 27) = Some afterRespawn).
  { pose proof H0 as H1. vm_compute in H1. injection H1 as <-. vm_compute. reflexivity. }
  assert (Ht : State.tick s0 = 0).
  { pose proof H0 as H1. vm_compute in H1. injection H1 as <-. reflexivity. }
  pose proof (proj1 (proj2 (proj2 (run_clock s0 afterRespawn (wallRunTicks 27) Hrun))))
    as Hclock.
  rewrite Ht in Hclock. apply Hclock. vm_compute. reflexivity.
Defined.

(** ** The initial state *)




(** ** The food table *)

Lemma totalFoodWeight_one : (totalFoodWeight == 1)%Q.
Proof. reflexivity. Qed.

(** X17: pickFoodDefinition makes one draw v and returns the row of the
    table its cumulative weights select: `standard` for v <= 0.6, `bulk`
    for 0.6 < v <= 0.8, `speed` above. *)
Theorem food_kind_by_draw (rng : Z) :
  (pickFoodDefinition rng).2 = (next rng).2
  /\ (pickFoodDefinition rng).1 ∈ foodDefinitions
  /\ FoodDef.kind (pickFoodDefinition rng).1
     = if Qle_bool (next rng).1 (6 # 10) then standard
       else if Qle_bool (next rng).1 (8 # 10) then bulk
       else speed.
Proof.
  split; [|split; [apply pickFoodDefinition_elem|]];
    unfold pickFoodDefinition; destruct (next rng) as [v r]; [done|].
  cbn [fst snd pickFrom foodDefinitions FoodDef.weight speedDefinition].
  pose proof totalFoodWeight_one as Ht.
  destruct (Qle_bool (v * totalFoodWeight - (6 # 10)) 0) eqn:E1;
    destruct (Qle_bool v (6 # 10)) eqn:E2; cbn [default FoodDef.kind]; try done.
  - apply Qle_bool_iff in E1. apply not_true_iff_false in E2.
    exfalso. apply E2. apply Qle_bool_iff. rewrite Ht in E1. lra.
  - apply Qle_bool_iff in E2. apply not_true_iff_false in E1.
    exfalso. apply E1. apply Qle_bool_iff. rewrite Ht. lra.
  - destruct (Qle_bool (v * totalFoodWeight - (6 # 10) - (2 # 10)) 0) eqn:E3;
      destruct (Qle_bool v (8 # 10)) eqn:E4; cbn [default FoodDef.kind]; try done.
    + apply Qle_bool_iff in E3. apply not_true_iff_false in E4.
      exfalso. apply E4. apply Qle_bool_iff. rewrite Ht in E3. lra.
    + apply Qle_bool_iff in E4. apply not_true_iff_false in E3.
      exfalso. apply E3. apply Qle_bool_iff. rewrite Ht. lra.
    + destruct (Qle_bool (v * totalFoodWeight - (6 # 10) - (2 # 10) - (2 # 10)) 0); reflexivity.
Qed.

(** ** No exception *)




(** ** The frame loop *)

Lemma ticksOf_nil n : ticksOf n [] = replicate n [].
Proof. by destruct n. Qed.

Lemma clearQueue_length queue : (length (clearQueue queue) <= 4)%nat.
Proof.
  unfold clearQueue. case_bool_decide as H; [|lia]. rewrite length_drop. lia.
Qed.

Lemma clearQueue_suffix queue : clearQueue queue `suffix_of` queue.
Proof.
  unfold clearQueue. case_bool_decide; [apply suffix_drop|done].
Qed.

Lemma ticksDue_zero delta acc :
  ticksDue delta acc 0 <-> F64.leb delta acc = false.
Proof.
  unfold ticksDue. cbn. split; [by intros [_ H]|]. intros H. split; [lia|done].
Qed.

Lemma afterTicks_succ delta acc k :
  afterTicks delta acc (S k) = afterTicks delta (F64.sub acc delta) k.
Proof.
  unfold afterTicks. exact (Nat.iter_succ_r k (fun a => F64.sub a delta) acc).
Qed.

Lemma ticksDue_succ delta acc k :
  ticksDue delta acc (S k)
  <-> F64.leb delta acc = true /\ ticksDue delta (F64.sub acc delta) k.
Proof.
  unfold ticksDue. split.
  - intros [Hlt Hk]. split; [apply (Hlt 0%nat); lia|]. split.
    + intros j Hj. rewrite <- afterTicks_succ. apply Hlt. lia.
    + by rewrite <- afterTicks_succ.
  - intros (H0 & Hlt & Hk). split.
    + intros [|j] Hj; [done|]. rewrite afterTicks_succ. apply Hlt. lia.
    + by rewrite afterTicks_succ.
Qed.

Lemma ticksDue_unique delta acc k k' :
  ticksDue delta acc k -> ticksDue delta acc k' -> k = k'.
Proof.
  revert acc k'. induction k as [|k IH]; intros acc [|k'] H H'; try done.
  - apply ticksDue_zero in H. apply ticksDue_succ in H' as [H' _]. congruence.
  - apply ticksDue_zero in H'. apply ticksDue_succ in H as [H _]. congruence.
  - apply ticksDue_succ in H as [_ H]. apply ticksDue_succ in H' as [_ H'].
    f_equal. by eapply IH.
Qed.

(** now - now is +0 or NaN. *)
Lemma F64_sub_diag now :
  F64.sub now now = S754_zero false \/ F64.sub now now = S754_nan.
Proof.
  destruct now as [[]|[]| |s m e]; cbn; auto.
  left. unfold F64.sub, SFsub. by rewrite Z.sub_diag.
Qed.

Lemma frameTime_reset now loop delta :
  Loop.loopReset loop = true ->
  F64.leb delta (F64.ofZ 0) = false ->
  ticksDue delta (frameTime now loop) 0.
Proof.
  intros Hreset Hd. apply ticksDue_zero. unfold frameTime. rewrite Hreset.
  destruct (F64_sub_diag now) as [-> | ->]; [exact Hd|].
  by destruct delta.
Qed.

(** No tick of a frame throws. *)
Lemma whileTicks_returns fuel :
  forall delta acc commands state,
    reachable state -> whileTicks fuel delta acc commands state <> Threw.
Proof.
  induction fuel as [|fuel IH]; intros delta acc commands state Hr; cbn [whileTicks].
  - by destruct (F64.leb delta acc).
  - destruct (F64.leb delta acc); [|done].
    destruct (advanceState_ok state commands (reachable_ok _ Hr)) as (s1 & H1 & _).
    rewrite H1. cbn zeta. case_bool_decide; [done|].
    apply IH. exact (reachable_advance _ _ _ Hr H1).
Qed.

Lemma whileTicks_spec k :
  forall fuel delta acc commands state,
    reachable state ->
    ticksDue delta acc k ->
    (k <= fuel)%nat ->
    exists n acc' commands' state',
      whileTicks fuel delta acc commands state = Returned (acc', commands', state')
      /\ (n <= k)%nat
      /\ advanceAll state (ticksOf n commands) = Some state'
      /\ commands' = (if n is O then commands else [])
      /\ (State.status state' = running \/ n = 0%nat ->
          n = k /\ acc' = afterTicks delta acc k)
      /\ (State.status state' <> running -> n <> 0%nat -> acc' = F64.ofZ 0).
Proof.
  induction k as [|k IH]; intros fuel delta acc commands state Hr Hdue Hfuel.
  - apply ticksDue_zero in Hdue.
    exists 0%nat, acc, commands, state.
    split; [destruct fuel; cbn [whileTicks]; by rewrite Hdue|].
    split_and!; done.
  - apply ticksDue_succ in Hdue as [Hge Hdue].
    destruct fuel as [|fuel]; [lia|]. cbn [whileTicks]. rewrite Hge.
    destruct (advanceState_ok state commands (reachable_ok _ Hr)) as (s1 & H1 & _).
    rewrite H1. cbn zeta.
    assert (Hr1 : reachable s1) by exact (reachable_advance _ _ _ Hr H1).
    case_bool_decide as Hst.
    + exists 1%nat, (F64.ofZ 0), [], s1.
      split; [done|]. split; [lia|]. split; [by cbn; rewrite H1|].
      split; [done|]. split; [|done]. intros [Hrun|]; [done|lia].
    + destruct (IH fuel delta (F64.sub acc delta) [] s1 Hr1 Hdue ltac:(lia))
        as (n & acc' & c' & s' & Hw & Hn & Hall & Hc & Hrun & Hover).
      exists (S n), acc', [], s'. rewrite Hw.
      split.
      { f_equal. f_equal. f_equal. rewrite Hc. by destruct n. }
      split; [lia|]. split.
      { cbn [ticksOf advanceAll]. rewrite H1. cbn. by rewrite <- ticksOf_nil. }
      split; [done|]. split.
      * intros [Hs|]; [|lia]. destruct (Hrun (or_introl Hs)) as [-> ->].
        split; [done|]. by rewrite afterTicks_succ.
      * intros Hs _. apply Hover; [done|]. intros ->.
        cbn in Hall. injection Hall as <-. apply Hs. by apply dec_stable.
Qed.

(** X19: a frame of a loop with a reachable state, in the arithmetic of
    the code (binary64).  When k ticks are due - the test of the while loop
    holds before each of them and fails after the last - the frame returns,
    given fuel for k ticks.  It runs n <= k ticks: the first one is given
    the whole queue, the others no command, and the queue is left empty;
    with no tick the queue keeps its last four commands.  When the game is
    still running all k ticks were run and the accumulator is what k
    subtractions of the interval leave; when a tick ended the game the
    accumulator is 0.  The frame after a restart runs no tick, whatever the
    clock, when the interval is positive.  Whatever the fuel and the clock,
    no tick of a frame throws. *)
Theorem frame_runs_ticks (fuel k : nat) (now : F64.t) (loop : Loop.t) :
  reachable (Loop.state loop) ->
  let delta := targetDelta (Loop.config loop) in
  (forall fuel', frame fuel' now loop <> Threw)
  /\ (ticksDue delta (frameTime now loop) k ->
      (k <= fuel)%nat ->
      exists n loop',
        frame fuel now loop = Returned loop'
        /\ (n <= k)%nat
        /\ advanceAll (Loop.state loop) (ticksOf n (Loop.queue loop))
           = Some (Loop.state loop')
        /\ Loop.queue loop' = (if n is O then clearQueue (Loop.queue loop) else [])
        /\ (length (Loop.queue loop') <= 4)%nat
        /\ Loop.queue loop' `suffix_of` Loop.queue loop
        /\ Loop.previous loop' = now
        /\ Loop.loopReset loop' = false
        /\ Loop.config loop' = Loop.config loop
        /\ (State.status (Loop.state loop') = running \/ n = 0%nat ->
            n = k
            /\ Loop.accumulator loop' = afterTicks delta (frameTime now loop) k
            /\ F64.leb delta (Loop.accumulator loop') = false)
        /\ (State.status (Loop.state loop') <> running -> n <> 0%nat ->
            Loop.accumulator loop' = F64.ofZ 0)
        /\ (Loop.loopReset loop = true -> F64.leb delta (F64.ofZ 0) = false ->
            k = 0%nat)).
Proof.
  intros Hr delta.
  assert (E : (let '(accumulator, previous) :=
                 if Loop.loopReset loop then (F64.ofZ 0, now)
                 else (Loop.accumulator loop, Loop.previous loop) in
               F64.add accumulator (F64.sub now previous)) = frameTime now loop).
  { unfold frameTime. by destruct (Loop.loopReset loop). }
  split.
  { intros fuel'. unfold frame. fold delta.
    pose proof (whileTicks_returns fuel' delta (frameTime now loop)
                  (Loop.queue loop) (Loop.state loop) Hr) as Hw.
    destruct (Loop.loopReset loop); cbn zeta in *; rewrite E;
      by destruct (whileTicks _ _ _ _ _) as [[[? ?] ?]| |]. }
  intros Hdue Hfuel.
  destruct (whileTicks_spec k fuel delta (frameTime now loop) (Loop.queue loop)
              (Loop.state loop) Hr Hdue Hfuel)
    as (n & acc' & c' & s' & Hw & Hn & Hall & Hc & Hrun & Hover).
  exists n, (Loop.mk now acc' false (Loop.config loop) (clearQueue c') s').
  assert (Hq : clearQueue c' = (if n is O then clearQueue (Loop.queue loop) else [])).
  { rewrite Hc. by destruct n. }
  split.
  { unfold frame. fold delta.
    destruct (Loop.loopReset loop); cbn zeta in *; rewrite E, Hw; done. }
  split; [done|]. split; [done|]. split; [done|].
  split; [apply clearQueue_length|].
  split.
  { cbn. rewrite Hq. destruct n; [apply clearQueue_suffix|apply suffix_nil]. }
  split; [done|]. split; [done|]. split; [done|].
  split.
  { intros H. destruct (Hrun H) as [-> ->]. split; [done|]. split; [done|].
    cbn. by destruct Hdue as [_ Hdue]. }
  split; [exact Hover|].
  intros Hreset Hd.
  exact (ticksDue_unique _ _ _ _ Hdue (frameTime_reset now loop delta Hreset Hd)).
Qed.

Lemma frame_runs_ticks_witness :
  exists loop',
    frame 20 (F64.ofZ 6000) lateLoop = Returned loop'
    /\ Loop.queue loop' = []
    /\ State.tick (Loop.state loop') = 11
    /\ F64.toQ (Loop.accumulator loop') = Some (5864062014805327 # 70368744177664).
Proof.
  assert (Hr : reachable (Loop.state lateLoop)).
  { apply (reachable_initial (Partial.mk (Some 40) (Some 30) (Some 12) None None)).
    vm_compute. reflexivity. }
  destruct (proj2 (frame_runs_ticks 20 11 (F64.ofZ 6000) lateLoop Hr))
    as (n & loop' & Hf & _).
  - split; [|vm_compute; reflexivity].
    intros j Hj. do 11 (destruct j as [|j]; [vm_compute; reflexivity|]). lia.
  - lia.
  - exists loop'. split; [exact Hf|].
    pose proof Hf as Hf0. vm_compute in Hf0. injection Hf0 as <-.
    split; [reflexivity|]. split; reflexivity.
Defined.

(** ** Growth *)

Lemma foodOk_growth f : foodOk f -> Food.growth f = 1 \/ Food.growth f = 3.
Proof.
  intros (d & Hd & _ & -> & _). unfold foodDefinitions in Hd.
  repeat (apply elem_of_cons in Hd as [->|Hd]); [by left|by right|by left|].
  by apply elem_of_nil in Hd.
Qed.

(** A move the collision passes left alone, field by field. *)
Lemma uncollided_move state safe cm s pm m :
  snakeOk s ->
  proposeMove state (prepareSnake state cm s) = Some pm -> settled safe pm m ->
  Move.collided m = false ->
  exists h0 tk,
    Snake.segments s !! 0%nat = Some h0
    /\ Snake.alive (prepareSnake state cm s) = true
    /\ m = Move.mk (prepareSnake state cm s) true
             (maybeTurn (prepareSnake state cm s)).1
             (Some (nextPosition h0 (maybeTurn (prepareSnake state cm s)).1))
             (match foodAt state (nextPosition h0 (maybeTurn (prepareSnake state cm s)).1) with
              | Some f => Food.growth f
              | None => 0
              end)
             (Food.id <$> foodAt state (nextPosition h0 (maybeTurn (prepareSnake state cm s)).1))
             (foodAt state (nextPosition h0 (maybeTurn (prepareSnake state cm s)).1)
              ≫= Food.effect)
             (Snake.accumulator (prepareSnake state cm s)
              + Snake.speed (prepareSnake state cm s)
                * getSpeedMultiplier (Snake.effects (prepareSnake state cm s)) - 1)%Q
             (maybeTurn (prepareSnake state cm s)).2 false None tk.
Proof.
  intros Hsok Hprop Hset Hcol.
  pose proof (snakeOk_prepare state cm s Hsok) as Hpok.
  pose proof (snakeOk_willMove _ Hpok) as Hw.
  pose proof (prepareSnake_fields state cm s) as (_ & Hseg & _). cbn in Hseg.
  destruct Hpok as (Hpa & _ & _ & _ & h0 & n & rest & Hsegs & _ & _).
  destruct (proposeMove_moving state _ h0 (n :: rest) Hpa Hw Hsegs) as (tk & Epm).
  rewrite Hprop in Epm. injection Epm as ->.
  exists h0, tk. split; [by rewrite <- Hseg, Hsegs|]. split; [done|].
  destruct Hset as [->|(r & -> & _)]; [done|]. by cbn in Hcol.
Qed.

Lemma survivor_growth state safe cm s pm m :
  snakeOk s -> Forall foodOk (State.foods state) ->
  0 <= Snake.pendingGrowth s ->
  proposeMove state (prepareSnake state cm s) = Some pm -> settled safe pm m ->
  Move.collided m = false ->
  0 <= Move.growth m <= 3
  /\ 0 <= Snake.pendingGrowth (applyMove state m)
  /\ Z.of_nat (length (Snake.segments (applyMove state m)))
     + Snake.pendingGrowth (applyMove state m)
     = Z.of_nat (length (Snake.segments s)) + Snake.pendingGrowth s + Move.growth m
  /\ (length (Snake.segments (applyMove state m))
      = if bool_decide (0 < Snake.pendingGrowth s + Move.growth m)
        then S (length (Snake.segments s))
        else length (Snake.segments s)).
Proof.
  intros Hsok Hfoods Hpg Hprop Hset Hcol.
  destruct (uncollided_move _ _ _ _ _ _ Hsok Hprop Hset Hcol) as (h0 & tk & Hh & Hpa & ->).
  pose proof (prepareSnake_fields state cm s)
    as (_ & Hseg & _ & _ & _ & _ & _ & Hg & _). cbn in Hseg, Hg.
  set (nh := nextPosition h0 _).
  assert (Hgrowth : 0 <= match foodAt state nh with
                         | Some f => Food.growth f
                         | None => 0
                         end <= 3).
  { destruct (foodAt state nh) as [f|] eqn:Ef; [|lia].
    destruct (foodOk_growth f) as [-> | ->]; [|lia|lia].
    apply (proj1 (Forall_forall _ _) Hfoods). by eapply foodAt_elem. }
  unfold applyMove. cbn -[removelast]. rewrite Hpa, Hseg, Hg. cbn -[removelast].
  set (g := match foodAt state nh with Some f => Food.growth f | None => 0 end) in *.
  case_bool_decide as Hpos; cbn -[removelast].
  - split_and!; [lia..|done].
  - assert (Hlen : length (removelast (nh :: Snake.segments s))
                   = length (Snake.segments s)).
    { rewrite removelast_length. by cbn. }
    rewrite Hlen. split_and!; [lia..|done].
Qed.

Lemma createInitialState_growth pc state :
  createInitialState pc = Some state -> growthOk state.
Proof.
  intros H. apply createInitialState_snakes in H as (l & _ & Hs & _).
  unfold growthOk. rewrite Hs. constructor; [done|].
  apply Forall_forall. intros s Hin.
  by apply initialAi_built in Hin as (i & l' & _ & ->).
Qed.

Lemma finishTick_growth state commands moves rng :
  stateOk state -> growthOk state ->
  tickMoves state commands = Some (moves, rng) ->
  growthOk (finishTick state rng moves).
Proof.
  intros (Hok & _ & Hfoods) Hg Ht. unfold growthOk.
  destruct (finishTick_fields state rng moves) as (_ & _ & ->).
  apply tickMoves_spec in Ht as (cm & _ & Hall).
  apply Forall_app. split.
  - apply Forall_forall. intros t Hin.
    apply list_elem_of_In, filter_In in Hin as [Hin Halive].
    apply list_elem_of_In, list_elem_of_fmap in Hin as (m & -> & Hm).
    apply list_elem_of_lookup in Hm as [i Hi].
    destruct (Forall2_lookup_r _ _ _ _ _ Hall Hi) as (s & Hs & pm & Hprop & Hset).
    assert (Hsin : s ∈ State.snakes state) by (by eapply list_elem_of_lookup_2).
    destruct (Move.collided m) eqn:Hcol.
    + pose proof (settled_snake _ _ _ Hset) as Hsn.
      apply proposeMove_snake in Hprop. rewrite Hprop in Hsn.
      pose proof (prepareSnake_fields state cm s)
        as (_ & _ & _ & Hal & _ & _ & _ & Hpg & _). cbn in Hal, Hpg.
      pose proof (proj1 (Forall_forall _ _) Hg s Hsin) as Hs0.
      unfold applyMove in *. rewrite Hsn, Hcol, Hal in *.
      destruct (Snake.alive s) eqn:Ea; cbn in *; [|by rewrite Hpg].
      destruct (Move.willMove m); cbn in *; [done|by rewrite Hpg].
    + eapply survivor_growth; [| | |exact Hprop|exact Hset|done].
      * by apply (proj1 (Forall_forall _ _) Hok).
      * done.
      * by apply (proj1 (Forall_forall _ _) Hg).
  - apply respawnAll_respawned. intros id layout c. done.
Qed.

Lemma reachable_growth state : reachable state -> growthOk state.
Proof.
  induction 1 as [pc state H|state commands state' Hr IH H].
  - by eapply createInitialState_growth.
  - unfold advanceState in H. case_bool_decide as Hst; [by injection H as <-|].
    apply bind_Some in H as ([moves rng] & Ht & H). injection H as <-.
    eapply finishTick_growth; [by apply reachable_ok|done..].
Qed.

(** X20: growth is paid one segment a tick.  For a snake of a reachable
    state whose move is not collided, the segments it has after the move
    plus the growth it is still owed are the segments and the growth owed
    before plus the growth of the food it eats (0, 1 or 3); it is one
    segment longer exactly when growth is owed or eaten, and the growth
    owed is never negative. *)
Theorem growth_is_conserved (state : State.t) (commands : list Command.t)
    (moves : list Move.t) (rng : Z) (i : nat) (s : Snake.t) (m : Move.t) :
  reachable state ->
  tickMoves state commands = Some (moves, rng) ->
  State.snakes state !! i = Some s ->
  moves !! i = Some m ->
  Move.collided m = false ->
  0 <= Snake.pendingGrowth s
  /\ 0 <= Move.growth m <= 3
  /\ 0 <= Snake.pendingGrowth (applyMove state m)
  /\ Z.of_nat (length (Snake.segments (applyMove state m)))
     + Snake.pendingGrowth (applyMove state m)
     = Z.of_nat (length (Snake.segments s)) + Snake.pendingGrowth s + Move.growth m
  /\ (length (Snake.segments (applyMove state m))
      = if bool_decide (0 < Snake.pendingGrowth s + Move.growth m)
        then S (length (Snake.segments s))
        else length (Snake.segments s)).
Proof.
  intros Hr Ht Hs Hm Hcol.
  pose proof (reachable_ok _ Hr) as (Hok & _ & Hfoods).
  pose proof (reachable_growth _ Hr) as Hg.
  apply tickMoves_spec in Ht as (cm & _ & Hall).
  destruct (Forall2_lookup_l _ _ _ _ _ Hall Hs) as (m' & Hm' & pm & Hprop & Hset).
  assert (m' = m) as -> by congruence.
  assert (Hsin : s ∈ State.snakes state) by (by eapply list_elem_of_lookup_2).
  pose proof (proj1 (Forall_forall _ _) Hg s Hsin) as Hpg.
  split; [done|].
  eapply survivor_growth; [|done|done|exact Hprop|exact Hset|done].
  by apply (proj1 (Forall_forall _ _) Hok).
Qed.

Lemma growth_is_conserved_witness :
  exists moves rng m,
    tickMoves beforeEating [] = Some (moves, rng)
    /\ moves !! 0%nat = Some m
    /\ Move.growth m = 1
    /\ length (Snake.segments (applyMove beforeEating m)) = 4%nat.
Proof.
  destruct (tickMoves beforeEating []) as [[moves rng]|] eqn:Ht;
    [|vm_compute in Ht; discriminate].
  pose proof Ht as Ht0. vm_compute in Ht0. injection Ht0 as Em _.
  destruct (moves !! 0%nat) as [m|] eqn:Hm;
    [|rewrite <- Em in Hm; vm_compute in Hm; discriminate].
  exists moves, rng, m. split; [reflexivity|]. split; [exact Hm|].
  assert (Hg : Move.growth m = 1 /\ Move.collided m = false).
  { pose proof Hm as Hm0. rewrite <- Em in Hm0. vm_compute in Hm0.
    injection Hm0 as <-. split; reflexivity. }
  destruct Hg as [Hg Hc]. split; [exact Hg|].
  assert (Hr : reachable beforeEating).
  { apply (run_reachable soloConfig [[]; [Command.mk "player" Down]; []; []; []; []]).
    vm_compute. reflexivity. }
  assert (Hs : State.snakes beforeEating !! 0%nat
               = Some (Snake.mk "player" [mkVec2 4 8; mkVec2 4 7; mkVec2 4 6] Down true
                         None 1 0 player 0 [] 0)) by (vm_compute; reflexivity).
  destruct (growth_is_conserved _ _ _ _ _ _ _ Hr Ht Hs Hm Hc) as (_ & _ & _ & _ & Hlen).
  rewrite Hlen, Hg. reflexivity.
Defined.

(** ** The respawn delay *)

Lemma withTicks_same t : withTicks t (Ticket.ticksRemaining t) = t.
Proof. by destruct t. Qed.

Lemma ticket_step state commands state' t :
  State.status state = running ->
  advanceState state commands = Some state' ->
  t ∈ State.respawnQueue state ->
  1 < Ticket.ticksRemaining t ->
  withTicks t (Ticket.ticksRemaining t - 1) ∈ State.respawnQueue state'.
Proof.
  intros Hst Hadv Ht Hrem.
  destruct (advanceState_tick _ _ _ Hst Hadv) as (moves & rng & Htm & ->).
  pose proof (respawnAll_outcome state rng moves) as (_ & _ & Hall).
  destruct (Hall t) as [H1 _]; [apply elem_of_app; by left|].
  rewrite finishTick_queue. by apply H1.
Qed.

(** X21: the queue holds an agent for as long as its ticket says.  In a run
    that is still going after fewer ticks than a ticket has left, the ticket
    is still in the queue, with that many ticks less, and its agent is not
    on the board. *)
Theorem respawn_delay (state state' : State.t) (ticks : list (list Command.t))
    (t : Ticket.t) :
  reachable state ->
  advanceAll state ticks = Some state' ->
  State.status state' = running ->
  t ∈ State.respawnQueue state ->
  Z.of_nat (length ticks) < Ticket.ticksRemaining t ->
  withTicks t (Ticket.ticksRemaining t - Z.of_nat (length ticks))
    ∈ State.respawnQueue state'
  /\ (Ticket.snakeId t ∉ map Snake.id (State.snakes state')).
Proof.
  revert state t. induction ticks as [|c ticks IH]; intros state t Hr Hall Hst Ht Hlen.
  - cbn in Hall. injection Hall as <-. cbn [length Z.of_nat].
    rewrite Z.sub_0_r, withTicks_same. split; [done|].
    pose proof (reachable_idsOk _ Hr) as Hids. unfold idsOk in Hids.
    apply NoDup_app in Hids as (_ & Hdis & _). intros Hin. apply (Hdis _ Hin).
    by apply list_elem_of_fmap_2.
  - cbn [advanceAll] in Hall. apply bind_Some in Hall as (s1 & H1 & Hall).
    assert (Hrun : State.status state = running).
    { destruct (State.status state) eqn:E; [done|]. exfalso.
      unfold advanceState in H1. rewrite E in H1. cbn in H1. injection H1 as <-.
      rewrite (advanceAll_gameover _ _ E) in Hall. congruence. }
    cbn [length] in Hlen.
    pose proof (ticket_step _ _ _ _ Hrun H1 Ht ltac:(lia)) as Ht1.
    destruct (IH s1 _ (reachable_advance _ _ _ Hr H1) Hall Hst Ht1) as [Hq Hs].
    { cbn. lia. }
    cbn in Hq, Hs. split; [|done].
    replace (Ticket.ticksRemaining t - Z.of_nat (length (c :: ticks)))
      with (Ticket.ticksRemaining t - 1 - Z.of_nat (length ticks)) by (cbn [length]; lia).
    exact Hq.
Qed.

Lemma respawn_delay_witness :
  Ticket.mk "ai-1" ai 1 ∈ State.respawnQueue beforeRespawn
  /\ ("ai-1" ∉ map Snake.id (State.snakes beforeRespawn)).
Proof.
  assert (Hr : reachable afterDeath).
  { apply (run_reachable wallRunConfig (wallRunTicks 4)). vm_compute. reflexivity. }
  assert (Hall : advanceAll afterDeath
                   (map (fun k => Command.mk "ai-1" Up :: loopTurn k) (seq 5 22))
                 = Some beforeRespawn) by (vm_compute; reflexivity).
  assert (Hst : State.status beforeRespawn = running) by (vm_compute; reflexivity).
  assert (Ht : Ticket.mk "ai-1" ai 23 ∈ State.respawnQueue afterDeath).
  { vm_compute. apply list_elem_of_here. }
  exact (respawn_delay _ _ _ _ Hr Hall Hst Ht eq_refl).
Defined.

(** ** The AI policy is greedy *)











(** ** The contract of replenishFood *)

(** X23: replenishFood keeps the foods it finds, in order, and adds foods
    behind them up to five in all: each new food on the grid, on a cell
    that holds no segment, no older food and no other new food.  At five
    foods or more it returns the state as it is, and it never touches
    anything but the foods and the generator. *)
Theorem replenishFood_appends (state : State.t) (rng : Z) :
  0 < Config.cols (State.config state) ->
  0 < Config.rows (State.config state) ->
  exists new,
    State.foods (replenishFood state rng) = State.foods state ++ new
    /\ Forall (fun f =>
                 inBounds (State.config state) (Food.position f) = true
                 /\ (forall s, s ∈ State.snakes state ->
                       Food.position f ∉ Snake.segments s)
                 /\ (forall g, g ∈ State.foods state ->
                       Food.position g <> Food.position f))
              new
    /\ NoDup (Food.position <$> new)
    /\ (length (State.foods state ++ new)
        <= Nat.max MAX_FOOD (length (State.foods state)))%nat
    /\ ((MAX_FOOD <= length (State.foods state))%nat ->
        replenishFood state rng = state)
    /\ State.snakes (replenishFood state rng) = State.snakes state
    /\ State.tick (replenishFood state rng) = State.tick state
    /\ State.config (replenishFood state rng) = State.config state
    /\ State.status (replenishFood state rng) = State.status state
    /\ State.respawnQueue (replenishFood state rng) = State.respawnQueue state.
Proof.
  intros Hc Hr.
  destruct (replenishFood_new state rng Hc Hr) as (new & Hf & Hin & Hnd & Hocc).
  destruct (replenishFood_fields state rng) as (Ht & Hcfg & Hs & Hst & Hq).
  exists new. split_and!; try done.
  - apply Forall_forall. intros f Hfn. split_and!.
    + by apply (proj1 (Forall_forall _ _) Hin).
    + intros s Hs' Hp. apply (Hocc (cellKey (Food.position f))).
      * by apply (list_elem_of_fmap_2 (fun f => cellKey (Food.position f))).
      * apply elem_of_occupiedCells. left. exists s. split; [done|].
        by apply list_elem_of_fmap_2.
    + intros g Hg E. apply (Hocc (cellKey (Food.position f))).
      * by apply (list_elem_of_fmap_2 (fun f => cellKey (Food.position f))).
      * apply elem_of_occupiedCells. right. rewrite <- E.
        by apply (list_elem_of_fmap_2 (fun f => cellKey (Food.position f))).
  - unfold foodCells in Hnd. rewrite (list_fmap_compose Food.position cellKey) in Hnd.
    by eapply NoDup_fmap_1.
  - rewrite <- Hf. apply replenishFood_length.
  - intros Hcap. unfold replenishFood. by rewrite bool_decide_eq_true_2.
Qed.

Lemma replenishFood_appends_witness :
  exists new,
    State.foods (replenishFood contest553 7) = new
    /\ length new = 5%nat
    /\ NoDup (Food.position <$> new).
Proof.
  destruct (replenishFood_appends contest553 7) as (new & Hf & _ & Hnd & _).
  - vm_compute. reflexivity.
  - vm_compute. reflexivity.
  - exists new. split; [exact Hf|]. split; [|exact Hnd].
    change (State.foods contest553) with (@nil Food.t) in Hf. cbn [app] in Hf.
    rewrite <- Hf. vm_compute. reflexivity.
Defined.

(** ** The joystick *)

Lemma Qlt_bool_iff a b : Qlt_bool a b = true <-> (a < b)%Q.
Proof.
  unfold Qlt_bool. rewrite negb_true_iff. split.
  - intros H. apply Qnot_le_lt. intros Hle. apply Qle_bool_iff in Hle. congruence.
  - intros H. destruct (Qle_bool b a) eqn:E; [|done].
    apply Qle_bool_iff in E. lra.
Qed.

Lemma Qlt_bool_false a b : Qlt_bool a b = false <-> (b <= a)%Q.
Proof.
  unfold Qlt_bool. rewrite negb_false_iff. apply Qle_bool_iff.
Qed.

Lemma Qabs_cases x :
  ((Qabs x == x /\ 0 <= x) \/ (Qabs x == - x /\ x <= 0))%Q.
Proof.
  destruct (Qlt_le_dec x 0) as [H|H].
  - right. split; [apply Qabs_neg|]; lra.
  - left. split; [by apply Qabs_pos|done].
Qed.

Lemma Qlt_bool_comp a a' b b' :
  (a == a')%Q -> (b == b')%Q -> Qlt_bool a b = Qlt_bool a' b'.
Proof. intros Ha Hb. unfold Qlt_bool. by rewrite Ha, Hb. Qed.

(** X24: the joystick gives no direction while both components of its
    vector are below 12; otherwise the direction of the larger component:
    the vector has at least 12 along the direction and no more across it
    than along it, and the opposite vector gives the opposite direction. *)
Theorem joystick_direction (dx dy : Q) :
  (resolveDirectionFromVector dx dy = None
   <-> (Qabs dx < 12 /\ Qabs dy < 12)%Q)
  /\ (forall d,
        resolveDirectionFromVector dx dy = Some d ->
        let along := (dx * inject_Z (x (directionVectors d))
                      + dy * inject_Z (y (directionVectors d)))%Q in
        let across := (dx * inject_Z (y (directionVectors d))
                       - dy * inject_Z (x (directionVectors d)))%Q in
        (12 <= along)%Q /\ (Qabs across <= along)%Q)
  /\ resolveDirectionFromVector (- dx) (- dy)
     = opposite <$> resolveDirectionFromVector dx dy.
Proof.
  unfold resolveDirectionFromVector.
  rewrite (Qlt_bool_comp (Qabs (- dx)) (Qabs dx) 12 12 (Qabs_opp dx) (Qeq_refl _)).
  rewrite (Qlt_bool_comp (Qabs (- dy)) (Qabs dy) 12 12 (Qabs_opp dy) (Qeq_refl _)).
  rewrite (Qlt_bool_comp (Qabs (- dy)) (Qabs dy) (Qabs (- dx)) (Qabs dx)
             (Qabs_opp dy) (Qabs_opp dx)).
  pose proof (Qabs_cases dx) as Hx. pose proof (Qabs_cases dy) as Hy.
  revert Hx Hy. generalize (Qabs dx) (Qabs dy). intros ax ay Hx Hy.
  assert (Hdir : forall tx ty : bool,
            (if Qlt_bool ay ax
             then Some (if tx then Right else Left)
             else Some (if ty then Down else Up)) <> None).
  { intros tx ty. by destruct (Qlt_bool ay ax). }
  destruct (Qlt_bool ax 12 && Qlt_bool ay 12) eqn:E.
  { apply andb_true_iff in E as [E1 E2]. apply Qlt_bool_iff in E1, E2.
    split; [done|]. split; [intros d Hd; discriminate Hd|reflexivity]. }
  assert (Hbig : ~ ((ax < 12)%Q /\ (ay < 12)%Q)).
  { intros [H1 H2]. apply Qlt_bool_iff in H1, H2. rewrite H1, H2 in E. done. }
  split; [split; [intros H; by apply Hdir in H|done]|].
  assert (Hmax : (12 <= ax \/ 12 <= ay)%Q).
  { destruct (Qlt_le_dec ax 12); [|by left].
    destruct (Qlt_le_dec ay 12); [|by right]. exfalso. by apply Hbig. }
  clear E Hbig Hdir.
  destruct Hx as [[Hx Hsx]|[Hx Hsx]], Hy as [[Hy Hsy]|[Hy Hsy]], Hmax as [Hmax|Hmax];
  (destruct (Qlt_bool ay ax) eqn:E5; rewrite ?Qlt_bool_iff, ?Qlt_bool_false in *;
   [destruct (Qlt_bool 0 dx) eqn:E7, (Qlt_bool 0 (- dx)) eqn:E8
   |destruct (Qlt_bool 0 dy) eqn:E9, (Qlt_bool 0 (- dy)) eqn:E10]);
  rewrite ?Qlt_bool_iff, ?Qlt_bool_false in *; try (exfalso; lra);
  (split; [|reflexivity]); intros d [= <-];
  cbn [directionVectors x y]; unfold inject_Z; (split; [lra|]);
  apply Qabs_Qle_condition; split; lra.
Qed.
